(** * aicode: session log, REPL dispatch, raw input handler and file tools

    A shallow embedding of the TypeScript sources
      - [core/session/manager.ts]  (class [SessionManager]),
      - [cli/repl.ts]              (class [REPL]),
      - [cli/raw-input.ts]         (class [RawInputHandler]),
      - [core/tools/file.ts], [core/tools/shell.ts] (the built-in tools),
    together with the properties the specification states about them. *)

From stdpp Require Import base option list numbers strings pretty gmap.
From Stdlib Require Import ZArith Lia.

Local Open Scope Z_scope.

(** ** JavaScript strings

    A JS string is a sequence of UTF-16 code units; [length], indexing,
    [slice], [startsWith] and the regular expressions used by the sources all
    work on code units, so a string is modelled as the list of its code
    units. *)
Module JS.

Abbreviation jsstring := (list N).

(** A string literal of the source (ASCII only) as code units. *)
Fixpoint lit (s : string) : jsstring :=
  match s with
  | EmptyString => []
  | String a rest => Ascii.N_of_ascii a :: lit rest
  end.

Arguments lit : simpl never.

(** [s.startsWith(p)] *)
Fixpoint startsWith (s p : jsstring) : bool :=
  match p, s with
  | [], _ => true
  | _ :: _, [] => false
  | c :: p', d :: s' => if decide (c = d) then startsWith s' p' else false
  end.

(** [s.includes(p)] *)
Fixpoint includes (s p : jsstring) : bool :=
  startsWith s p ||
  match s with
  | [] => false
  | _ :: s' => includes s' p
  end.

(** ECMAScript [WhiteSpace] and [LineTerminator] code units: the class [\s]
    of regular expressions and the characters removed by [trim()]. *)
Definition isWhiteSpace (c : N) : bool :=
  ((9 <=? c) && (c <=? 13) || (c =? 32) || (c =? 160) || (c =? 5760)
   || (8192 <=? c) && (c <=? 8202) || (c =? 8232) || (c =? 8233)
   || (c =? 8239) || (c =? 8287) || (c =? 12288) || (c =? 65279))%N.

Fixpoint trimStart (s : jsstring) : jsstring :=
  match s with
  | [] => []
  | c :: s' => if isWhiteSpace c then trimStart s' else s
  end.

Definition trimEnd (s : jsstring) : jsstring := reverse (trimStart (reverse s)).

(** [s.trim()] *)
Definition trim (s : jsstring) : jsstring := trimEnd (trimStart s).

(** [s.toLowerCase()] where the REPL and the chat loop use it: the letters
    A to Z are folded, other code units are kept.  Both compare the result
    only with [/exit], [/quit] and the names of the command table, and the
    outcome of these comparisons is the one the engine's function gives:
    the two agree on ASCII text, and text with a character outside ASCII
    equals none of these words under either (its lower case is outside
    ASCII again, except for U+212A, which gives [k], a letter none of the
    words has, and U+0130, which gives [i] followed by U+0307).  The raw
    input handler, which lower-cases registered names and typed text, takes
    the engine's function as it is ([RawInput.Engine]). *)
Definition lowerUnit (c : N) : N :=
  if ((65 <=? c) && (c <=? 90))%N then (c + 32)%N else c.

Definition toLowerCase (s : jsstring) : jsstring := lowerUnit <$> s.

(** [s.split(/\s+/)]: [inGap] tells that the previous code unit belonged to
    the separator being skipped, [cur] is the current part, reversed. *)
Fixpoint splitGo (inGap : bool) (cur : jsstring) (s : jsstring) : list jsstring :=
  match s with
  | [] => [reverse cur]
  | c :: s' =>
      if isWhiteSpace c then
        if inGap then splitGo true cur s' else reverse cur :: splitGo true [] s'
      else splitGo false (c :: cur) s'
  end.

Definition splitWhitespace (s : jsstring) : list jsstring := splitGo false [] s.

(** [s.replace(/^\//, '')] *)
Definition stripLeadingSlash (s : jsstring) : jsstring :=
  match s with
  | 47%N :: s' => s'
  | _ => s
  end.

(** [s.slice(start, end)] and [s.slice(start)]: a negative index counts
    from the end, and indices are clamped to the string. *)
Definition sliceIndex (s : jsstring) (k : Z) : nat :=
  Z.to_nat (if k <? 0 then Z.max (Z.of_nat (length s) + k) 0
            else Z.min k (Z.of_nat (length s))).

Definition slice (s : jsstring) (start stop : Z) : jsstring :=
  take (sliceIndex s stop - sliceIndex s start) (drop (sliceIndex s start) s).

Definition sliceFrom (s : jsstring) (start : Z) : jsstring :=
  drop (sliceIndex s start) s.

(** [s.search(/\S/)]: the index of the first code unit that is not white
    space, or [-1]. *)
Fixpoint searchNonSpace (s : jsstring) : Z :=
  match s with
  | [] => -1
  | c :: s' =>
      if isWhiteSpace c then
        (if searchNonSpace s' <? 0 then -1 else 1 + searchNonSpace s')
      else 0
  end.

(** [s.indexOf(c, from)] for a single code unit [c] and [from >= 0]. *)
Fixpoint indexOfUnit (c : N) (s : jsstring) : Z :=
  match s with
  | [] => -1
  | d :: s' =>
      if decide (c = d) then 0
      else (if indexOfUnit c s' <? 0 then -1 else 1 + indexOfUnit c s')
  end.

Definition indexOfFrom (c : N) (s : jsstring) (from : Z) : Z :=
  if indexOfUnit c (drop (Z.to_nat from) s) <? 0 then -1
  else from + indexOfUnit c (drop (Z.to_nat from) s).

(** [s[i]] *)
Definition charAt (s : jsstring) (i : Z) : option N :=
  if i <? 0 then None else s !! Z.to_nat i.

(** [parseInt(s, 10)]: leading white space, an optional sign, then the
    longest run of decimal digits; [None] stands for [NaN]. *)
Definition digitValue (c : N) : option Z :=
  if ((48 <=? c) && (c <=? 57))%N then Some (Z.of_N c - 48) else None.

Fixpoint parseDigits (acc : option Z) (s : jsstring) : option Z :=
  match s with
  | [] => acc
  | c :: s' =>
      match digitValue c with
      | Some d => parseDigits (Some (10 * default 0 acc + d)) s'
      | None => acc
      end
  end.

Definition parseInt10 (s : jsstring) : option Z :=
  match trimStart s with
  | 45%N :: rest => Z.opp <$> parseDigits None rest
  | 43%N :: rest => parseDigits None rest
  | rest => parseDigits None rest
  end.

(** Decimal rendering of a number in a template literal. *)
Definition decimal (n : nat) : jsstring := lit (pretty n).

(** [Math.ceil(x / d)] for integers [x] and [d > 0]. *)
Definition ceilDiv (x d : Z) : Z := - ((- x) / d).

End JS.
Import JS.

(** ** Async functions

    An [async] function that reads and changes a world [W] and either
    returns a value or throws a value of type [E]. *)
Module Async.

Inductive Completion (E A : Type) := Returns (a : A) | Throws (e : E).
Arguments Returns {E A} a.
Arguments Throws {E A} e.

Definition M (W E A : Type) : Type := W → Completion E A * W.

Definition throw {W E A} (e : E) : M W E A := fun w => (Throws e, w).

#[global] Instance M_ret {W E} : MRet (M W E) := fun A a w => (Returns a, w).

#[global] Instance M_bind {W E} : MBind (M W E) := fun A B k m w =>
  match m w with
  | (Returns a, w1) => k a w1
  | (Throws e, w1) => (Throws e, w1)
  end.

(** [try { body } catch (error) { handler }] *)
Definition tryCatch {W E A} (body : M W E A) (handler : E → M W E A) : M W E A :=
  fun w =>
    match body w with
    | (Returns a, w1) => (Returns a, w1)
    | (Throws e, w1) => handler e w1
    end.

End Async.
Import Async.

(** ** Session manager ([core/session/manager.ts])

    Arrays, message objects and [Date] objects are JS heap objects handled
    through references: [getMessages] builds a new array of new objects with
    a spread copy, which copies the [timestamp] field as a reference.  The
    heap therefore keeps the three kinds of objects in stores indexed by
    location; allocation appends to a store. *)
Module Session.

Abbreviation loc := nat.

Inductive Role := user | assistant | system.

(** [interface SessionMessage]: [timestamp] holds a reference to a [Date]. *)
Record SessionMessage := {
  role : Role;
  content : jsstring;
  timestamp : loc
}.

Record Heap := {
  dates : list Z;                  (* Date objects: their time value *)
  objects : list SessionMessage;   (* message objects *)
  arrays : list (list loc)         (* arrays of references to message objects *)
}.

(** The fields of a [SessionManager] instance: [messages] is a reference to
    the internal array. *)
Record SessionManager := {
  messages : loc;
  maxTokens : Z
}.

Definition emptyHeap : Heap := {| dates := []; objects := []; arrays := [] |}.

Definition noMessage : SessionMessage :=
  {| role := system; content := []; timestamp := 0%nat |}.

Definition dateAt (h : Heap) (d : loc) : Z := default 0 (dates h !! d).
Definition objectAt (h : Heap) (o : loc) : SessionMessage :=
  default noMessage (objects h !! o).
Definition arrayAt (h : Heap) (a : loc) : list loc := default [] (arrays h !! a).

(** [new Date()] with the clock reading [now]. *)
Definition allocDate (h : Heap) (now : Z) : Heap * loc :=
  ({| dates := dates h ++ [now]; objects := objects h; arrays := arrays h |},
   length (dates h)).

(** An object literal [{ role, content, timestamp }]. *)
Definition allocObject (h : Heap) (m : SessionMessage) : Heap * loc :=
  ({| dates := dates h; objects := objects h ++ [m]; arrays := arrays h |},
   length (objects h)).

(** A new array with the given elements. *)
Definition allocArray (h : Heap) (elems : list loc) : Heap * loc :=
  ({| dates := dates h; objects := objects h; arrays := arrays h ++ [elems] |},
   length (arrays h)).

(** In-place update of the array at [a]. *)
Definition setArray (h : Heap) (a : loc) (elems : list loc) : Heap :=
  {| dates := dates h; objects := objects h; arrays := <[a := elems]> (arrays h) |}.

(** [Date.prototype.setTime]. *)
Definition setTime (h : Heap) (d : loc) (t : Z) : Heap :=
  {| dates := <[d := t]> (dates h); objects := objects h; arrays := arrays h |}.

(** [constructor(options = {})]: [maxTokens = options.maxTokens ?? 100000],
    [messages = []]. *)
Definition construct (h : Heap) (options_maxTokens : option Z) : Heap * SessionManager :=
  let (h1, a) := allocArray h [] in
  (h1, {| messages := a; maxTokens := default 100000 options_maxTokens |}).

(** [addMessage(role, content)]: [this.messages.push({role, content,
    timestamp: new Date()})]. *)
Definition addMessage (h : Heap) (this : SessionManager)
    (r : Role) (c : jsstring) (now : Z) : Heap :=
  let (h1, d) := allocDate h now in
  let (h2, o) := allocObject h1 {| role := r; content := c; timestamp := d |} in
  setArray h2 (messages this) (arrayAt h2 (messages this) ++ [o]).

(** [this.messages.map((msg) => ({ ...msg }))]: one new object per element,
    with the fields of the original copied as they are. *)
Fixpoint mapSpread (h : Heap) (ms : list loc) : Heap * list loc :=
  match ms with
  | [] => (h, [])
  | m :: rest =>
      let (h1, o) := allocObject h (objectAt h m) in
      let (h2, os) := mapSpread h1 rest in
      (h2, o :: os)
  end.

(** [getMessages()] returns a reference to the new array. *)
Definition getMessages (h : Heap) (this : SessionManager) : Heap * loc :=
  let (h1, os) := mapSpread h (arrayAt h (messages this)) in
  allocArray h1 os.

(** [clear()]: [this.messages = []]. *)
Definition clear (h : Heap) (this : SessionManager) : Heap * SessionManager :=
  let (h1, a) := allocArray h [] in
  (h1, {| messages := a; maxTokens := maxTokens this |}).

Definition getMaxTokens (this : SessionManager) : Z := maxTokens this.

(** The class [/[\u4e00-\u9fa5]/] of [estimateTokens]. *)
Definition isChinese (c : N) : bool := ((19968 <=? c) && (c <=? 40869))%N.

(** [estimateTokens(text)] *)
Definition estimateTokens (text : jsstring) : Z :=
  let chineseChars := Z.of_nat (length (filter (fun c => isChinese c = true) text)) in
  let otherChars := Z.of_nat (length text) - chineseChars in
  ceilDiv chineseChars 2 + ceilDiv otherChars 4.

(** [getEstimatedTokenCount()]: the loop over [this.messages]. *)
Definition countTokens (h : Heap) (ms : list loc) : Z :=
  fold_left (fun total m => total + estimateTokens (content (objectAt h m)) + 10) ms 0.

Definition getEstimatedTokenCount (h : Heap) (this : SessionManager) : Z :=
  countTokens h (arrayAt h (messages this)).

(** The [while] loop of [trimToTokenLimit]: each iteration recounts the
    whole array and removes its first element with [shift()]. *)
Fixpoint trimLoop (h : Heap) (limit : Z) (ms : list loc) : list loc :=
  match ms with
  | [] => []
  | _ :: rest => if limit <? countTokens h ms then trimLoop h limit rest else ms
  end.

(** [trimToTokenLimit()] *)
Definition trimToTokenLimit (h : Heap) (this : SessionManager) : bool * Heap :=
  let currentCount := getEstimatedTokenCount h this in
  if currentCount <=? maxTokens this then (false, h)
  else
    (true,
     setArray h (messages this)
       (trimLoop h (maxTokens this) (arrayAt h (messages this)))).


(** [getMessagesForAI()]: the [{role, content}] pairs. *)
Definition getMessagesForAI (h : Heap) (this : SessionManager) : list (Role * jsstring) :=
  (fun m => (role (objectAt h m), content (objectAt h m))) <$> arrayAt h (messages this).

(** [getMessageCount()] *)
Definition getMessageCount (h : Heap) (this : SessionManager) : nat :=
  length (arrayAt h (messages this)).

(** The ordered log as it is stored: the message objects the internal array
    refers to, oldest first. *)
Definition log (h : Heap) (this : SessionManager) : list SessionMessage :=
  objectAt h <$> arrayAt h (messages this).

(** The time values of the log's timestamps. *)
Definition logTimes (h : Heap) (this : SessionManager) : list Z :=
  (fun m => dateAt h (timestamp m)) <$> log h this.

(** Heap well-formedness for a manager: no dangling reference is reachable
    from it (true of every JS heap). *)
Definition wf (h : Heap) (this : SessionManager) : Prop :=
  (messages this < length (arrays h))%nat ∧
  Forall (fun o => (o < length (objects h))%nat) (arrayAt h (messages this)) ∧
  Forall (fun m => (timestamp m < length (dates h))%nat) (log h this).

(** The scenario of the specification: a manager with the given ceiling
    after [addMessage('user', 'hello')] and [addMessage('assistant', 'hi')]. *)
Definition twoMessages (limit : Z) : Heap * SessionManager :=
  let (h0, this) := construct emptyHeap (Some limit) in
  (addMessage (addMessage h0 this user (lit "hello") 1) this assistant (lit "hi") 2, this).

(** *** Callers of [getMessages]

    What a caller can do to the value [getMessages] returned: change the
    returned array in place, assign a field of one of the returned message
    objects, or call a mutating [Date] method on a returned [timestamp]. *)
Inductive Mutation :=
  | ArrayAssign (elems : list loc)         (* push, pop, splice, [i] = ..., length = ... *)
  | FieldAssign (i : nat) (m : SessionMessage)   (* returned[i].role = ..., .content = ..., .timestamp = ... *)
  | TimestampSetTime (i : nat) (t : Z).    (* returned[i].timestamp.setTime(t) *)

Definition setObject (h : Heap) (o : loc) (m : SessionMessage) : Heap :=
  {| dates := dates h; objects := <[o := m]> (objects h); arrays := arrays h |}.

Definition mutate (h : Heap) (returned : loc) (mu : Mutation) : Heap :=
  match mu with
  | ArrayAssign elems => setArray h returned elems
  | FieldAssign i m =>
      match arrayAt h returned !! i with
      | Some o => setObject h o m
      | None => h                          (* TypeError: nothing is changed *)
      end
  | TimestampSetTime i t =>
      match arrayAt h returned !! i with
      | Some o => setTime h (timestamp (objectAt h o)) t
      | None => h
      end
  end.

(** *** The specification's statements, as predicates on a session state *)

(** The number of units that cover [chars] characters at [perUnit]
    characters per unit. *)
Definition unitsFor (chars perUnit : Z) : Z := (chars + perUnit - 1) / perUnit.

(** The per-message cost in the specification's words, for a given class of
    characters weighted 2 per unit: the others weigh 4 per unit, and each
    message has an overhead of 10. *)
Definition weightedCost (twoPerUnit : N → bool) (text : jsstring) : Z :=
  let heavy := Z.of_nat (length (filter (fun c => twoPerUnit c = true) text)) in
  unitsFor heavy 2 + unitsFor (Z.of_nat (length text) - heavy) 4 + 10.

Definition estimate_is_sum (twoPerUnit : N → bool) (h : Heap) (this : SessionManager) : Prop :=
  getEstimatedTokenCount h this
  = foldr Z.add 0 ((fun m => weightedCost twoPerUnit (content m)) <$> log h this)
  ∧ (log h this = [] → getEstimatedTokenCount h this = 0).

(** Characters outside the Latin script, following the specification's
    wording: the code units of the BMP that belong neither to a Latin block
    (Basic Latin to the combining marks, Latin Extended Additional, C, D, E,
    the Latin ligatures, the full-width forms) nor to the script-neutral
    punctuation and symbol blocks. *)
Definition spec_nonLatinScript (c : N) : bool :=
  negb ((c <? 880) || (7680 <=? c) && (c <=? 7935) || (8192 <=? c) && (c <=? 11263)
        || (11360 <=? c) && (c <=? 11391) || (42784 <=? c) && (c <=? 43007)
        || (43824 <=? c) && (c <=? 43887) || (64256 <=? c) && (c <=? 64262)
        || (65280 <=? c) && (c <=? 65374))%N.

(** What [trimToTokenLimit] promises for the state [(h, this)]: it removes
    the [k] oldest messages, each removed while the count was above the
    ceiling and the log non-empty, and stops as soon as that is no longer
    so; afterwards the count is not above the ceiling unless the log was a
    single message costing more than the ceiling; and it returns [true]
    exactly when [k > 0]. *)
Definition trim_contract (h : Heap) (this : SessionManager) : Prop :=
  let ms := arrayAt h (messages this) in
  let h' := (trimToTokenLimit h this).2 in
  ∃ k : nat,
    arrayAt h' (messages this) = drop k ms ∧
    objects h' = objects h ∧
    (∀ j : nat, (j < k)%nat → drop j ms ≠ [] ∧ maxTokens this < countTokens h (drop j ms)) ∧
    (drop k ms = [] ∨ countTokens h (drop k ms) ≤ maxTokens this) ∧
    (getEstimatedTokenCount h' this ≤ maxTokens this
     ∨ ∃ m, ms = [m] ∧ maxTokens this < countTokens h [m]) ∧
    ((trimToTokenLimit h this).1 = true ↔ (0 < k)%nat).

(** What [getMessages] promises for the state [(h, this)]: the returned
    array lists copies of the log in order, it is not the internal array,
    and no mutation through it changes what the manager stores. *)
Definition getMessages_contract (h : Heap) (this : SessionManager) : Prop :=
  let h' := (getMessages h this).1 in
  let returned := (getMessages h this).2 in
  objectAt h' <$> arrayAt h' returned = log h this ∧
  returned ≠ messages this ∧
  ∀ mu : Mutation,
    log (mutate h' returned mu) this = log h this ∧
    logTimes (mutate h' returned mu) this = logTimes h this.

End Session.

(** ** Node's [path] module, POSIX flavour

    [resolve], [relative] and [isAbsolute] as the Node.js documentation
    specifies them; [cwd] is [process.cwd()], an absolute path. *)
Module Path.

(** [path.isAbsolute(p)] *)
Definition isAbsolute (p : jsstring) : bool :=
  match p with
  | 47%N :: _ => true
  | _ => false
  end.

(** The parts of [s] between the slashes; [cur] is the current part,
    reversed. *)
Fixpoint splitSlash (cur : jsstring) (s : jsstring) : list jsstring :=
  match s with
  | [] => [reverse cur]
  | c :: s' =>
      if decide (c = 47%N) then reverse cur :: splitSlash [] s'
      else splitSlash (c :: cur) s'
  end.

Fixpoint joinSlash (segs : list jsstring) : jsstring :=
  match segs with
  | [] => []
  | [seg] => seg
  | seg :: rest => seg ++ 47%N :: joinSlash rest
  end.

(** [normalizeString] without leave to go above the root: empty parts and
    [.] are dropped, [..] removes the part before it, if any.  [stack]
    holds the parts kept so far, last first. *)
Fixpoint normalizeGo (stack : list jsstring) (segs : list jsstring) : list jsstring :=
  match segs with
  | [] => reverse stack
  | seg :: rest =>
      if decide (seg = [] ∨ seg = lit ".") then normalizeGo stack rest
      else if decide (seg = lit "..") then normalizeGo (tail stack) rest
      else normalizeGo (seg :: stack) rest
  end.

Definition normalize (p : jsstring) : list jsstring := normalizeGo [] (splitSlash [] p).

(** The loop of [resolve]: the arguments are read from the last one
    backwards and put in front of what is resolved so far, until one is
    absolute; [cwd] comes when none is. *)
Fixpoint resolveChain (cwd : jsstring) (backwards : list jsstring) (resolved : jsstring)
    : jsstring :=
  match backwards with
  | [] => cwd ++ 47%N :: resolved
  | p :: before =>
      if decide (p = []) then resolveChain cwd before resolved
      else if isAbsolute p then p ++ 47%N :: resolved
      else resolveChain cwd before (p ++ 47%N :: resolved)
  end.

(** The parts of the absolute path [resolve(...paths)]. *)
Definition resolveSegments (cwd : jsstring) (paths : list jsstring) : list jsstring :=
  normalize (resolveChain cwd (reverse paths) []).

(** A part of a normalized path: not empty, not [.] or [..], without a
    slash. *)
Definition cleanPart (seg : jsstring) : Prop :=
  seg ≠ [] ∧ seg ≠ lit "." ∧ seg ≠ lit ".." ∧ 47%N ∉ seg.

(** [path.resolve(...paths)] *)
Definition resolve (cwd : jsstring) (paths : list jsstring) : jsstring :=
  47%N :: joinSlash (resolveSegments cwd paths).

(** What is left of two lists once their common prefix is removed. *)
Fixpoint stripCommon (l1 l2 : list jsstring) : list jsstring * list jsstring :=
  match l1, l2 with
  | x :: l1', y :: l2' => if decide (x = y) then stripCommon l1' l2' else (l1, l2)
  | _, _ => (l1, l2)
  end.

(** [path.relative(from, to)]: one [..] for each part of [from] below the
    common ancestor, then the parts of [to] below it. *)
Definition relative (cwd : jsstring) (from to : jsstring) : jsstring :=
  if decide (from = to) then []
  else if decide (resolve cwd [from] = resolve cwd [to]) then []
  else
    let (up, down) := stripCommon (resolveSegments cwd [from]) (resolveSegments cwd [to]) in
    joinSlash (replicate (length up) (lit "..") ++ down).

(** The location the path [p] names lies outside the directory [root]:
    the parts of the resolved root are not the first parts of the resolved
    path. *)
Definition escapes (cwd : jsstring) (root p : jsstring) : Prop :=
  ¬ (resolveSegments cwd [root] `prefix_of` resolveSegments cwd [p]).

End Path.

(** ** Built-in tools ([core/tools/file.ts], [core/tools/shell.ts]) *)
Module Tools.
Import Path.

(** A JS value handed to [execute] as [params: unknown].  [VNumber] is an
    integral number, [VFraction] any other number (which the schemas
    reject). *)
#[warnings="-register-all"]
Inductive JsValue :=
  | VUndefined
  | VNull
  | VBool (b : bool)
  | VNumber (n : Z)
  | VFraction
  | VString (s : jsstring)
  | VArray (elems : list JsValue)
  | VObject (fields : list (jsstring * JsValue)).

(** [obj[key]] *)
Fixpoint field (fields : list (jsstring * JsValue)) (key : jsstring) : JsValue :=
  match fields with
  | [] => VUndefined
  | (k, v) :: rest => if decide (k = key) then v else field rest key
  end.

(** The errors thrown inside the tools are [Error] objects: those of zod,
    of [fs], of [execa] (which may carry [timedOut]) and the one
    [resolveSafePath] creates. *)
Record ToolError := {
  message : jsstring;
  timedOut : bool
}.

Definition newError (msg : jsstring) : ToolError := {| message := msg; timedOut := false |}.

Inductive Encoding := utf8 | base64 | utf16le.

(** [interface ToolContext]; the tools do not use the logger. *)
Record ToolContext := {
  workspace : jsstring
}.

(** The object [stats] of [list_files], filled by [stats[file] = ...]: its
    own properties as a finite map from keys to [(size, isDirectory)], and
    the prototype, which an assignment to the key [__proto__] replaces
    instead of creating a property.  The order in which the engine
    enumerates the keys is not part of the map. *)
Record StatsObject := {
  own : gmap jsstring (Z * bool);
  proto : option (Z * bool)
}.

(** [{}] *)
Definition emptyStats : StatsObject := {| own := ∅; proto := None |}.

(** [stats[key] = value] *)
Definition assignStat (stats : StatsObject) (key : jsstring) (value : Z * bool)
    : StatsObject :=
  if decide (key = lit "__proto__")
  then {| own := own stats; proto := Some value |}
  else {| own := <[key := value]> (own stats); proto := proto stats |}.

(** The [data] of a result, one shape per tool. *)
Inductive ToolData :=
  | ReadData (content path : jsstring)
  | WriteData (path : jsstring) (bytesWritten : nat)
  | CreateData (path : jsstring)
  | ListData (files : list jsstring) (stats : option StatsObject) (count : nat)
  | DeleteData (path : jsstring)
  | ExecData (stdout stderr : jsstring) (exitCode : option Z) (failed : bool).

(** [interface ToolResult] *)
Record ToolResult := {
  success : bool;
  data : option ToolData;
  error : option jsstring
}.

Definition succeeded (d : ToolData) : ToolResult :=
  {| success := true; data := Some d; error := None |}.

Definition failed (msg : jsstring) : ToolResult :=
  {| success := false; data := None; error := Some msg |}.

(** What [execa] resolves with. *)
Record ExecaResult := {
  exitCode : option Z;
  stdout : jsstring;
  stderr : jsstring
}.

(** The calls made to the file system and to the process layer. *)
Inductive SystemCall :=
  | ReadFile (path : jsstring) (encoding : Encoding)
  | Mkdir (path : jsstring) (recursive : bool)
  | WriteFile (path : jsstring) (bytes : list N)
  | Access (path : jsstring)
  | Stat (path : jsstring)
  | Readdir (path : jsstring)
  | Rm (path : jsstring) (recursive : bool)
  | Glob (pattern cwd : jsstring)
  | Execa (command : jsstring) (args : list jsstring) (timeout : Z) (cwd : jsstring)
          (env : list (jsstring * jsstring)).

(** The platform under the tools: the file system with state [FS], the
    process, and the library functions whose results the tools only pass
    on. *)
Record Platform (FS : Type) := {
  cwd : jsstring;                                   (* process.cwd() *)
  processEnv : list (jsstring * jsstring);          (* process.env *)
  readFile : FS → jsstring → Encoding → ToolError + jsstring;
  mkdir : FS → jsstring → bool → (ToolError + unit) * FS;
  writeFile : FS → jsstring → list N → (ToolError + unit) * FS;
  access : FS → jsstring → ToolError + unit;
  stat : FS → jsstring → ToolError + (Z * bool);    (* size, isDirectory() *)
  readdir : FS → jsstring → ToolError + list jsstring;
  rm : FS → jsstring → bool → (ToolError + unit) * FS;   (* force: true *)
  fastGlob : FS → jsstring → jsstring → ToolError + list jsstring;
  execa : FS → jsstring → list jsstring → Z → jsstring → list (jsstring * jsstring)
          → (ToolError + ExecaResult) * FS;
  bufferFrom : jsstring → Encoding → list N;        (* Buffer.from(content, encoding) *)
  zodMessage : JsValue → jsstring;                  (* the message of the ZodError *)
  stringOf : JsValue → ToolError + jsstring         (* a value inside a template literal:
                                                       its text, or the TypeError thrown *)
}.
Arguments cwd {FS} p.
Arguments processEnv {FS} p.
Arguments readFile {FS} p.
Arguments mkdir {FS} p.
Arguments writeFile {FS} p.
Arguments access {FS} p.
Arguments stat {FS} p.
Arguments readdir {FS} p.
Arguments rm {FS} p.
Arguments fastGlob {FS} p.
Arguments execa {FS} p.
Arguments bufferFrom {FS} p.
Arguments zodMessage {FS} p.
Arguments stringOf {FS} p.

(** The world of a tool call: the file system and the calls made so far. *)
Record ToolWorld (FS : Type) := {
  fs : FS;
  calls : list SystemCall
}.
Arguments fs {FS} t.
Arguments calls {FS} t.

(** The six built-in tools. *)
Inductive ToolName := read_file | write_file | create_dir | list_files | delete_file | exec.

Section Tools.

Variable FS : Type.
Variable platform : Platform FS.

Abbreviation T := (Async.M (ToolWorld FS) ToolError).

(** A call that reads the file system. *)
Definition reading {A} (call : SystemCall) (result : FS → ToolError + A) : T A :=
  fun w =>
    let w1 := {| fs := fs w; calls := calls w ++ [call] |} in
    match result (fs w) with
    | inl e => (Throws e, w1)
    | inr a => (Returns a, w1)
    end.

(** An expression whose evaluation may throw. *)
Definition evaluating {A} (result : ToolError + A) : T A :=
  fun w =>
    match result with
    | inl e => (Throws e, w)
    | inr a => (Returns a, w)
    end.

(** A call that may change the file system. *)
Definition writing {A} (call : SystemCall) (result : FS → (ToolError + A) * FS) : T A :=
  fun w =>
    let (r, fs1) := result (fs w) in
    let w1 := {| fs := fs1; calls := calls w ++ [call] |} in
    match r with
    | inl e => (Throws e, w1)
    | inr a => (Returns a, w1)
    end.

(** *** Parameter schemas *)

Definition zodError (params : JsValue) : ToolError := newError (zodMessage platform params).

(** [z.string()] *)
Definition asString (v : JsValue) : option jsstring :=
  match v with
  | VString s => Some s
  | _ => None
  end.

(** [z.string().default(d)], [z.string().optional()] *)
Definition asStringOr (d : jsstring) (v : JsValue) : option jsstring :=
  match v with
  | VUndefined => Some d
  | VString s => Some s
  | _ => None
  end.

Definition asOptionalString (v : JsValue) : option (option jsstring) :=
  match v with
  | VUndefined => Some None
  | VString s => Some (Some s)
  | _ => None
  end.

(** [z.boolean().default(d)] *)
Definition asBoolOr (d : bool) (v : JsValue) : option bool :=
  match v with
  | VUndefined => Some d
  | VBool b => Some b
  | _ => None
  end.

(** [z.enum(['utf-8', 'base64', 'utf-16le']).default('utf-8')] *)
Definition asEncoding (v : JsValue) : option Encoding :=
  match v with
  | VUndefined => Some utf8
  | VString s =>
      if decide (s = lit "utf-8") then Some utf8
      else if decide (s = lit "base64") then Some base64
      else if decide (s = lit "utf-16le") then Some utf16le
      else None
  | _ => None
  end.

(** [z.array(z.string()).default([])] *)
Definition asStringArray (v : JsValue) : option (list jsstring) :=
  match v with
  | VUndefined => Some []
  | VArray elems => mapM asString elems
  | _ => None
  end.

(** [z.number().int().positive().default(30000)] *)
Definition asTimeout (v : JsValue) : option Z :=
  match v with
  | VUndefined => Some 30000
  | VNumber n => if 0 <? n then Some n else None
  | _ => None
  end.

(** [z.record(z.string()).optional()] *)
Definition asStringRecord (v : JsValue) : option (option (list (jsstring * jsstring))) :=
  match v with
  | VUndefined => Some None
  | VObject fields =>
      Some <$> mapM (fun kv : jsstring * JsValue => (fun s => (kv.1, s)) <$> asString kv.2) fields
  | _ => None
  end.

(** [schema.parse(params)] for a [z.object] schema whose fields are read
    by [fields]: the parsed value, or a thrown [ZodError]. *)
Definition parseObject {A} (fields : list (jsstring * JsValue) → option A)
    (params : JsValue) : T A :=
  match params with
  | VObject fs =>
      match fields fs with
      | Some a => mret a
      | None => throw (zodError params)
      end
  | _ => throw (zodError params)
  end.

Record ReadParams := { read_path : jsstring; read_encoding : Encoding }.
Record WriteParams := { write_path : jsstring; write_content : jsstring; write_encoding : Encoding }.
Record CreateParams := { create_path : jsstring; create_recursive : bool }.
Record ListParams := { list_path : jsstring; list_pattern : jsstring;
                       list_recursive : bool; list_includeStats : bool }.
Record DeleteParams := { delete_path : jsstring; delete_recursive : bool }.
Record ExecParams := { exec_command : jsstring; exec_args : list jsstring; exec_timeout : Z;
                       exec_cwd : option jsstring;
                       exec_env : option (list (jsstring * jsstring)) }.

Definition read_file_parameters (fs : list (jsstring * JsValue)) : option ReadParams :=
  path ← asString (field fs (lit "path"));
  encoding ← asEncoding (field fs (lit "encoding"));
  Some {| read_path := path; read_encoding := encoding |}.

Definition write_file_parameters (fs : list (jsstring * JsValue)) : option WriteParams :=
  path ← asString (field fs (lit "path"));
  content ← asString (field fs (lit "content"));
  encoding ← asEncoding (field fs (lit "encoding"));
  Some {| write_path := path; write_content := content; write_encoding := encoding |}.

Definition create_dir_parameters (fs : list (jsstring * JsValue)) : option CreateParams :=
  path ← asString (field fs (lit "path"));
  recursive ← asBoolOr true (field fs (lit "recursive"));
  Some {| create_path := path; create_recursive := recursive |}.

Definition list_files_parameters (fs : list (jsstring * JsValue)) : option ListParams :=
  path ← asString (field fs (lit "path"));
  pattern ← asStringOr (lit "*") (field fs (lit "pattern"));
  recursive ← asBoolOr false (field fs (lit "recursive"));
  includeStats ← asBoolOr false (field fs (lit "includeStats"));
  Some {| list_path := path; list_pattern := pattern;
          list_recursive := recursive; list_includeStats := includeStats |}.

Definition delete_file_parameters (fs : list (jsstring * JsValue)) : option DeleteParams :=
  path ← asString (field fs (lit "path"));
  recursive ← asBoolOr false (field fs (lit "recursive"));
  Some {| delete_path := path; delete_recursive := recursive |}.

Definition exec_parameters (fs : list (jsstring * JsValue)) : option ExecParams :=
  command ← asString (field fs (lit "command"));
  args ← asStringArray (field fs (lit "args"));
  timeout ← asTimeout (field fs (lit "timeout"));
  cwd ← asOptionalString (field fs (lit "cwd"));
  env ← asStringRecord (field fs (lit "env"));
  Some {| exec_command := command; exec_args := args; exec_timeout := timeout;
          exec_cwd := cwd; exec_env := env |}.

(** *** File tools *)

(** [resolveSafePath(workspace, filePath)] *)
Definition resolveSafePath (workspace filePath : jsstring) : T jsstring :=
  let absoluteWorkspace := resolve (cwd platform) [workspace] in
  let absolutePath := resolve (cwd platform) [filePath] in
  let relativePath := relative (cwd platform) absoluteWorkspace absolutePath in
  if startsWith relativePath (lit "..") || isAbsolute relativePath
  then throw (newError (lit "Path is outside workspace"))
  else mret absolutePath.

(** [typeof params === 'object' && params ? params.path : params], the
    value shown in the message [File not found]. *)
Definition shownPath (params : JsValue) : JsValue :=
  match params with
  | VObject fs => field fs (lit "path")
  | VArray _ => VUndefined
  | _ => params
  end.

(** [read_file.execute(params, context)].  The template literal in the
    [catch] block converts [shownPath params] to a string, which throws a
    [TypeError] for a value that has no primitive form; nothing catches
    it. *)
Definition read_file_execute (params : JsValue) (context : ToolContext) : T ToolResult :=
  tryCatch
    (p ← parseObject read_file_parameters params;
     safePath ← resolveSafePath (workspace context) (read_path p);
     content ← reading (ReadFile safePath (read_encoding p))
                 (fun fs => readFile platform fs safePath (read_encoding p));
     mret (succeeded (ReadData content (read_path p))))
    (fun err =>
       if includes (message err) (lit "outside workspace") then mret (failed (message err))
       else if includes (message err) (lit "ENOENT") then
         text ← evaluating (stringOf platform (shownPath params));
         mret (failed (lit "File not found: " ++ text))
       else mret (failed (message err))).

(** [write_file.execute(params, context)] *)
Definition write_file_execute (params : JsValue) (context : ToolContext) : T ToolResult :=
  tryCatch
    (p ← parseObject write_file_parameters params;
     safePath ← resolveSafePath (workspace context) (write_path p);
     let parentDir := resolve (cwd platform) [safePath; lit ".."] in
     writing (Mkdir parentDir true) (fun fs => mkdir platform fs parentDir true) ;;
     let buffer := bufferFrom platform (write_content p) (write_encoding p) in
     writing (WriteFile safePath buffer) (fun fs => writeFile platform fs safePath buffer) ;;
     mret (succeeded (WriteData (write_path p) (length buffer))))
    (fun err => mret (failed (message err))).

(** [create_dir.execute(params, context)] *)
Definition create_dir_execute (params : JsValue) (context : ToolContext) : T ToolResult :=
  tryCatch
    (p ← parseObject create_dir_parameters params;
     safePath ← resolveSafePath (workspace context) (create_path p);
     writing (Mkdir safePath (create_recursive p))
       (fun fs => mkdir platform fs safePath (create_recursive p)) ;;
     mret (succeeded (CreateData (create_path p))))
    (fun err => mret (failed (message err))).

(** The loop that fills [stats]: a file whose [stat] fails gets size 0. *)
Fixpoint collectStats (safePath : jsstring) (files : list jsstring) (stats : StatsObject)
    : T StatsObject :=
  match files with
  | [] => mret stats
  | file :: rest =>
      let filePath := resolve (cwd platform) [safePath; file] in
      st ← tryCatch (reading (Stat filePath) (fun fs => stat platform fs filePath))
                    (fun _ => mret (0, false));
      collectStats safePath rest (assignStat stats file st)
  end.

(** [list_files.execute(params, context)] *)
Definition list_files_execute (params : JsValue) (context : ToolContext) : T ToolResult :=
  tryCatch
    (p ← parseObject list_files_parameters params;
     safePath ← resolveSafePath (workspace context) (list_path p);
     found ← tryCatch (reading (Access safePath) (fun fs => access platform fs safePath) ;;
                       mret true)
                      (fun _ => mret false);
     if negb found then mret (failed (lit "Directory not found: " ++ list_path p))
     else
       let globPattern :=
         if list_recursive p then lit "**/" ++ list_pattern p else list_pattern p in
       files ← reading (Glob globPattern safePath)
                 (fun fs => fastGlob platform fs globPattern safePath);
       stats ← (if list_includeStats p
                then (collected ← collectStats safePath files emptyStats;
                      mret (Some collected))
                else mret None);
       mret (succeeded (ListData files stats (length files))))
    (fun err => mret (failed (message err))).

(** [delete_file.execute(params, context)]: the parameters are parsed
    before the [try] block is entered. *)
Definition delete_file_execute (params : JsValue) (context : ToolContext) : T ToolResult :=
  p ← parseObject delete_file_parameters params;
  tryCatch
    (safePath ← resolveSafePath (workspace context) (delete_path p);
     found ← tryCatch (reading (Access safePath) (fun fs => access platform fs safePath) ;;
                       mret true)
                      (fun _ => mret false);
     if negb found then mret (failed (lit "File or directory not found: " ++ delete_path p))
     else
       st ← reading (A := Z * bool) (Stat safePath) (fun fs => stat platform fs safePath);
       let isDirectory : bool := st.2 in
       let remove : T ToolResult :=
         (let deleteRecursive := if isDirectory then true else delete_recursive p in
          writing (Rm safePath deleteRecursive)
            (fun fs => rm platform fs safePath deleteRecursive) ;;
          mret (succeeded (DeleteData (delete_path p)))) in
       if isDirectory && negb (delete_recursive p) then
         entries ← reading (Readdir safePath) (fun fs => readdir platform fs safePath);
         if 0 <? Z.of_nat (length entries)
         then mret (failed (lit "Directory not empty (use recursive=true to delete)"))
         else remove
       else remove)
    (fun err =>
       if includes (message err) (lit "ENOTEMPTY") || includes (message err) (lit "not empty")
       then mret (failed (lit "Directory not empty (use recursive=true to delete)"))
       else if includes (message err) (lit "EISDIR") && negb (delete_recursive p)
       then mret (failed (lit "Directory not empty (use recursive=true to delete)"))
       else mret (failed (message err))).

(** *** Shell tool *)

(** [Object.assign(target, source)] on string records. *)
Definition objectAssign (target source : list (jsstring * jsstring))
    : list (jsstring * jsstring) :=
  filter (fun kv => kv.1 ∉ source.*1) target ++ source.

(** [exec.execute(params, context)] *)
Definition exec_execute (params : JsValue) (context : ToolContext) : T ToolResult :=
  tryCatch
    (p ← parseObject exec_parameters params;
     let execEnv :=
       match exec_env p with
       | Some env => objectAssign (objectAssign [] (processEnv platform)) env
       | None => objectAssign [] (processEnv platform)
       end in
     let dir :=
       match exec_cwd p with
       | Some (c :: d) => c :: d
       | _ => workspace context
       end in
     result ← writing (Execa (exec_command p) (exec_args p) (exec_timeout p) dir execEnv)
                (fun fs => execa platform fs (exec_command p) (exec_args p)
                             (exec_timeout p) dir execEnv);
     if decide (exitCode result = Some 0)
     then mret (succeeded (ExecData (stdout result) (stderr result) (exitCode result) false))
     else mret {| success := false;
                  data := Some (ExecData (stdout result) (stderr result)
                                         (exitCode result) true);
                  error := None |})
    (fun err =>
       if timedOut err || includes (message err) (lit "timed out")
       then mret (failed (lit "Command timed out"))
       else if includes (message err) (lit "command not found")
               || includes (message err) (lit "ENOENT")
       then mret (failed (lit "Command not found"))
       else mret (failed (message err))).

(** [tool.execute(params, context)] for the tool of that name. *)
Definition execute (tool : ToolName) : JsValue → ToolContext → T ToolResult :=
  match tool with
  | read_file => read_file_execute
  | write_file => write_file_execute
  | create_dir => create_dir_execute
  | list_files => list_files_execute
  | delete_file => delete_file_execute
  | exec => exec_execute
  end.

(** Whether [params] passes the parameter schema of the tool. *)
Definition valid (tool : ToolName) (params : JsValue) : Prop :=
  match params with
  | VObject fs =>
      match tool with
      | read_file => is_Some (read_file_parameters fs)
      | write_file => is_Some (write_file_parameters fs)
      | create_dir => is_Some (create_dir_parameters fs)
      | list_files => is_Some (list_files_parameters fs)
      | delete_file => is_Some (delete_file_parameters fs)
      | exec => is_Some (exec_parameters fs)
      end
  | _ => False
  end.

(** The [path] argument of a call. *)
Definition pathArgument (params : JsValue) : option jsstring :=
  match params with
  | VObject fs => asString (field fs (lit "path"))
  | _ => None
  end.

End Tools.

(** [fileTools] *)
Definition fileTools : list ToolName :=
  [read_file; write_file; create_dir; list_files; delete_file].

(** What a template literal makes of a value built from JSON-like data:
    an object with an own property [toString] (which cannot be a function
    here) has no primitive form and makes the conversion throw, any other
    object gives [[object Object]], an array joins its elements with
    commas.  Integers are printed in decimal and the number that is not an
    integer is taken to be [NaN]. *)
Fixpoint templateText (v : JsValue) : ToolError + jsstring :=
  match v with
  | VUndefined => inr (lit "undefined")
  | VNull => inr (lit "null")
  | VBool true => inr (lit "true")
  | VBool false => inr (lit "false")
  | VNumber n => inr (lit (pretty n))
  | VFraction => inr (lit "NaN")
  | VString s => inr s
  | VArray elems =>
      (fix join (l : list JsValue) : ToolError + jsstring :=
         match l with
         | [] => inr []
         | x :: rest =>
             let first :=
               match x with
               | VUndefined | VNull => inr []
               | _ => templateText x
               end in
             match first, rest with
             | inl e, _ => inl e
             | inr a, [] => inr a
             | inr a, _ :: _ =>
                 match join rest with
                 | inl e => inl e
                 | inr b => inr (a ++ lit "," ++ b)
                 end
             end
         end) elems
  | VObject fs =>
      if decide (lit "toString" ∈ fs.*1)
      then inl (newError (lit "Cannot convert object to primitive value"))
      else inr (lit "[object Object]")
  end.

(** A platform for examples: the process runs in [dir], every file can be
    read and holds the text [data], every other call succeeds, and the file
    system has no state. *)
Definition examplePlatform (dir : jsstring) : Platform unit :=
  {| cwd := dir;
     processEnv := [];
     readFile := fun _ _ _ => inr (lit "data");
     mkdir := fun _ _ _ => (inr (), ());
     writeFile := fun _ _ _ => (inr (), ());
     access := fun _ _ => inr ();
     stat := fun _ _ => inr (4, false);
     readdir := fun _ _ => inr [];
     rm := fun _ _ _ => (inr (), ());
     fastGlob := fun _ _ _ => inr [];
     execa := fun _ _ _ _ _ _ => (inr {| exitCode := Some 0; stdout := []; stderr := [] |}, ());
     bufferFrom := fun content _ => content;
     zodMessage := fun _ => lit "Required";
     stringOf := templateText |}.

(** A platform for examples of listings and of schema errors: the glob
    answers [globbed], [stat] fails for the path [missing], and the message
    of a schema error is [zod]. *)
Definition scriptedPlatform (dir : jsstring) (globbed : list jsstring)
    (missing zod : jsstring) : Platform unit :=
  {| cwd := dir;
     processEnv := [];
     readFile := fun _ _ _ => inr (lit "data");
     mkdir := fun _ _ _ => (inr (), ());
     writeFile := fun _ _ _ => (inr (), ());
     access := fun _ _ => inr ();
     stat := fun _ path =>
       if decide (path = missing)
       then inl (newError (lit "ENOENT: no such file or directory"))
       else inr (4, false);
     readdir := fun _ _ => inr [];
     rm := fun _ _ _ => (inr (), ());
     fastGlob := fun _ _ _ => inr globbed;
     execa := fun _ _ _ _ _ _ => (inr {| exitCode := Some 0; stdout := []; stderr := [] |}, ());
     bufferFrom := fun content _ => content;
     zodMessage := fun _ => zod;
     stringOf := templateText |}.

Definition untouched : ToolWorld unit := {| fs := (); calls := [] |}.

(** [{ path: p }] *)
Definition pathOnly (p : jsstring) : JsValue := VObject [(lit "path", VString p)].

(** The failing result that carries the containment error. *)
Definition containmentFailure : ToolResult := failed (lit "Path is outside workspace").

(** What the specification promises of a call: it does not throw, and a
    result that reports failure carries an error text. *)
Definition errorGiven (r : ToolResult) : Prop := success r = false → is_Some (error r).

Definition reported {FS} (outcome : Completion ToolError ToolResult * ToolWorld FS) : Prop :=
  ∃ r : ToolResult, outcome.1 = Returns r ∧ errorGiven r.

(** The calls made between the world [w] and the later world [w']. *)
Definition callsSince {FS} (w w' : ToolWorld FS) : list SystemCall :=
  drop (length (calls w)) (calls w').

(** The path a call works on.  A glob and a process have none: what they
    reach depends on the pattern and on the command. *)
Definition callPath (c : SystemCall) : option jsstring :=
  match c with
  | ReadFile p _ | Mkdir p _ | WriteFile p _ | Access p | Stat p | Readdir p | Rm p _ => Some p
  | Glob _ _ => None
  | Execa _ _ _ _ _ => None
  end.

(** The parts of the resolved path [p] below the resolved [root] are
    [below], and the first of them, if any, does not begin with two dots. *)
Definition admitted (cwd : jsstring) (root p : jsstring) : Prop :=
  ∃ below : list jsstring,
    resolveSegments cwd [p] = resolveSegments cwd [root] ++ below ∧
    ∀ seg rest, below = seg :: rest → startsWith seg (lit "..") = false.

End Tools.

(** ** REPL ([cli/repl.ts]) *)
Module REPL.
Import Session.

(** A thrown value: an [Error] with its message, or something that is not
    an instance of [Error]. *)
Inductive Thrown := ErrorObject (message : jsstring) | NotAnError.

Abbreviation Message := (Role * jsstring)%type.

(** [interface AIProvider]: [chat] resolves with the [content] of the
    response or rejects; [chatStream] yields chunks and then either
    completes or throws. *)
Record AIProvider := {
  chat : list Message → Completion Thrown jsstring;
  chatStream : list Message → list jsstring * option Thrown
}.

(** The parts of [Config] the REPL reads: [config.ui.streamOutput], and the
    text [JSON.stringify(config, null, 2)]. *)
Record Config := {
  ui_streamOutput : bool;
  stringified : jsstring
}.

(** [interface REPLContext], without the session, which is mutable and
    lives in the world; a tool is kept as its name and description. *)
Record REPLContext := {
  config : Config;
  aiProvider : AIProvider;
  tools : list (jsstring * jsstring)
}.

Inductive Effect :=
  | Output (text : jsstring)        (* the [output] handler *)
  | StdoutWrite (text : jsstring)   (* [process.stdout.write] *)
  | ConsoleLog (text : jsstring)    (* [console.log] *)
  | LoggerError (e : Thrown).       (* [logger.error] in the chat loop *)

Record World := {
  heap : Heap;
  session : SessionManager;
  effects : list Effect;
  dateReads : nat                   (* how often the clock was read *)
}.

(** The REPL's async methods. *)
Abbreviation M := (Async.M World Thrown).

Definition emit (e : Effect) : M unit :=
  fun w => (Returns (),
            {| heap := heap w; session := session w;
               effects := effects w ++ [e]; dateReads := dateReads w |}).

Definition output (text : jsstring) : M unit := emit (Output text).

Fixpoint forEach {A} (f : A → M unit) (l : list A) : M unit :=
  match l with
  | [] => mret ()
  | x :: l' => f x ;; forEach f l'
  end.

(** The handlers bound by [registerBuiltinCommands]. *)
Inductive CommandHandler := cmdHelp | cmdClear | cmdExit | cmdConfig | cmdTools | cmdHistory.

(** [this.commands] after [registerBuiltinCommands()]: the [Map] entries
    in the order of the [set] calls. *)
Definition commands : gmap jsstring CommandHandler :=
  <[lit "history" := cmdHistory]>
  (<[lit "tools" := cmdTools]>
  (<[lit "config" := cmdConfig]>
  (<[lit "quit" := cmdExit]>
  (<[lit "exit" := cmdExit]>
  (<[lit "clear" := cmdClear]>
  (<[lit "help" := cmdHelp]> ∅)))))).

(** [role.toUpperCase().padEnd(10)] *)
Definition roleLabel (r : Role) : jsstring :=
  match r with
  | user => lit "USER      "
  | assistant => lit "ASSISTANT "
  | system => lit "SYSTEM    "
  end.

Section REPL.

(** The system clock: the time value of the [n]-th [new Date()]. *)
Variable clock : nat → Z.
(** [Date.prototype.toLocaleTimeString], which depends on the locale. *)
Variable toLocaleTimeString : Z → jsstring.

Variable context : REPLContext.

(** [session.addMessage(role, content)] *)
Definition sessionAddMessage (r : Role) (c : jsstring) : M unit :=
  fun w => (Returns (),
            {| heap := addMessage (heap w) (session w) r c (clock (dateReads w));
               session := session w;
               effects := effects w;
               dateReads := S (dateReads w) |}).

(** [ensureTokenLimit()] *)
Definition ensureTokenLimit : M unit :=
  fun w =>
    let (wasTrimmed, h1) := trimToTokenLimit (heap w) (session w) in
    let w1 := {| heap := h1; session := session w;
                 effects := effects w; dateReads := dateReads w |} in
    if wasTrimmed
    then emit (ConsoleLog (lit "Note: Conversation history was trimmed to fit token limit")) w1
    else (Returns (), w1).

(** The loop of [streamResponse]: each chunk is written and appended to
    [fullResponse]; a throw of the stream leaves the loop. *)
Fixpoint streamChunks (chunks : list jsstring) (failure : option Thrown)
    (fullResponse : jsstring) : M jsstring :=
  match chunks with
  | [] =>
      match failure with
      | Some e => throw e
      | None => mret fullResponse
      end
  | chunk :: rest =>
      emit (StdoutWrite chunk) ;;
      streamChunks rest failure (fullResponse ++ chunk)
  end.

(** [streamResponse(messages, output)] *)
Definition streamResponse (msgs : list Message) : M jsstring :=
  let (chunks, failure) := chatStream (aiProvider context) msgs in
  fullResponse ← streamChunks chunks failure [];
  emit (StdoutWrite [10%N]) ;;
  mret fullResponse.

(** [await aiProvider.chat(messages)] *)
Definition awaitChat (msgs : list Message) : M jsstring :=
  fun w => (chat (aiProvider context) msgs, w).

(** [session.getMessagesForAI()] *)
Definition sessionGetMessagesForAI : M (list Message) :=
  fun w => (Returns (getMessagesForAI (heap w) (session w)), w).

(** [processUserMessage(content, output)] *)
Definition processUserMessage (content : jsstring) : M unit :=
  sessionAddMessage user content ;;
  ensureTokenLimit ;;
  msgs ← sessionGetMessagesForAI;
  tryCatch
    (response ←
       (if ui_streamOutput (config context)
        then streamResponse msgs
        else (result ← awaitChat msgs; output result ;; mret result));
     sessionAddMessage assistant response)
    (fun error =>
       let errorMessage :=
         match error with
         | ErrorObject message => message
         | NotAnError => lit "Unknown error"
         end in
       output (lit "Error: " ++ errorMessage)).

Definition runHelp : M (option bool) :=
  forEach output
    [lit "Available Commands:";
     lit "  /help     - Show this help message";
     lit "  /clear    - Clear conversation history";
     lit "  /exit     - Exit the REPL";
     lit "  /quit     - Exit the REPL (same as /exit)";
     lit "  /config   - Show current configuration";
     lit "  /tools    - List available tools";
     lit "  /history  - Show conversation history"] ;;
  mret None.

Definition runClear : M (option bool) :=
  (fun w =>
     let (h1, this1) := clear (heap w) (session w) in
     (Returns (), {| heap := h1; session := this1;
                     effects := effects w; dateReads := dateReads w |})) ;;
  output (lit "Session cleared") ;;
  mret None.

Definition runExit : M (option bool) :=
  output (lit "Goodbye!") ;; mret (Some true).

Definition runConfig : M (option bool) :=
  output (lit "Current Configuration:") ;;
  output (stringified (config context)) ;;
  mret None.

Definition runTools : M (option bool) :=
  output (lit "Available Tools (" ++ decimal (length (tools context)) ++ lit "):") ;;
  forEach (fun t : jsstring * jsstring =>
             output (lit "  - " ++ t.1 ++ lit ": " ++ t.2)) (tools context) ;;
  mret None.

Definition runHistory : M (option bool) :=
  fun w =>
    let (h1, returned) := getMessages (heap w) (session w) in
    let w1 := {| heap := h1; session := session w;
                 effects := effects w; dateReads := dateReads w |} in
    let msgs := objectAt h1 <$> arrayAt h1 returned in
    if decide (length msgs = 0%nat)
    then (output (lit "No conversation history") ;; mret None) w1
    else
      (output (lit "Conversation History (" ++ decimal (length msgs) ++ lit " messages):") ;;
       forEach (fun msg : SessionMessage =>
                  output (lit "  [" ++ toLocaleTimeString (dateAt h1 (timestamp msg))
                          ++ lit "] " ++ roleLabel (role msg) ++ lit ": "
                          ++ take 100 (content msg))) msgs ;;
       mret None) w1.

Definition runHandler (handler : CommandHandler) : M (option bool) :=
  match handler with
  | cmdHelp => runHelp
  | cmdClear => runClear
  | cmdExit => runExit
  | cmdConfig => runConfig
  | cmdTools => runTools
  | cmdHistory => runHistory
  end.

(** [parts[0]] of [input.trim().split(/\s+/)] *)
Definition firstPart (input : jsstring) : jsstring :=
  default [] (head (splitWhitespace (trim input))).

(** [parts[0]?.toLowerCase().replace(/^\//, '')] *)
Definition commandNameOf (input : jsstring) : jsstring :=
  stripLeadingSlash (toLowerCase (firstPart input)).

(** [handleCommand(input, output)] *)
Definition handleCommand (input : jsstring) : M bool :=
  match commands !! commandNameOf input with
  | None =>
      output (lit "Unknown command: " ++ firstPart input) ;;
      output (lit "Type /help for available commands") ;;
      mret false
  | Some handler =>
      result ← runHandler handler;
      mret (bool_decide (result = Some true))
  end.

(** [processInput(input, output)] *)
Definition processInput (input : jsstring) : M unit :=
  let trimmed := trim input in
  if decide (trimmed = []) then mret ()
  else if startsWith trimmed (lit "/") then
    shouldExit ← handleCommand trimmed;
    mret ()
  else processUserMessage trimmed.

(** One iteration of the [while (running)] loop of the chat command (under
    [cli/commands]), given what [readLine] resolved with; the result is the
    new value of [running].  The calls to the debug logger are left out. *)
Definition chatLoopIteration (line : option jsstring) : World → bool * World :=
  fun w =>
    match line with
    | None => (false, w)
    | Some line =>
        match processInput line w with
        | (Returns _, w1) =>
            if decide (toLowerCase (trim line) = lit "/exit"
                       ∨ toLowerCase (trim line) = lit "/quit")
            then (false, w1)
            else (true, w1)
        | (Throws e, w1) =>
            match e with
            | ErrorObject message =>
                if decide (message = lit "EOF") then (false, w1)
                else (true, (emit (LoggerError e) w1).2)
            | NotAnError => (true, (emit (LoggerError e) w1).2)
            end
        end
    end.

End REPL.

(** The fixed command table of the specification. *)
Definition commandTable : list jsstring :=
  [lit "help"; lit "clear"; lit "exit"; lit "quit"; lit "config"; lit "tools"; lit "history"].

(** The world once [processUserMessage] has stored the user message and run
    the trim step, that is when the provider is called. *)
Definition beforeProviderCall (clock : nat → Z) (content : jsstring) (w : World) : World :=
  ((sessionAddMessage clock user content ;; ensureTokenLimit) w).2.

(** Whether the provider call of the turn, made with the messages [msgs],
    throws [e]. *)
Definition providerThrows (context : REPLContext) (msgs : list Message) (e : Thrown) : Prop :=
  if ui_streamOutput (config context)
  then (chatStream (aiProvider context) msgs).2 = Some e
  else chat (aiProvider context) msgs = Throws e.

(** A provider whose calls fail, a context around it, and the world at the
    start of a session. *)
Definition failingProvider : AIProvider :=
  {| chat := fun _ => Throws (ErrorObject (lit "Network error"));
     chatStream := fun _ => ([lit "Hel"], Some (ErrorObject (lit "Network error"))) |}.

Definition failingContext (streamOutput : bool) : REPLContext :=
  {| config := {| ui_streamOutput := streamOutput; stringified := lit "{}" |};
     aiProvider := failingProvider;
     tools := [] |}.

Definition initialWorld : World :=
  let (h, this) := construct emptyHeap (Some 100000) in
  {| heap := h; session := this; effects := []; dateReads := 0 |}.

(** The world of a session that holds the two messages of
    [twoMessages], before anything is written. *)
Definition talkedWorld : World :=
  {| heap := (twoMessages 100000).1; session := (twoMessages 100000).2;
     effects := []; dateReads := 2 |}.

(** The diagnostic line for a thrown value. *)
Definition errorLine (e : Thrown) : jsstring :=
  lit "Error: " ++ match e with ErrorObject message => message | NotAnError => lit "Unknown error" end.

Definition outputs (w : World) : list jsstring :=
  omap (fun e => match e with Output text => Some text | _ => None end) (effects w).

(** The world [w] after the effects [es], with the session as it was. *)
Definition withEffects (w : World) (es : list Effect) : World :=
  {| heap := heap w; session := session w;
     effects := effects w ++ es; dateReads := dateReads w |}.

(** A provider that answers every call with [ok], in the chunks [o] and
    [k] when streaming, and a context around it. *)
Definition answeringProvider : AIProvider :=
  {| chat := fun _ => Returns (lit "ok");
     chatStream := fun _ => ([lit "o"; lit "k"], None) |}.

Definition answeringContext (streamOutput : bool) : REPLContext :=
  {| config := {| ui_streamOutput := streamOutput; stringified := lit "{}" |};
     aiProvider := answeringProvider;
     tools := [] |}.

(** The line is [/exit] or [/quit] once trimmed and lower-cased: the test
    the chat loop makes after [processInput]. *)
Definition exitLine (line : jsstring) : Prop :=
  toLowerCase (trim line) = lit "/exit" ∨ toLowerCase (trim line) = lit "/quit".

End REPL.

(** ** Tool registry ([core/tools/index.ts]) and the tool map of the chat
    command

    An object is kept as the list of its own enumerable string-keyed
    properties in insertion order, which is the order [Object.entries] and
    [Object.values] follow. *)
Module Registry.
Import Tools.

(** The [name] and [description] fields of the six [Tool] objects. *)
Definition toolName (t : ToolName) : jsstring :=
  match t with
  | read_file => lit "read_file"
  | write_file => lit "write_file"
  | create_dir => lit "create_dir"
  | list_files => lit "list_files"
  | delete_file => lit "delete_file"
  | exec => lit "exec"
  end.

Definition toolDescription (t : ToolName) : jsstring :=
  match t with
  | read_file =>
      lit "Read the contents of a file. Supports different encodings including utf-8 and base64 for binary files."
  | write_file =>
      lit "Write content to a file. Creates parent directories if they do not exist."
  | create_dir =>
      lit "Create a directory at the specified path. Creates parent directories if needed."
  | list_files =>
      lit "List files and directories in a path. Supports pattern matching and recursion."
  | delete_file =>
      lit "Delete a file or directory. Use recursive=true for non-empty directories."
  | exec =>
      lit "Execute a shell command. Supports timeout, environment variables, and custom working directory."
  end.

(** [obj[key] = value] on an object: an existing key keeps its place. *)
Fixpoint setProperty {A} (obj : list (jsstring * A)) (key : jsstring) (value : A)
    : list (jsstring * A) :=
  match obj with
  | [] => [(key, value)]
  | (k, v) :: rest =>
      if decide (k = key) then (k, value) :: rest else (k, v) :: setProperty rest key value
  end.

(** [{ ...a, ...b }] *)
Definition spread {A} (a b : list (jsstring * A)) : list (jsstring * A) :=
  fold_left (fun acc kv => setProperty acc kv.1 kv.2) b a.

(** [export const fileTools = { read_file, ... }] and
    [export const shellTools = { exec }]. *)
Definition fileTools : list (jsstring * ToolName) :=
  [(lit "read_file", read_file); (lit "write_file", write_file);
   (lit "create_dir", create_dir); (lit "list_files", list_files);
   (lit "delete_file", delete_file)].

Definition shellTools : list (jsstring * ToolName) := [(lit "exec", exec)].

(** [Object.entries(o).reduce((acc, [name, tool]) => ({ ...acc, [name]: tool }), {})] *)
Definition reduceEntries {A} (o : list (jsstring * A)) : list (jsstring * A) :=
  fold_left (fun acc kv => setProperty (spread [] acc) kv.1 kv.2) o [].

Definition builtInTools : list (jsstring * ToolName) :=
  spread (spread [] (reduceEntries fileTools)) (reduceEntries shellTools).

(** [getAllTools()] *)
Definition getAllTools : list ToolName := builtInTools.*2.

(** [Object.entries(array)]: the keys are the indices in decimal. *)
Definition arrayEntries {A} (array : list A) : list (jsstring * A) :=
  imap (fun i x => (decimal i, x)) array.

(** [new Map(Object.entries(getAllTools()))] of the chat command, as the
    REPL context keeps it: each key with the description of its tool. *)
Definition chatTools (allTools : list ToolName) : list (jsstring * jsstring) :=
  (fun kt : jsstring * ToolName => (kt.1, toolDescription kt.2)) <$> arrayEntries allTools.

End Registry.

(** ** Tool errors ([core/tools/base.ts]) *)
Module ToolBase.
Import Tools.

(** An [Error] object with the properties [createToolError] writes; [None]
    is a property the object does not have. *)
Record ErrorObject := {
  message : jsstring;
  code : option JsValue;
  details : option JsValue
}.

(** A value of type [unknown]: an instance of [Error], or any other
    value. *)
Inductive Unknown := AnError (e : ErrorObject) | NotAnError (v : JsValue).

(** [new Error(message)] *)
Definition newError (message : jsstring) : ErrorObject :=
  {| message := message; code := None; details := None |}.

(** [createToolError(code, message, details)]; an argument left out is
    [VUndefined]. *)
Definition createToolError (code message : jsstring) (details : JsValue) : ErrorObject :=
  let error := newError message in
  let error := {| message := ToolBase.message error; code := Some (VString code);
                  details := ToolBase.details error |} in
  match details with
  | VUndefined => error
  | _ => {| message := ToolBase.message error; code := ToolBase.code error;
            details := Some details |}
  end.

(** [isToolError(error)] *)
Definition isToolError (error : Unknown) : bool :=
  match error with
  | NotAnError _ => false
  | AnError err =>
      match ToolBase.code err with
      | Some (VString c) => 0 <? Z.of_nat (length c)
      | _ => false
      end
  end.

End ToolBase.

(** ** Raw input handler ([cli/raw-input.ts])

    [render], [clearRender], [renderMenu] and [renderMenuList] only write to
    the terminal and keep [renderedLines], which nothing else reads; they
    are left out.  Of the calls that switch the terminal mode,
    [stdin.setRawMode] exists only when standard input is a terminal; the
    key listener runs only then, and [stop()], which can be called in
    either case, takes that as an argument. *)
Module RawInput.

(** [interface CommandOption] *)
Record CommandOption := {
  name : jsstring;
  description : jsstring
}.

(** [interface InputState] *)
Record InputState := {
  buffer : jsstring;
  cursor : Z;
  showMenu : bool;
  selectedIndex : Z
}.

(** The fields of a [RawInputHandler], and the promise returned by
    [readLine]: [settled] is [None] while it is pending, [Some None] once it
    is resolved with [null], [Some (Some s)] once it is resolved with the
    string [s].  [resolveInput] tells whether the field holds the resolver;
    [uncaught] records a [TypeError] thrown inside the key listener. *)
Record Handler := {
  state : InputState;
  commands : list CommandOption;
  filteredCommands : list CommandOption;
  resolveInput : bool;
  active : bool;
  settled : option (option jsstring);
  uncaught : bool
}.

Definition setState (st : InputState) (h : Handler) : Handler :=
  {| state := st; commands := commands h; filteredCommands := filteredCommands h;
     resolveInput := resolveInput h; active := active h;
     settled := settled h; uncaught := uncaught h |}.

Definition setFiltered (l : list CommandOption) (h : Handler) : Handler :=
  {| state := state h; commands := commands h; filteredCommands := l;
     resolveInput := resolveInput h; active := active h;
     settled := settled h; uncaught := uncaught h |}.

Definition setSelectedIndex (i : Z) (h : Handler) : Handler :=
  setState {| buffer := buffer (state h); cursor := cursor (state h);
              showMenu := showMenu (state h); selectedIndex := i |} h.

(** [new RawInputHandler()] *)
Definition newHandler : Handler :=
  {| state := {| buffer := []; cursor := 0; showMenu := false; selectedIndex := 0 |};
     commands := []; filteredCommands := [];
     resolveInput := false; active := false; settled := None; uncaught := false |}.

(** [setCommands(commands)] *)
Definition setCommands (cmds : list CommandOption) (h : Handler) : Handler :=
  {| state := state h; commands := cmds; filteredCommands := filteredCommands h;
     resolveInput := resolveInput h; active := active h;
     settled := settled h; uncaught := uncaught h |}.

(** Calling the resolver of the promise: only the first call settles it. *)
Definition resolve (value : option jsstring) (h : Handler) : Handler :=
  {| state := state h; commands := commands h; filteredCommands := filteredCommands h;
     resolveInput := resolveInput h; active := active h;
     settled := match settled h with None => Some value | Some v => Some v end;
     uncaught := uncaught h |}.

(** [if (this.resolveInput) { this.resolveInput(value) }] *)
Definition resolveIfSet (value : option jsstring) (h : Handler) : Handler :=
  if resolveInput h then resolve value h else h.

(** [cleanup()], reached through [finalizeInput]: [this.active = false].
    It runs only from the key listener, hence on a terminal, where its
    [stdin.setRawMode(false)] returns. *)
Definition cleanup (h : Handler) : Handler :=
  {| state := state h; commands := commands h; filteredCommands := filteredCommands h;
     resolveInput := resolveInput h; active := false;
     settled := settled h; uncaught := uncaught h |}.

Definition finalizeInput (h : Handler) : Handler := cleanup h.

(** [String.prototype.toLowerCase] of the JS engine, which lower-cases by
    the Unicode tables it ships.  The handler only compares its results,
    so it is taken as the engine gives it. *)
Class Engine := toLowerCase : jsstring → jsstring.

Section Keys.

Context {engine : Engine}.

(** [filterCommands(query)] *)
Definition filterCommands (query : jsstring) (h : Handler) : Handler :=
  let input := toLowerCase query in
  let h1 :=
    setFiltered
      (filter (fun cmd => startsWith (toLowerCase (name cmd)) input = true) (commands h)) h in
  if 0 <? Z.of_nat (length (filteredCommands h1)) then setSelectedIndex 0 h1 else h1.

(** [getCommandQuery()]; [None] is [null]. *)
Definition getCommandQuery (h : Handler) : option jsstring :=
  let buffer := buffer (state h) in
  let firstNonSpace := searchNonSpace buffer in
  if decide (firstNonSpace = -1) then None
  else if negb (bool_decide (charAt buffer firstNonSpace = Some 47%N)) then None
  else
    let slashIndex := indexOfFrom 47%N buffer firstNonSpace in
    if cursor (state h) <=? slashIndex then Some []
    else
      let afterSlash := slice buffer (slashIndex + 1) (cursor (state h)) in
      if existsb isWhiteSpace afterSlash then None else Some afterSlash.

(** [updateMenuState()] *)
Definition updateMenuState (h : Handler) : Handler :=
  match getCommandQuery h with
  | None =>
      setFiltered []
        (setState {| buffer := buffer (state h); cursor := cursor (state h);
                     showMenu := false; selectedIndex := 0 |} h)
  | Some query =>
      filterCommands query
        (setState {| buffer := buffer (state h); cursor := cursor (state h);
                     showMenu := true; selectedIndex := selectedIndex (state h) |} h)
  end.

(** [handleChar(char)] *)
Definition handleChar (char : jsstring) (h : Handler) : Handler :=
  let st := state h in
  updateMenuState
    (setState {| buffer := slice (buffer st) 0 (cursor st) ++ char
                            ++ sliceFrom (buffer st) (cursor st);
                 cursor := cursor st + 1;
                 showMenu := showMenu st; selectedIndex := selectedIndex st |} h).

(** [handleBackspace()] *)
Definition handleBackspace (h : Handler) : Handler :=
  let st := state h in
  if 0 <? cursor st then
    updateMenuState
      (setState {| buffer := slice (buffer st) 0 (cursor st - 1)
                              ++ sliceFrom (buffer st) (cursor st);
                   cursor := cursor st - 1;
                   showMenu := showMenu st; selectedIndex := selectedIndex st |} h)
  else h.

(** [handleArrowUp()] *)
Definition handleArrowUp (h : Handler) : Handler :=
  let n := Z.of_nat (length (filteredCommands h)) in
  if showMenu (state h) && (0 <? n)
  then setSelectedIndex (Z.rem (selectedIndex (state h) - 1 + n) n) h
  else h.

(** [handleArrowDown()] *)
Definition handleArrowDown (h : Handler) : Handler :=
  let n := Z.of_nat (length (filteredCommands h)) in
  if showMenu (state h) && (0 <? n)
  then setSelectedIndex (Z.rem (selectedIndex (state h) + 1) n) h
  else h.

(** [handleArrowRight()] *)
Definition handleArrowRight (h : Handler) : Handler :=
  let st := state h in
  if cursor st <? Z.of_nat (length (buffer st)) then
    updateMenuState
      (setState {| buffer := buffer st; cursor := cursor st + 1;
                   showMenu := showMenu st; selectedIndex := selectedIndex st |} h)
  else h.

(** [handleArrowLeft()] *)
Definition handleArrowLeft (h : Handler) : Handler :=
  let st := state h in
  if 0 <? cursor st then
    updateMenuState
      (setState {| buffer := buffer st; cursor := cursor st - 1;
                   showMenu := showMenu st; selectedIndex := selectedIndex st |} h)
  else h.

(** [this.filteredCommands[this.state.selectedIndex]] *)
Definition selectedCommand (h : Handler) : option CommandOption :=
  if selectedIndex (state h) <? 0 then None
  else filteredCommands h !! Z.to_nat (selectedIndex (state h)).

(** [input || null] *)
Definition orNull (input : jsstring) : option jsstring :=
  match input with
  | [] => None
  | _ => Some input
  end.

(** [handleSubmit()] *)
Definition handleSubmit (h : Handler) : Handler :=
  let input := buffer (state h) in
  if showMenu (state h) && (0 <? Z.of_nat (length (filteredCommands h))) then
    match selectedCommand h with
    | Some selected =>
        resolveIfSet (Some (lit "/" ++ name selected)) (finalizeInput h)
    | None =>          (* [selected.name] on [undefined] *)
        {| state := state h; commands := commands h;
           filteredCommands := filteredCommands h;
           resolveInput := resolveInput h; active := active h;
           settled := settled h; uncaught := true |}
    end
  else resolveIfSet (orNull input) (finalizeInput h).

(** [handleCancel()] *)
Definition handleCancel (h : Handler) : Handler :=
  resolveIfSet None (finalizeInput h).

(** How a call made from outside the handler ends. *)
Inductive Outcome := Returned | TypeErrorThrown.

(** [stop()].  [terminal] tells whether standard input is a terminal: if
    it is not, [stdin.setRawMode] is not a function and the call
    [stdin.setRawMode(false)] throws a [TypeError], after [this.active =
    false] and before the promise is resolved. *)
Definition stop (terminal : bool) (h : Handler) : Outcome * Handler :=
  let h1 := cleanup h in
  if negb terminal then (TypeErrorThrown, h1)
  else if resolveInput h1 then
    let h2 := resolve None h1 in
    (Returned,
     {| state := state h2; commands := commands h2;
        filteredCommands := filteredCommands h2;
        resolveInput := false; active := active h2;
        settled := settled h2; uncaught := uncaught h2 |})
  else (Returned, h1).

(** [handleData(data)], the listener for key data. *)
Definition handleData (data : jsstring) (h : Handler) : Handler :=
  if negb (active h) then h
  else if decide (data = [13%N] ∨ data = [10%N]) then handleSubmit h
  else if decide (data = [3%N]) then handleCancel h
  else if decide (data = [4%N]) then handleCancel h
  else if decide (data = [127%N] ∨ data = [8%N]) then handleBackspace h
  else if decide (data = [27; 91; 65]%N) then handleArrowUp h
  else if decide (data = [27; 91; 66]%N) then handleArrowDown h
  else if decide (data = [27; 91; 67]%N) then handleArrowRight h
  else if decide (data = [27; 91; 68]%N) then handleArrowLeft h
  else
    match data with
    | [c] => if (32 <=? c)%N then handleChar data h else h
    | _ => h
    end.

(** [readLine(prompt)] up to the choice of the input mode: the promise is
    created pending, the handler is active and its state reset. *)
Definition readLine (h : Handler) : Handler :=
  {| state := {| buffer := []; cursor := 0; showMenu := false; selectedIndex := 0 |};
     commands := commands h; filteredCommands := [];
     resolveInput := true; active := true; settled := None; uncaught := uncaught h |}.

(** What happens to a handler in raw mode after [readLine]: key data
    arrives, or [stop()] is called from outside.  Raw mode is only entered
    on a terminal. *)
Inductive Event := Data (data : jsstring) | Stop.

Definition step (h : Handler) (ev : Event) : Handler :=
  match ev with
  | Data data => handleData data h
  | Stop => (stop true h).2
  end.

Definition run (h : Handler) (events : list Event) : Handler := foldl step h events.

(** [handleSelection(input)]; [None] is [null]. *)
Definition handleSelection (input : jsstring) (h : Handler) : option jsstring :=
  let trimmed := trim input in
  if decide (trimmed = [] ∨ trimmed = lit "q" ∨ trimmed = lit "Q") then None
  else
    let byNumber :=
      match parseInt10 trimmed with
      | Some num =>
          if (1 <=? num) && (num <=? Z.of_nat (length (filteredCommands h)))
          then name <$> filteredCommands h !! Z.to_nat (num - 1)
          else None
      | None => None
      end in
    match byNumber with
    | Some n => Some n
    | None =>
        name <$> head (filter (fun cmd => toLowerCase (name cmd) = toLowerCase trimmed)
                              (filteredCommands h))
    end.

(** [useReadline(prompt)], the fallback when the terminal has no raw mode:
    [answer] is the line read by the first question, [selection] the line
    read by the second one when it is asked.  The handler is the one
    [readLine] has just reset. *)
Definition useReadline (answer selection : jsstring) (h : Handler) : Handler :=
  let h1 :=
    setState {| buffer := answer; cursor := Z.of_nat (length answer);
                showMenu := showMenu (state h);
                selectedIndex := selectedIndex (state h) |} h in
  let finish (value : option jsstring) (g : Handler) : Handler :=
    let g1 := resolveIfSet value g in
    {| state := state g1; commands := commands g1;
       filteredCommands := filteredCommands g1;
       resolveInput := false; active := false;
       settled := settled g1; uncaught := uncaught g1 |} in
  if startsWith (trim answer) (lit "/") then
    let h2 :=
      match getCommandQuery h1 with
      | Some query => filterCommands query h1
      | None => h1
      end in
    if 0 <? Z.of_nat (length (filteredCommands h2)) then
      match handleSelection selection h2 with
      | Some (c :: selected) => finish (Some (lit "/" ++ c :: selected)) h2
      | _ => finish (Some answer) h2
      end
    else finish (Some answer) h2
  else finish (orNull answer) h1.

(** *** The specification's statement on menu filtering

    After a filter update for [query] the matches are the registered
    commands that [matches] the query, in registration order, and the first
    match is the highlighted entry. *)
Definition menu_contract (matches : jsstring → jsstring → bool)
    (query : jsstring) (h h' : Handler) : Prop :=
  filteredCommands h'
  = filter (fun cmd => matches (name cmd) query = true) (commands h) ∧
  sublist (filteredCommands h') (commands h) ∧
  (filteredCommands h' ≠ [] →
   selectedCommand h' = head (filteredCommands h')).

(** Prefix matching as the specification words it (case-sensitive), and as
    [filterCommands] does it. *)
Definition prefixMatch (commandName query : jsstring) : bool :=
  startsWith commandName query.

Definition prefixMatchIgnoringCase (commandName query : jsstring) : bool :=
  startsWith (toLowerCase commandName) (toLowerCase query).

(** The fields a keystroke other than Enter, Ctrl+C and Ctrl+D leaves
    alone. *)
Definition samePromise (h h' : Handler) : Prop :=
  settled h' = settled h ∧ active h' = active h ∧
  resolveInput h' = resolveInput h ∧ uncaught h' = uncaught h.

(** The invariant of a handler while a raw-mode read is collecting keys:
    an active handler holds the resolver of a pending promise, the menu is
    only shown for a non-empty buffer, and the highlighted index is within
    the matches. *)
Definition collecting (h : Handler) : Prop :=
  (active h = true → resolveInput h = true ∧ settled h = None) ∧
  (showMenu (state h) = true → buffer (state h) ≠ []) ∧
  (filteredCommands h ≠ [] →
   0 ≤ selectedIndex (state h) < Z.of_nat (length (filteredCommands h))).

(** The key data of typing [text], one code unit at a time. *)
Definition typing (text : jsstring) : list Event := (fun c => Data [c]) <$> text.

(** A code unit that [handleData] inserts: not a control character and not
    the delete key. *)
Definition printable (c : N) : Prop := (32 ≤ c)%N ∧ c ≠ 127%N.

(** The cursor is a position of the buffer. *)
Definition cursorInBuffer (h : Handler) : Prop :=
  0 ≤ cursor (state h) ≤ Z.of_nat (length (buffer (state h))).

End Keys.

(** An engine for examples.  On text of ASCII code units every engine
    folds the letters A to Z and keeps the rest; this one does so on all
    text. *)
Definition asciiEngine : Engine := JS.toLowerCase.

(** The commands the chat loop registers. *)
Definition chatCommands : list CommandOption :=
  [ {| name := lit "help"; description := lit "Show help information" |};
    {| name := lit "clear"; description := lit "Clear conversation history" |};
    {| name := lit "exit"; description := lit "Exit the program" |};
    {| name := lit "quit"; description := lit "Exit the program (same as exit)" |};
    {| name := lit "config"; description := lit "Show current configuration" |};
    {| name := lit "tools"; description := lit "List available tools" |};
    {| name := lit "history"; description := lit "Show conversation history" |} ].

End RawInput.

(** * Properties *)

(** ** Session manager *)
Section SessionFacts.
Import Session.

Lemma countTokens_from (h : Heap) (ms : list loc) (acc : Z) :
  fold_left (fun total m => total + estimateTokens (content (objectAt h m)) + 10) ms acc
  = acc + countTokens h ms.
Proof.
  unfold countTokens. revert acc.
  induction ms as [|m ms IH]; intros acc; simpl; [lia|].
  rewrite (IH (acc + _ + 10)), (IH (0 + _ + 10)). lia.
Qed.

Lemma countTokens_cons (h : Heap) (m : loc) (ms : list loc) :
  countTokens h (m :: ms)
  = estimateTokens (content (objectAt h m)) + 10 + countTokens h ms.
Proof. unfold countTokens at 1. simpl. rewrite countTokens_from. lia. Qed.

Lemma ceilDiv_nonneg (x d : Z) : 0 ≤ x → 0 < d → 0 ≤ ceilDiv x d.
Proof.
  intros Hx Hd. unfold ceilDiv.
  assert ((- x) / d ≤ 0); [|lia].
  apply Z.div_le_upper_bound; lia.
Qed.

Lemma estimateTokens_nonneg (text : jsstring) : 0 ≤ estimateTokens text.
Proof.
  unfold estimateTokens.
  pose proof (length_filter (fun c => isChinese c = true) text) as Hle.
  assert (0 ≤ ceilDiv (Z.of_nat (length (filter (fun c => isChinese c = true) text))) 2)
    by (apply ceilDiv_nonneg; lia).
  assert (0 ≤ ceilDiv (Z.of_nat (length text)
            - Z.of_nat (length (filter (fun c => isChinese c = true) text))) 4)
    by (apply ceilDiv_nonneg; lia).
  lia.
Qed.

Lemma countTokens_nonneg (h : Heap) (ms : list loc) : 0 ≤ countTokens h ms.
Proof.
  induction ms as [|m ms IH]; [done|].
  rewrite countTokens_cons. pose proof (estimateTokens_nonneg (content (objectAt h m))). lia.
Qed.

Lemma countTokens_pos (h : Heap) (ms : list loc) : ms ≠ [] → 0 < countTokens h ms.
Proof.
  destruct ms as [|m ms]; [done|]. intros _. rewrite countTokens_cons.
  pose proof (estimateTokens_nonneg (content (objectAt h m))).
  pose proof (countTokens_nonneg h ms). lia.
Qed.

(** *** Reading the heap after an update *)

Lemma arrayAt_setArray_eq (h : Heap) (a : loc) (elems : list loc) :
  (a < length (arrays h))%nat → arrayAt (setArray h a elems) a = elems.
Proof.
  intros Ha. unfold arrayAt, setArray; simpl.
  by rewrite list_lookup_insert_eq.
Qed.

Lemma arrayAt_setArray_ne (h : Heap) (a b : loc) (elems : list loc) :
  a ≠ b → arrayAt (setArray h a elems) b = arrayAt h b.
Proof.
  intros Hne. unfold arrayAt, setArray; simpl.
  by rewrite list_lookup_insert_ne.
Qed.

Lemma arrayAt_valid (h : Heap) (a : loc) :
  arrayAt h a ≠ [] → (a < length (arrays h))%nat.
Proof.
  unfold arrayAt. intros Hne.
  destruct (arrays h !! a) as [l|] eqn:E; [by eapply lookup_lt_Some|done].
Qed.

Lemma countTokens_objects (h h' : Heap) (ms : list loc) :
  objects h' = objects h → countTokens h' ms = countTokens h ms.
Proof.
  intros E. unfold countTokens, objectAt. by rewrite E.
Qed.

(** *** The eviction loop *)

Lemma trimLoop_drop (h : Heap) (limit : Z) (ms : list loc) :
  ∃ k : nat,
    trimLoop h limit ms = drop k ms ∧
    (∀ j : nat, (j < k)%nat → drop j ms ≠ [] ∧ limit < countTokens h (drop j ms)) ∧
    (drop k ms = [] ∨ countTokens h (drop k ms) ≤ limit).
Proof.
  induction ms as [|m ms IH].
  - exists 0%nat. simpl. split; [done|]. split; [lia|by left].
  - simpl trimLoop. destruct (limit <? countTokens h (m :: ms)) eqn:E.
    + apply Z.ltb_lt in E. destruct IH as (k & Hk & Hlt & Hstop).
      exists (S k). simpl. split; [done|]. split; [|done].
      intros [|j] Hj; simpl; [done|]. apply Hlt. lia.
    + apply Z.ltb_ge in E. exists 0%nat. simpl.
      split; [done|]. split; [lia|by right].
Qed.

Lemma trimToTokenLimit_objects (h : Heap) (this : SessionManager) :
  objects (trimToTokenLimit h this).2 = objects h.
Proof. unfold trimToTokenLimit. by case_match. Qed.

Lemma trimToTokenLimit_dates (h : Heap) (this : SessionManager) :
  dates (trimToTokenLimit h this).2 = dates h.
Proof. unfold trimToTokenLimit. by case_match. Qed.

(** The array after [trimToTokenLimit] is the array before it without its
    [k] oldest entries, for the [k] the loop fixes. *)
Lemma trimToTokenLimit_drop (h : Heap) (this : SessionManager) :
  0 ≤ maxTokens this ∨ (messages this < length (arrays h))%nat →
  ∃ k : nat,
    arrayAt (trimToTokenLimit h this).2 (messages this)
    = drop k (arrayAt h (messages this)) ∧
    (∀ j : nat, (j < k)%nat →
       drop j (arrayAt h (messages this)) ≠ [] ∧
       maxTokens this < countTokens h (drop j (arrayAt h (messages this)))) ∧
    (drop k (arrayAt h (messages this)) = [] ∨
     countTokens h (drop k (arrayAt h (messages this))) ≤ maxTokens this) ∧
    ((trimToTokenLimit h this).1 = true →
     maxTokens this < countTokens h (arrayAt h (messages this))) ∧
    ((trimToTokenLimit h this).1 = false → k = 0%nat).
Proof.
  intros Hok. unfold trimToTokenLimit, getEstimatedTokenCount.
  destruct (countTokens h (arrayAt h (messages this)) <=? maxTokens this) eqn:E; simpl.
  - apply Z.leb_le in E. exists 0%nat. simpl.
    split; [done|]. split; [lia|]. split; [by right|]. split; done.
  - apply Z.leb_gt in E.
    assert (messages this < length (arrays h))%nat as Hvalid.
    { destruct Hok as [Hnn|?]; [|done]. apply arrayAt_valid. intros Hnil.
      rewrite Hnil in E. unfold countTokens in E. simpl in E. lia. }
    destruct (trimLoop_drop h (maxTokens this) (arrayAt h (messages this)))
      as (k & Hk & Hlt & Hstop).
    exists k. rewrite arrayAt_setArray_eq by done.
    split; [done|]. split; [done|]. split; [done|]. split; done.
Qed.

(** *** C3: [trimToTokenLimit] *)

(** C3, as amended: for every session state whose ceiling is not negative,
    [trimToTokenLimit] evicts the oldest message again and again while the
    estimated count exceeds the ceiling and the log is non-empty; afterwards
    the estimated count is not above the ceiling (unless the log was a single
    message costing more than the ceiling), and the returned boolean is
    [true] exactly when at least one message was evicted. *)
Theorem trimToTokenLimit_contract (h : Heap) (this : SessionManager) :
  0 ≤ maxTokens this → trim_contract h this.
Proof.
  intros Hnn. unfold trim_contract.
  destruct (trimToTokenLimit_drop h this (or_introl Hnn))
    as (k & Hk & Hlt & Hstop & Htrue & Hfalse).
  exists k. split; [done|]. split; [apply trimToTokenLimit_objects|].
  split; [done|]. split; [done|]. split.
  - left. unfold getEstimatedTokenCount. rewrite Hk.
    rewrite (countTokens_objects h) by apply trimToTokenLimit_objects.
    destruct Hstop as [-> | Hle]; [by unfold countTokens|done].
  - split.
    + intros Hb. destruct k as [|k]; [|lia]. exfalso.
      specialize (Htrue Hb). rewrite drop_0 in Hstop.
      destruct Hstop as [Hnil | Hle]; [|lia].
      rewrite Hnil in Htrue. unfold countTokens in Htrue. simpl in Htrue. lia.
    + intros Hk0. destruct ((trimToTokenLimit h this).1) eqn:Hb; [done|].
      specialize (Hfalse eq_refl). lia.
Qed.

Lemma trimToTokenLimit_contract_witness :
  0 ≤ maxTokens (twoMessages 1).2 ∧ trim_contract (twoMessages 1).1 (twoMessages 1).2.
Proof.
  split; [simpl; lia|]. apply trimToTokenLimit_contract. simpl; lia.
Defined.

(** C3 as stated fails for a negative ceiling: on the empty log of a manager
    built with [maxTokens = -1] nothing is evicted, yet the call returns
    [true] and the count (0) stays above the ceiling. *)
Lemma trimToTokenLimit_negative_ceiling :
  let '(h0, this) := construct emptyHeap (Some (-1)) in
  (trimToTokenLimit h0 this).1 = true ∧
  log (trimToTokenLimit h0 this).2 this = log h0 this ∧
  maxTokens this < getEstimatedTokenCount (trimToTokenLimit h0 this).2 this ∧
  ¬ trim_contract h0 this.
Proof.
  simpl. split; [done|]. split; [done|]. split; [done|].
  unfold trim_contract. intros (k & _ & _ & _ & _ & Hcount & _).
  destruct Hcount as [Hle | (m & Hm & _)]; [|done].
  vm_compute in Hle. by apply Hle.
Qed.

(** *** C5: [getEstimatedTokenCount] *)

Lemma ceilDiv_unitsFor (x d : Z) : 0 < d → ceilDiv x d = unitsFor x d.
Proof.
  intros Hd. unfold ceilDiv, unitsFor.
  pose proof (Z.div_mod (- x) d) as H1.
  pose proof (Z.mod_pos_bound (- x) d Hd) as H2.
  pose proof (Z.div_mod (x + d - 1) d) as H3.
  pose proof (Z.mod_pos_bound (x + d - 1) d Hd) as H4.
  nia.
Qed.

Lemma estimateTokens_weightedCost (text : jsstring) :
  estimateTokens text + 10 = weightedCost isChinese text.
Proof.
  unfold estimateTokens, weightedCost.
  by rewrite !ceilDiv_unitsFor by lia.
Qed.

Lemma countTokens_sum (h : Heap) (ms : list loc) :
  countTokens h ms
  = foldr Z.add 0 ((fun m => weightedCost isChinese (content m)) <$> (objectAt h <$> ms)).
Proof.
  induction ms as [|m ms IH]; [done|].
  rewrite countTokens_cons, IH, !fmap_cons. cbn [foldr].
  rewrite <- estimateTokens_weightedCost. lia.
Qed.

(** C5, as amended: for every session state [getEstimatedTokenCount] is the
    sum over all messages of a per-message cost in which the code units
    U+4E00 to U+9FA5 (CJK ideographs) weigh 2 characters per unit, all other
    code units (other non-Latin scripts included) weigh 4 characters per
    unit, both rounded up, plus an overhead of 10 units per message; on an
    empty session it is 0. *)
Theorem getEstimatedTokenCount_sum (h : Heap) (this : SessionManager) :
  estimate_is_sum isChinese h this.
Proof.
  unfold estimate_is_sum, getEstimatedTokenCount, log. split.
  - apply countTokens_sum.
  - intros Hnil. apply fmap_nil_inv in Hnil. by rewrite Hnil.
Qed.

(** C5 as stated fails: four Cyrillic letters (U+044F) are non-Latin-script
    characters, yet the code weighs them 4 per unit (cost 1 + 10), not 2 per
    unit (cost 2 + 10). *)
Lemma getEstimatedTokenCount_cyrillic :
  let '(h0, this) := construct emptyHeap None in
  let h := addMessage h0 this user [1103; 1103; 1103; 1103]%N 0 in
  Forall (fun c => spec_nonLatinScript c = true) [1103; 1103; 1103; 1103]%N ∧
  getEstimatedTokenCount h this = 11 ∧
  foldr Z.add 0 ((fun m => weightedCost spec_nonLatinScript (content m)) <$> log h this) = 12 ∧
  ¬ estimate_is_sum spec_nonLatinScript h this.
Proof.
  simpl. split; [by repeat constructor|]. split; [done|]. split; [done|].
  intros [Hsum _]. vm_compute in Hsum. discriminate Hsum.
Qed.

(** *** C7: the log is only extended at the newest end and cut at the oldest *)

Lemma objectAt_old (h : Heap) (m : SessionMessage) (o : loc) :
  (o < length (objects h))%nat → objectAt (allocObject h m).1 o = objectAt h o.
Proof.
  intros Ho. unfold objectAt, allocObject; simpl. by rewrite lookup_app_l.
Qed.

Lemma objectAt_new (h : Heap) (m : SessionMessage) :
  objectAt (allocObject h m).1 (allocObject h m).2 = m.
Proof.
  unfold objectAt, allocObject; simpl. by rewrite list_lookup_middle.
Qed.

Lemma log_addMessage (h : Heap) (this : SessionManager) (r : Role) (c : jsstring) (now : Z) :
  wf h this →
  log (addMessage h this r c now) this
  = log h this ++ [{| role := r; content := c; timestamp := length (dates h) |}].
Proof.
  intros (Harr & Hobjs & _). unfold log, addMessage; simpl.
  rewrite arrayAt_setArray_eq by done.
  change (arrayAt _ (messages this)) with (arrayAt h (messages this)).
  rewrite fmap_app; simpl. f_equal.
  - apply Forall_fmap_ext_1. eapply Forall_impl; [exact Hobjs|].
    intros o Ho; simpl in *. unfold objectAt; simpl. by rewrite lookup_app_l.
  - unfold objectAt; simpl. by rewrite list_lookup_middle.
Qed.

Lemma log_trimToTokenLimit (h : Heap) (this : SessionManager) :
  0 ≤ maxTokens this ∨ (messages this < length (arrays h))%nat →
  ∃ k : nat, log (trimToTokenLimit h this).2 this = drop k (log h this).
Proof.
  intros Hok. destruct (trimToTokenLimit_drop h this Hok) as (k & Hk & _).
  exists k. unfold log. rewrite Hk, fmap_drop. unfold objectAt.
  by rewrite trimToTokenLimit_objects.
Qed.

Lemma last_drop_some {A} (l : list A) (k : nat) :
  drop k l = [] ∨ last (drop k l) = last l.
Proof.
  revert k. induction l as [|x l IH]; intros k; [left; by destruct k|].
  destruct k as [|k]; [by right|]. simpl.
  destruct (IH k) as [Hnil | Hlast]; [by left|].
  destruct l as [|y l]; [left; by destruct k|right; by rewrite Hlast].
Qed.

(** C7: the log is never reordered.  [addMessage] puts the new message
    after all the others and leaves those as they were; [trimToTokenLimit]
    only removes a prefix, that is the oldest messages first; hence the
    message added last is still the newest entry after a trim unless the
    trim emptied the log. *)
Theorem log_order_preserved (h : Heap) (this : SessionManager) :
  wf h this →
  (∀ r c now,
     log (addMessage h this r c now) this
     = log h this ++ [{| role := r; content := c; timestamp := length (dates h) |}]) ∧
  (∃ k : nat, log (trimToTokenLimit h this).2 this = drop k (log h this)) ∧
  (log (trimToTokenLimit h this).2 this = [] ∨
   last (log (trimToTokenLimit h this).2 this) = last (log h this)).
Proof.
  intros Hwf. split; [intros; by apply log_addMessage|].
  destruct (log_trimToTokenLimit h this) as (k & Hk); [right; apply Hwf|].
  split; [by exists k|]. rewrite Hk. apply last_drop_some.
Qed.

Lemma log_order_preserved_witness :
  wf (twoMessages 11).1 (twoMessages 11).2 ∧
  ∃ k : nat,
    log (trimToTokenLimit (twoMessages 11).1 (twoMessages 11).2).2 (twoMessages 11).2
    = drop k (log (twoMessages 11).1 (twoMessages 11).2).
Proof.
  assert (wf (twoMessages 11).1 (twoMessages 11).2) as Hwf.
  { split; [simpl; lia|]. split; vm_compute; repeat constructor. }
  split; [exact Hwf|].
  apply (log_order_preserved (twoMessages 11).1 (twoMessages 11).2 Hwf).
Defined.

(** *** C6: [getMessages] *)

Lemma lookup_fresh_block {A} (d : A) (l l' : list A) :
  (fun o => default d ((l ++ l') !! o)) <$> seq (length l) (length l') = l'.
Proof.
  revert l. induction l' as [|x l' IH]; intros l; [done|].
  simpl. rewrite list_lookup_middle by done. simpl. f_equal.
  specialize (IH (l ++ [x])). rewrite length_app in IH. simpl in IH.
  rewrite Nat.add_1_r, <- app_assoc in IH. exact IH.
Qed.

Lemma mapSpread_spec (ms : list loc) (h : Heap) :
  Forall (fun o => (o < length (objects h))%nat) ms →
  dates (mapSpread h ms).1 = dates h ∧
  arrays (mapSpread h ms).1 = arrays h ∧
  objects (mapSpread h ms).1 = objects h ++ (objectAt h <$> ms) ∧
  (mapSpread h ms).2 = seq (length (objects h)) (length ms).
Proof.
  revert h. induction ms as [|m ms IH]; intros h Hvalid.
  - simpl. by rewrite app_nil_r.
  - apply Forall_cons in Hvalid as [Hm Hms]. simpl.
    specialize (IH (allocObject h (objectAt h m)).1).
    destruct (mapSpread (allocObject h (objectAt h m)).1 ms) as [h2 os] eqn:E.
    simpl in *. destruct IH as (Hd & Ha & Ho & Hos).
    { eapply Forall_impl; [exact Hms|]. intros o Hlt; simpl in *.
      rewrite length_app; simpl; lia. }
    rewrite E; simpl.
    split; [done|]. split; [done|]. split.
    + rewrite Ho, <- app_assoc. simpl. do 2 f_equal.
      apply Forall_fmap_ext_1. eapply Forall_impl; [exact Hms|].
      intros o Hlt; simpl in *. by apply objectAt_old.
    + rewrite Hos, length_app. simpl. by rewrite Nat.add_1_r.
Qed.

Lemma getMessages_shape (h : Heap) (this : SessionManager) :
  Forall (fun o => (o < length (objects h))%nat) (arrayAt h (messages this)) →
  ∃ h' : Heap,
    getMessages h this = (h', length (arrays h)) ∧
    dates h' = dates h ∧
    objects h' = objects h ++ log h this ∧
    arrays h' = arrays h ++ [seq (length (objects h)) (length (arrayAt h (messages this)))].
Proof.
  intros Hobjs. destruct (mapSpread_spec _ h Hobjs) as (Hd & Ha & Ho & Hos).
  unfold getMessages.
  destruct (mapSpread h (arrayAt h (messages this))) as [h1 os]. simpl in *.
  eexists. unfold allocArray. rewrite Ha. split; [done|]. simpl.
  split; [done|]. split; [done|]. by rewrite Hos.
Qed.

(** What the copy does achieve: on a well-formed heap the returned array is
    a new one that lists field-by-field copies of the log in order, and
    whatever the caller does to that array or to the fields of the objects
    in it leaves the stored log as it was. *)
Lemma getMessages_copies (h : Heap) (this : SessionManager) :
  wf h this →
  objectAt (getMessages h this).1 <$> arrayAt (getMessages h this).1 (getMessages h this).2
  = log h this ∧
  (getMessages h this).2 ≠ messages this ∧
  ∀ mu : Mutation,
    (∀ i t, mu ≠ TimestampSetTime i t) →
    log (mutate (getMessages h this).1 (getMessages h this).2 mu) this = log h this ∧
    logTimes (mutate (getMessages h this).1 (getMessages h this).2 mu) this = logTimes h this.
Proof.
  intros (Harr & Hobjs & Hdates).
  destruct (getMessages_shape h this Hobjs) as (h' & -> & Hd & Ho & Ha). simpl.
  set (os := seq (length (objects h)) (length (arrayAt h (messages this)))) in *.
  assert (arrayAt h' (length (arrays h)) = os) as Hret.
  { unfold arrayAt. by rewrite Ha, list_lookup_middle. }
  assert (arrayAt h' (messages this) = arrayAt h (messages this)) as Hint.
  { unfold arrayAt. by rewrite Ha, lookup_app_l. }
  assert (∀ g, (∀ o, (o < length (objects h))%nat → objects g !! o = objects h !! o) →
               objectAt g <$> arrayAt h (messages this) = log h this) as Hlog.
  { intros g Eg. unfold log. apply Forall_fmap_ext_1.
    eapply Forall_impl; [exact Hobjs|]. intros o Hlt; simpl in *.
    unfold objectAt. by rewrite Eg. }
  split; [|split].
  - rewrite Hret. unfold objectAt at 1. rewrite Ho.
    pose proof (lookup_fresh_block noMessage (objects h) (log h this)) as Hblock.
    unfold log at 2 in Hblock. rewrite length_fmap in Hblock. exact Hblock.
  - lia.
  - intros mu Hmu.
    assert (log (mutate h' (length (arrays h)) mu) this = log h this
            ∧ dates (mutate h' (length (arrays h)) mu) = dates h) as [Hl Hdt].
    { destruct mu as [elems | i m | i t]; simpl.
      - split; [|done]. unfold log at 1.
        rewrite arrayAt_setArray_ne by lia. rewrite Hint.
        apply Hlog. intros o Hlt; simpl. by rewrite Ho, lookup_app_l.
      - rewrite Hret. destruct (os !! i) as [o|] eqn:Ei; simpl.
        + split; [|done]. unfold log at 1.
          change (arrayAt (setObject h' o m) (messages this))
            with (arrayAt h' (messages this)).
          rewrite Hint. apply Hlog. intros o' Hlt; simpl.
          assert (length (objects h) ≤ o)%nat.
          { unfold os in Ei. apply lookup_seq in Ei. lia. }
          rewrite list_lookup_insert_ne by lia. by rewrite Ho, lookup_app_l.
        + split; [|done]. unfold log at 1. rewrite Hint.
          apply Hlog. intros o' Hlt; simpl. by rewrite Ho, lookup_app_l.
      - by destruct (Hmu i t). }
    split; [done|]. unfold logTimes, dateAt. by rewrite Hl, Hdt.
Qed.

(** C6 fails on the code: the spread copy [{ ...msg }] copies the
    [timestamp] reference, so the returned objects share their [Date] with
    the stored ones.  After [addMessage('user', 'hi')] at time 1000,
    [getMessages()[0].timestamp.setTime(0)] changes the time stored in the
    session's own log from 1000 to 0. *)
Theorem getMessages_shares_dates :
  let '(h0, this) := construct emptyHeap None in
  let h1 := addMessage h0 this user (lit "hi") 1000 in
  let '(h2, returned) := getMessages h1 this in
  let h3 := mutate h2 returned (TimestampSetTime 0 0) in
  wf h1 this ∧
  logTimes h1 this = [1000] ∧
  logTimes h2 this = [1000] ∧
  logTimes h3 this = [0] ∧
  ¬ getMessages_contract h1 this.
Proof.
  simpl. split; [|split; [done|split; [done|split; [done|]]]].
  - split; [simpl; lia|]. split; vm_compute; repeat constructor.
  - intros (_ & _ & Hmu). specialize (Hmu (TimestampSetTime 0 0)) as [_ Ht].
    vm_compute in Ht. discriminate Ht.
Qed.

End SessionFacts.

(** ** Paths *)
Section PathFacts.
Import Path.

Lemma splitSlash_no_slash (s cur : jsstring) :
  47%N ∉ s → splitSlash cur s = [reverse cur ++ s].
Proof.
  revert cur. induction s as [|c s IH]; intros cur Hs; simpl.
  - by rewrite app_nil_r.
  - apply not_elem_of_cons in Hs as [Hc Hs].
    rewrite decide_False by done. rewrite IH by done.
    by rewrite reverse_cons, <- app_assoc.
Qed.

Lemma splitSlash_app (s t cur : jsstring) :
  47%N ∉ s → splitSlash cur (s ++ 47%N :: t) = (reverse cur ++ s) :: splitSlash [] t.
Proof.
  revert cur. induction s as [|c s IH]; intros cur Hs; simpl.
  - by rewrite app_nil_r.
  - apply not_elem_of_cons in Hs as [Hc Hs].
    rewrite decide_False by done. rewrite IH by done.
    by rewrite reverse_cons, <- app_assoc.
Qed.

Lemma splitSlash_parts (s cur : jsstring) :
  47%N ∉ cur → Forall (fun seg => 47%N ∉ seg) (splitSlash cur s).
Proof.
  revert cur. induction s as [|c s IH]; intros cur Hcur; simpl.
  - constructor; [|constructor]. by rewrite elem_of_reverse.
  - destruct (decide (c = 47%N)) as [->|Hc].
    + constructor; [by rewrite elem_of_reverse|]. apply IH. apply not_elem_of_nil.
    + apply IH. by apply not_elem_of_cons.
Qed.

Lemma splitSlash_joinSlash (segs : list jsstring) (t : jsstring) :
  Forall (fun seg => 47%N ∉ seg) segs → segs ≠ [] →
  splitSlash [] (joinSlash segs ++ 47%N :: t) = segs ++ splitSlash [] t.
Proof.
  induction segs as [|seg segs IH]; intros Hsegs Hne; [done|].
  apply Forall_cons in Hsegs as [Hseg Hsegs].
  destruct segs as [|seg' segs].
  - simpl. by rewrite splitSlash_app.
  - change (joinSlash (seg :: seg' :: segs)) with (seg ++ 47%N :: joinSlash (seg' :: segs)).
    rewrite <- app_assoc. simpl. rewrite splitSlash_app by done. simpl.
    f_equal. by apply IH.
Qed.

Lemma normalizeGo_clean (segs stack rest : list jsstring) :
  Forall cleanPart segs →
  normalizeGo stack (segs ++ rest) = normalizeGo (reverse segs ++ stack) rest.
Proof.
  revert stack. induction segs as [|seg segs IH]; intros stack Hsegs; [done|].
  apply Forall_cons in Hsegs as [(H1 & H2 & H3 & _) Hsegs]. simpl.
  rewrite decide_False by (intros [?|?]; done). rewrite decide_False by done.
  rewrite IH by done. by rewrite reverse_cons, <- app_assoc.
Qed.

Lemma normalizeGo_parts (segs stack : list jsstring) :
  Forall cleanPart stack → Forall (fun seg => 47%N ∉ seg) segs →
  Forall cleanPart (normalizeGo stack segs).
Proof.
  revert stack. induction segs as [|seg segs IH]; intros stack Hstack Hsegs; simpl.
  - by apply Forall_reverse.
  - apply Forall_cons in Hsegs as [Hseg Hsegs].
    destruct (decide (seg = [] ∨ seg = lit ".")) as [|Hno]; [by apply IH|].
    destruct (decide (seg = lit "..")) as [|Hno'].
    + apply IH; [|done]. destruct stack; [done|]. by apply Forall_cons in Hstack as [_ ?].
    + apply IH; [|done]. constructor; [|done]. repeat split; naive_solver.
Qed.

Lemma resolveSegments_clean (cwd : jsstring) (paths : list jsstring) :
  Forall cleanPart (resolveSegments cwd paths).
Proof.
  unfold resolveSegments, normalize. apply normalizeGo_parts; [constructor|].
  apply splitSlash_parts, not_elem_of_nil.
Qed.

(** Resolving a resolved path gives the same path. *)
Lemma resolveSegments_resolve (cwd : jsstring) (paths : list jsstring) :
  resolveSegments cwd [resolve cwd paths] = resolveSegments cwd paths.
Proof.
  pose proof (resolveSegments_clean cwd paths) as Hclean.
  unfold resolve. set (segs := resolveSegments cwd paths) in *.
  unfold resolveSegments at 1. simpl. unfold normalize. simpl.
  destruct (decide (segs = [])) as [->|Hne]; [done|].
  rewrite splitSlash_joinSlash; [|eapply Forall_impl; [exact Hclean|]; by intros ? (_&_&_&?)|done].
  rewrite normalizeGo_clean by done. simpl.
  by rewrite app_nil_r, reverse_involutive.
Qed.

Lemma resolve_resolve (cwd : jsstring) (paths : list jsstring) :
  resolve cwd [resolve cwd paths] = resolve cwd paths.
Proof. unfold resolve at 1 3. by rewrite resolveSegments_resolve. Qed.

Lemma stripCommon_prefix (l1 l2 : list jsstring) :
  (stripCommon l1 l2).1 = [] → l1 `prefix_of` l2.
Proof.
  revert l2. induction l1 as [|x l1 IH]; intros l2; [intros _; apply prefix_nil|].
  destruct l2 as [|y l2]; [done|]. simpl.
  destruct (decide (x = y)) as [->|]; [|done].
  intros H. by apply prefix_cons, IH.
Qed.

Lemma startsWith_app (s t : jsstring) : startsWith (s ++ t) s = true.
Proof.
  induction s as [|c s IH]; simpl; [by destruct t|].
  by rewrite decide_True.
Qed.

Lemma joinSlash_startsWith (seg : jsstring) (rest : list jsstring) :
  startsWith (joinSlash (seg :: rest)) seg = true.
Proof.
  destruct rest as [|seg' rest].
  - simpl. rewrite <- (app_nil_r seg) at 1. apply startsWith_app.
  - change (joinSlash (seg :: seg' :: rest)) with (seg ++ 47%N :: joinSlash (seg' :: rest)).
    apply startsWith_app.
Qed.

(** The relative path from the workspace to a location outside of it
    starts with [..]. *)
Lemma relative_escapes (cwd root p : jsstring) :
  escapes cwd root p →
  startsWith (relative cwd (resolve cwd [root]) (resolve cwd [p])) (lit "..") = true.
Proof.
  intros Hesc. unfold escapes in Hesc. unfold relative.
  assert (resolve cwd [root] ≠ resolve cwd [p]) as Hne.
  { intros E. apply Hesc.
    rewrite <- (resolveSegments_resolve cwd [root]), <- (resolveSegments_resolve cwd [p]).
    by rewrite E. }
  rewrite decide_False by done.
  rewrite !resolve_resolve. rewrite decide_False by done.
  rewrite !resolveSegments_resolve.
  destruct (stripCommon (resolveSegments cwd [root]) (resolveSegments cwd [p]))
    as [up down] eqn:E.
  destruct up as [|seg up].
  - exfalso. apply Hesc. apply stripCommon_prefix. by rewrite E.
  - simpl replicate. apply (joinSlash_startsWith (lit "..")).
Qed.

End PathFacts.

(** ** Built-in tools *)
Section ToolFacts.
Import Path Tools.

Variable FS : Type.
Variable platform : Platform FS.

(** *** C1: paths outside the workspace *)

Lemma resolveSafePath_escapes (root p : jsstring) (w : ToolWorld FS) :
  escapes (cwd platform) root p →
  resolveSafePath FS platform root p w
  = (Throws (newError (lit "Path is outside workspace")), w).
Proof.
  intros Hesc. unfold resolveSafePath.
  by rewrite (relative_escapes _ _ _ Hesc).
Qed.

Lemma parseObject_valid {A} (fields : list (jsstring * JsValue) → option A)
    (fs : list (jsstring * JsValue)) (a : A) (w : ToolWorld FS) :
  fields fs = Some a → parseObject FS platform fields (VObject fs) w = (Returns a, w).
Proof. intros E. unfold parseObject. by rewrite E. Qed.

(** The parsed parameters of a valid call hold its [path] argument. *)
Lemma valid_path (tool : ToolName) (fs : list (jsstring * JsValue)) (path : jsstring) :
  asString (field fs (lit "path")) = Some path →
  match tool with
  | read_file => ∀ p, read_file_parameters fs = Some p → read_path p = path
  | write_file => ∀ p, write_file_parameters fs = Some p → write_path p = path
  | create_dir => ∀ p, create_dir_parameters fs = Some p → create_path p = path
  | list_files => ∀ p, list_files_parameters fs = Some p → list_path p = path
  | delete_file => ∀ p, delete_file_parameters fs = Some p → delete_path p = path
  | exec => True
  end.
Proof.
  intros Hpath. destruct tool; [..|done]; intros p;
    unfold read_file_parameters, write_file_parameters, create_dir_parameters,
      list_files_parameters, delete_file_parameters;
    rewrite Hpath; simpl; intros Hp; simplify_option_eq; done.
Qed.

(** C1, as amended: for every built-in file tool and every call whose
    parameters pass the schema, if the [path] argument, resolved against the
    current directory of the process as [resolveSafePath] does, names a
    location outside the workspace root (through [..] or as an absolute
    path), then [execute] returns the failing result with the error
    [Path is outside workspace] and makes no call to the file system.  This
    covers [../../etc/passwd] in every setting where that path leaves the
    workspace, whether or not the target exists. *)
Theorem escaping_path_rejected (tool : ToolName) (params : JsValue) (path : jsstring)
    (context : ToolContext) (w : ToolWorld FS) :
  tool ∈ fileTools →
  valid tool params →
  pathArgument params = Some path →
  escapes (cwd platform) (workspace context) path →
  execute FS platform tool params context w = (Returns containmentFailure, w).
Proof.
  intros Htool Hvalid Hpath Hesc.
  destruct params as [| | | | | |?|fs]; try done. simpl in Hpath.
  pose proof (valid_path tool fs path Hpath) as Hp.
  unfold fileTools in Htool.
  destruct tool; simpl in Hvalid, Hp;
    [..|exfalso;
        repeat (apply elem_of_cons in Htool as [Htool|Htool]; [discriminate Htool|]);
        by apply elem_of_nil in Htool];
    destruct Hvalid as [p Eparse]; specialize (Hp p Eparse); simpl;
    unfold read_file_execute, write_file_execute, create_dir_execute,
      list_files_execute, delete_file_execute, tryCatch, mbind, M_bind;
    rewrite (parseObject_valid _ fs p w Eparse), Hp,
      (resolveSafePath_escapes _ _ _ Hesc);
    reflexivity.
Qed.

(** *** C2: what [execute] does with a failure *)

Lemma bind_Returns {A B} (m : Async.M (ToolWorld FS) ToolError A) (k : A → Async.M (ToolWorld FS) ToolError B) (w w' : ToolWorld FS) (b : B) :
  (m ≫= k) w = (Returns b, w') →
  ∃ a w1, m w = (Returns a, w1) ∧ k a w1 = (Returns b, w').
Proof.
  unfold mbind, M_bind. destruct (m w) as [[a|e] w1]; [eauto|discriminate].
Qed.

(** A [try] block whose handler always returns does not throw. *)
Lemma tryCatch_returns {A} (body : Async.M (ToolWorld FS) ToolError A) (handler : ToolError → Async.M (ToolWorld FS) ToolError A)
    (ok : A → Prop) (w : ToolWorld FS) :
  (∀ a w', body w = (Returns a, w') → ok a) →
  (∀ e w1, ∃ a w', handler e w1 = (Returns a, w') ∧ ok a) →
  ∃ a w', tryCatch body handler w = (Returns a, w') ∧ ok a.
Proof.
  intros Hbody Hhandler. unfold tryCatch.
  destruct (body w) as [[a|e] w1] eqn:E; [|apply Hhandler].
  exists a, w1. split; [done|]. by eapply Hbody.
Qed.

Lemma failed_errorGiven (Q : Prop) (msg : jsstring) (w : ToolWorld FS) :
  ∃ a w', (mret (failed msg) : Async.M (ToolWorld FS) ToolError ToolResult) w
          = (Returns a, w') ∧ (Q → errorGiven a).
Proof. eexists _, _. split; [reflexivity|]. intros _ _. by eexists. Qed.

Ltac body_result H :=
  repeat (apply bind_Returns in H as (? & ? & _ & H));
  repeat case_match;
  repeat (apply bind_Returns in H as (? & ? & _ & H));
  injection H as <- _; first [by intros ?|intros _; by eexists].

(** X1: Of the tools whose [execute] parses inside its [try] block,
    [write_file], [create_dir], [list_files] and [exec] never throw:
    whatever the parameters and whatever the file system does, they return
    a result, and a failing result of a file tool carries an error text.
    [read_file] does the same with one exception: when its [catch] block
    builds the message [File not found] and the value it shows there cannot
    be converted to a string, the [TypeError] of that conversion is thrown
    to the caller. *)
Lemma guarded_tools_return (tool : ToolName) (params : JsValue)
    (context : ToolContext) (w : ToolWorld FS) :
  tool ≠ delete_file →
  (∃ r w', execute FS platform tool params context w = (Returns r, w') ∧
           (tool ≠ exec → errorGiven r)) ∨
  (tool = read_file ∧
   ∃ e w', execute FS platform tool params context w = (Throws e, w') ∧
           stringOf platform (shownPath params) = inl e).
Proof.
  intros Htool. destruct tool; [|left..|done|left]; simpl;
    unfold read_file_execute, write_file_execute, create_dir_execute,
      list_files_execute, exec_execute;
    [|apply tryCatch_returns..].
  - unfold tryCatch.
    match goal with |- context [match ?body w with _ => _ end] =>
      destruct (body w) as [[a|e] w1] eqn:E end.
    + left. exists a, w1. split; [done|]. intros _. body_result E.
    + destruct (includes (message e) (lit "outside workspace"));
        [left; by apply failed_errorGiven|].
      destruct (includes (message e) (lit "ENOENT"));
        [|left; by apply failed_errorGiven].
      unfold mbind, M_bind, evaluating.
      destruct (stringOf platform (shownPath params)) as [e'|text].
      * right. split; [done|]. by exists e', w1.
      * left. by apply failed_errorGiven.
  - intros a w' H _. body_result H.
  - intros e w1. apply failed_errorGiven.
  - intros a w' H _. body_result H.
  - intros e w1. apply failed_errorGiven.
  - intros a w' H _. body_result H.
  - intros e w1. apply failed_errorGiven.
  - done.
  - intros e w1. repeat case_match; by eexists _, _.
Qed.

(** [delete_file] throws whenever its parameters fail the schema. *)
Lemma delete_file_invalid (params : JsValue) (context : ToolContext) (w : ToolWorld FS) :
  ¬ valid delete_file params →
  execute FS platform delete_file params context w
  = (Throws (zodError FS platform params), w).
Proof.
  intros Hinvalid. simpl. unfold delete_file_execute, mbind, M_bind, parseObject.
  destruct params as [| | | | | |?|fs]; try reflexivity.
  destruct (delete_file_parameters fs) as [p|] eqn:E; [|reflexivity].
  exfalso. apply Hinvalid. simpl. by rewrite E.
Qed.

(** C2 fails on the code for [delete_file]: its [execute] parses the
    parameters before entering its [try] block, so with parameters that
    fail the schema (here the empty object, which has no [path]) the
    [ZodError] is thrown to the caller instead of being returned as a
    failing result. *)
Theorem delete_file_throws_on_invalid_params (context : ToolContext) (w : ToolWorld FS) :
  execute FS platform delete_file (VObject []) context w
  = (Throws (zodError FS platform (VObject [])), w) ∧
  ¬ reported (execute FS platform delete_file (VObject []) context w).
Proof.
  assert (execute FS platform delete_file (VObject []) context w
          = (Throws (zodError FS platform (VObject [])), w)) as Hthrows.
  { apply delete_file_invalid. intros [p Hp]. discriminate Hp. }
  split; [exact Hthrows|]. rewrite Hthrows. intros (r & Hr & _). discriminate Hr.
Qed.

End ToolFacts.

Section ToolExamples.
Import Path Tools.

Lemma escaping_path_rejected_witness :
  delete_file ∈ fileTools ∧
  valid delete_file (pathOnly (lit "../../etc/passwd")) ∧
  pathArgument (pathOnly (lit "../../etc/passwd")) = Some (lit "../../etc/passwd") ∧
  escapes (cwd (examplePlatform (lit "/home/u/proj"))) (lit "test-file-tools")
          (lit "../../etc/passwd") ∧
  execute unit (examplePlatform (lit "/home/u/proj")) delete_file
          (pathOnly (lit "../../etc/passwd")) {| workspace := lit "test-file-tools" |} untouched
  = (Returns containmentFailure, untouched).
Proof.
  assert (delete_file ∈ fileTools) as Htool by (unfold fileTools; repeat constructor).
  assert (valid delete_file (pathOnly (lit "../../etc/passwd"))) as Hvalid
    by (by eexists).
  assert (escapes (cwd (examplePlatform (lit "/home/u/proj"))) (lit "test-file-tools")
                  (lit "../../etc/passwd")) as Hesc.
  { intros [k Hk]. vm_compute in Hk. discriminate Hk. }
  split; [exact Htool|]. split; [exact Hvalid|]. split; [reflexivity|].
  split; [exact Hesc|].
  exact (escaping_path_rejected unit (examplePlatform (lit "/home/u/proj")) delete_file
           (pathOnly (lit "../../etc/passwd")) (lit "../../etc/passwd")
           {| workspace := lit "test-file-tools" |} untouched
           Htool Hvalid eq_refl Hesc).
Defined.

(** C1 as stated fails: relative paths are resolved against the current
    directory of the process, so when that directory lies two levels below
    the workspace root, [../../etc/passwd] names a location inside the
    workspace and the call goes through to the file system. *)
Lemma passwd_path_inside_workspace :
  resolve (lit "/w/a/b") [lit "../../etc/passwd"] = lit "/w/etc/passwd" ∧
  execute unit (examplePlatform (lit "/w/a/b")) read_file
          (pathOnly (lit "../../etc/passwd")) {| workspace := lit "/w" |} untouched
  = (Returns (succeeded (ReadData (lit "data") (lit "../../etc/passwd"))),
     {| fs := (); calls := [ReadFile (lit "/w/etc/passwd") utf8] |}) ∧
  execute unit (examplePlatform (lit "/w/a/b")) read_file
          (pathOnly (lit "../../etc/passwd")) {| workspace := lit "/w" |} untouched
  ≠ (Returns containmentFailure, untouched).
Proof.
  split; [reflexivity|]. split; [reflexivity|]. vm_compute. discriminate.
Qed.

End ToolExamples.

(** ** Raw input handler *)
Section RawInputFacts.
Import RawInput.

Context {engine : Engine}.

(** *** C4: menu filtering *)

Lemma filterCommands_filtered (query : jsstring) (h : Handler) :
  filteredCommands (filterCommands query h)
  = filter (fun cmd => prefixMatchIgnoringCase (name cmd) query = true) (commands h).
Proof. unfold filterCommands. simpl. by case_match. Qed.

Lemma filterCommands_commands (query : jsstring) (h : Handler) :
  commands (filterCommands query h) = commands h.
Proof. unfold filterCommands. simpl. by case_match. Qed.

Lemma filterCommands_selected (query : jsstring) (h : Handler) :
  filteredCommands (filterCommands query h) ≠ [] →
  selectedIndex (state (filterCommands query h)) = 0.
Proof.
  unfold filterCommands. cbn [filteredCommands setFiltered].
  destruct (filter _ (commands h)) as [|c l] eqn:E; [done|].
  intros _. reflexivity.
Qed.

Lemma filterCommands_contract (query : jsstring) (h : Handler) :
  menu_contract prefixMatchIgnoringCase query h (filterCommands query h).
Proof.
  unfold menu_contract. rewrite filterCommands_filtered.
  split; [done|]. split; [apply sublist_filter|].
  rewrite <- filterCommands_filtered. intros Hne.
  unfold selectedCommand. rewrite (filterCommands_selected query h Hne).
  simpl. by destruct (filteredCommands (filterCommands query h)).
Qed.

(** C4, as amended: menu filtering matches command names by prefix without
    regard to case, in the sense that the query and the name are both
    lower-cased by the engine's [toLowerCase] (whatever letters it folds)
    before the prefix test, against the registered command list; after
    every filter update, be it a direct call
    of [filterCommands] or the [updateMenuState] that follows a keystroke
    while the buffer holds a command query, the matches are in registration
    order and the first match is the highlighted entry. *)
Theorem menu_filter_ignores_case (h : Handler) :
  (∀ query, menu_contract prefixMatchIgnoringCase query h (filterCommands query h)) ∧
  (∀ query, getCommandQuery h = Some query →
     showMenu (state (updateMenuState h)) = true ∧
     menu_contract prefixMatchIgnoringCase query h (updateMenuState h)).
Proof.
  split; [intros; apply filterCommands_contract|].
  intros query Hq. unfold updateMenuState. rewrite Hq.
  split; [unfold filterCommands; simpl; by case_match|].
  apply (filterCommands_contract query
           (setState {| buffer := buffer (state h); cursor := cursor (state h);
                        showMenu := true; selectedIndex := selectedIndex (state h) |} h)).
Qed.

(** *** C10: what [readLine] resolves with *)

Lemma filterCommands_samePromise (query : jsstring) (h : Handler) :
  samePromise h (filterCommands query h).
Proof. unfold filterCommands. by case_match. Qed.

Lemma updateMenuState_samePromise (h : Handler) : samePromise h (updateMenuState h).
Proof.
  unfold updateMenuState. destruct (getCommandQuery h); [|done].
  apply (filterCommands_samePromise _ (setState _ h)).
Qed.

Lemma editing_samePromise (h : Handler) (data : jsstring) :
  samePromise h (handleChar data h) ∧ samePromise h (handleBackspace h) ∧
  samePromise h (handleArrowUp h) ∧ samePromise h (handleArrowDown h) ∧
  samePromise h (handleArrowRight h) ∧ samePromise h (handleArrowLeft h).
Proof.
  unfold handleChar, handleBackspace, handleArrowUp, handleArrowDown,
    handleArrowRight, handleArrowLeft.
  repeat split; repeat case_match; try done;
    apply (updateMenuState_samePromise (setState _ h)).
Qed.

Lemma orNull_not_empty (input : jsstring) : orNull input ≠ Some [].
Proof. by destruct input. Qed.

Lemma resolve_not_empty (value : option jsstring) (h : Handler) :
  value ≠ Some [] →
  settled h ≠ Some (Some []) →
  settled (resolve value h) ≠ Some (Some []).
Proof. unfold resolve; simpl. destruct (settled h); congruence. Qed.

Lemma resolveIfSet_not_empty (value : option jsstring) (h : Handler) :
  value ≠ Some [] →
  settled h ≠ Some (Some []) →
  settled (resolveIfSet value h) ≠ Some (Some []).
Proof.
  unfold resolveIfSet. destruct (resolveInput h); [apply resolve_not_empty|done].
Qed.

Lemma handleSubmit_not_empty (h : Handler) :
  settled h ≠ Some (Some []) → settled (handleSubmit h) ≠ Some (Some []).
Proof.
  intros Hs. unfold handleSubmit.
  destruct (showMenu (state h) && _); [destruct (selectedCommand h)|].
  - by apply resolveIfSet_not_empty.
  - done.
  - apply resolveIfSet_not_empty; [apply orNull_not_empty|done].
Qed.

Lemma step_not_empty (h : Handler) (ev : Event) :
  settled h ≠ Some (Some []) → settled (step h ev) ≠ Some (Some []).
Proof.
  intros Hs. destruct ev as [data|]; simpl.
  - destruct (editing_samePromise h data)
      as ([Hc _] & [Hb _] & [Hu _] & [Hd _] & [Hr _] & [Hl _]).
    unfold handleData.
    repeat case_match; try done; try congruence;
      try (by apply handleSubmit_not_empty);
      by apply (resolveIfSet_not_empty None).
  - unfold stop. simpl. destruct (resolveInput h); [|done]. simpl.
    destruct (settled h); congruence.
Qed.

Lemma run_not_empty (events : list Event) (h : Handler) :
  settled h ≠ Some (Some []) → settled (run h events) ≠ Some (Some []).
Proof.
  revert h. induction events as [|ev events IH]; intros h Hs; [done|].
  simpl. apply IH. by apply step_not_empty.
Qed.

Lemma getCommandQuery_empty (h : Handler) :
  buffer (state h) = [] → getCommandQuery h = None.
Proof. intros E. unfold getCommandQuery. by rewrite E. Qed.

Lemma updateMenuState_menu (h : Handler) :
  buffer (state (updateMenuState h)) = buffer (state h) ∧
  (showMenu (state (updateMenuState h)) = true → buffer (state h) ≠ []) ∧
  (filteredCommands (updateMenuState h) ≠ [] →
   selectedIndex (state (updateMenuState h)) = 0).
Proof.
  unfold updateMenuState. destruct (getCommandQuery h) as [query|] eqn:E.
  - split; [unfold filterCommands; by case_match|]. split.
    + intros _ Hb. by rewrite (getCommandQuery_empty h Hb) in E.
    + apply filterCommands_selected.
  - done.
Qed.

Lemma updateMenuState_collecting (h g : Handler) :
  collecting h → samePromise h g → collecting (updateMenuState g).
Proof.
  intros (H1 & _ & _) (Es & Ea & Er & _).
  destruct (updateMenuState_samePromise g) as (Es' & Ea' & Er' & _).
  destruct (updateMenuState_menu g) as (Eb & Hm & Hsel).
  split; [|split].
  - rewrite Ea', Ea, Er', Er, Es', Es. exact H1.
  - rewrite Eb. exact Hm.
  - intros Hne. rewrite (Hsel Hne).
    destruct (filteredCommands (updateMenuState g)); [done|]. simpl; lia.
Qed.

Lemma readLine_collecting (h : Handler) : collecting (readLine h).
Proof. split; [done|]. split; done. Qed.

Lemma arrow_collecting (h : Handler) (i : Z) :
  collecting h →
  showMenu (state h) && (0 <? Z.of_nat (length (filteredCommands h))) = true →
  0 ≤ i →
  collecting (setSelectedIndex (Z.rem i (Z.of_nat (length (filteredCommands h)))) h).
Proof.
  intros (H1 & H2 & H3) Hmenu Hi.
  apply andb_true_iff in Hmenu as [_ Hn]. apply Z.ltb_lt in Hn.
  split; [done|]. split; [done|]. intros _. simpl.
  apply Z.rem_bound_pos; lia.
Qed.

Lemma step_collecting (h : Handler) (ev : Event) :
  collecting h → collecting (step h ev).
Proof.
  intros Hc. pose proof Hc as (H1 & H2 & H3).
  assert (∀ g, state g = state h → filteredCommands g = filteredCommands h →
               active g = false → collecting g) as Hdone.
  { intros g Es Ef Ea. split; [by rewrite Ea|]. by rewrite Es, Ef. }
  destruct ev as [data|]; simpl.
  - unfold handleData. destruct (active h) eqn:Ha; simpl; [|done].
    repeat case_decide.
    + unfold handleSubmit.
      destruct (showMenu (state h) && _); [destruct (selectedCommand h)|].
      * apply Hdone; unfold resolveIfSet, resolve; by repeat case_match.
      * done.
      * apply Hdone; unfold resolveIfSet, resolve; by repeat case_match.
    + apply Hdone; unfold handleCancel, resolveIfSet, resolve; by repeat case_match.
    + apply Hdone; unfold handleCancel, resolveIfSet, resolve; by repeat case_match.
    + unfold handleBackspace. case_match; [|done].
      by apply (updateMenuState_collecting h).
    + unfold handleArrowUp. case_match eqn:Hm; [|done].
      apply arrow_collecting; [done..|].
      apply andb_true_iff in Hm as [_ Hn]. apply Z.ltb_lt in Hn.
      destruct (decide (filteredCommands h = [])) as [E|Hne]; [rewrite E in Hn; simpl in Hn; lia|].
      specialize (H3 Hne). lia.
    + unfold handleArrowDown. case_match eqn:Hm; [|done].
      apply arrow_collecting; [done..|].
      apply andb_true_iff in Hm as [_ Hn]. apply Z.ltb_lt in Hn.
      destruct (decide (filteredCommands h = [])) as [E|Hne]; [rewrite E in Hn; simpl in Hn; lia|].
      specialize (H3 Hne). lia.
    + unfold handleArrowRight. case_match; [|done].
      by apply (updateMenuState_collecting h).
    + unfold handleArrowLeft. case_match; [|done].
      by apply (updateMenuState_collecting h).
    + destruct data as [|c [|? ?]]; [done| |done]. case_match; [|done].
      unfold handleChar. by apply (updateMenuState_collecting h).
  - apply Hdone; unfold stop; simpl; by repeat case_match.
Qed.

Lemma run_collecting (events : list Event) (h : Handler) :
  collecting h → collecting (run h events).
Proof.
  revert h. induction events as [|ev events IH]; intros h Hc; [done|].
  simpl. apply IH. by apply step_collecting.
Qed.

Lemma useReadline_settled (answer selection : jsstring) (h : Handler) :
  resolveInput h = true → settled h = None →
  ∃ value : option jsstring,
    settled (useReadline answer selection h) = Some value ∧
    value ≠ Some [] ∧
    (answer = [] → value = None).
Proof.
  intros Hr Hs. unfold useReadline.
  set (h1 := setState _ h).
  assert (resolveInput h1 = true ∧ settled h1 = None) as [Hr1 Hs1] by done.
  destruct (startsWith (trim answer) (lit "/")) eqn:Hslash.
  - assert (answer ≠ []) as Hne by (intros ->; done).
    set (h2 := match getCommandQuery h1 with
               | Some query => filterCommands query h1
               | None => h1
               end).
    assert (resolveInput h2 = true ∧ settled h2 = None) as [Hr2 Hs2].
    { unfold h2. destruct (getCommandQuery h1) as [query|]; [|done].
      destruct (filterCommands_samePromise query h1) as (-> & _ & -> & _). done. }
    repeat case_match; unfold resolveIfSet, resolve; simpl; rewrite Hr2, Hs2; simpl;
      eexists; (split; [reflexivity|]); split; congruence.
  - unfold resolveIfSet, resolve; simpl. rewrite Hr, Hs.
    eexists. split; [reflexivity|]. split; [apply orNull_not_empty|by intros ->].
Qed.

(** C10: [readLine] never resolves with the empty string.  In raw mode,
    whatever keys arrive and whenever [stop()] is called, the promise is
    never settled with [""]; Enter always settles it; and Enter on an empty
    buffer settles it with [null], the value Ctrl+C and Ctrl+D settle it
    with.  In the readline fallback the promise is never settled with [""]
    either, and an empty line gives [null]. *)
Theorem readLine_never_empty_string (h : Handler) :
  (∀ events : list Event, settled (run (readLine h) events) ≠ Some (Some [])) ∧
  (∀ events : list Event,
     active (run (readLine h) events) = true →
     is_Some (settled (handleData [13%N] (run (readLine h) events))) ∧
     uncaught (handleData [13%N] (run (readLine h) events))
     = uncaught (run (readLine h) events)) ∧
  (∀ events : list Event,
     active (run (readLine h) events) = true →
     buffer (state (run (readLine h) events)) = [] →
     settled (handleData [13%N] (run (readLine h) events)) = Some None ∧
     settled (handleData [3%N] (run (readLine h) events)) = Some None ∧
     settled (handleData [4%N] (run (readLine h) events)) = Some None) ∧
  (∀ answer selection : jsstring,
     is_Some (settled (useReadline answer selection (readLine h))) ∧
     settled (useReadline answer selection (readLine h)) ≠ Some (Some [])) ∧
  (∀ selection : jsstring,
     settled (useReadline [] selection (readLine h)) = Some None).
Proof.
  split; [intros events; by apply run_not_empty|].
  split; [|split; [|split]].
  - intros events Ha.
    destruct (run_collecting events _ (readLine_collecting h)) as (H1 & H2 & H3).
    destruct (H1 Ha) as [Hr Hs].
    unfold handleData. rewrite Ha. cbn [negb].
    rewrite decide_True by (by left).
    unfold handleSubmit.
    destruct (showMenu _ && _) eqn:Hmenu.
    + apply andb_true_iff in Hmenu as [_ Hn]. apply Z.ltb_lt in Hn.
      assert (filteredCommands (run (readLine h) events) ≠ []) as Hne.
      { intros E. rewrite E in Hn. simpl in Hn. lia. }
      specialize (H3 Hne). unfold selectedCommand.
      destruct (Z.ltb_spec (selectedIndex (state (run (readLine h) events))) 0); [lia|].
      destruct (lookup_lt_is_Some_2 (filteredCommands (run (readLine h) events))
                  (Z.to_nat (selectedIndex (state (run (readLine h) events)))))
        as [selected ->]; [lia|].
      unfold resolveIfSet, resolve. simpl. rewrite Hr, Hs. simpl. by split.
    + unfold resolveIfSet, resolve. simpl. rewrite Hr, Hs. simpl. by split.
  - intros events Ha Hb.
    destruct (run_collecting events _ (readLine_collecting h)) as (H1 & H2 & _).
    destruct (H1 Ha) as [Hr Hs].
    assert (showMenu (state (run (readLine h) events)) = false) as Hm.
    { destruct (showMenu _) eqn:E; [|done]. by destruct (H2 eq_refl). }
    unfold handleData. rewrite Ha. cbn [negb]. split; [|split].
    + rewrite decide_True by (by left).
      unfold handleSubmit, resolveIfSet, resolve, finalizeInput, cleanup.
      rewrite Hm, Hb. simpl. by rewrite Hr, Hs.
    + rewrite decide_False by (intros [?|?]; discriminate).
      rewrite decide_True by done.
      unfold handleCancel, resolveIfSet, resolve, finalizeInput, cleanup.
      simpl. by rewrite Hr, Hs.
    + rewrite decide_False by (intros [?|?]; discriminate).
      rewrite decide_False by discriminate. rewrite decide_True by done.
      unfold handleCancel, resolveIfSet, resolve, finalizeInput, cleanup.
      simpl. by rewrite Hr, Hs.
  - intros answer selection.
    destruct (useReadline_settled answer selection (readLine h)) as (v & -> & Hv & _);
      [done..|]. split; [done|congruence].
  - intros selection.
    destruct (useReadline_settled [] selection (readLine h)) as (v & -> & _ & Hv);
      [done..|]. by rewrite Hv.
Qed.

End RawInputFacts.

Section RawInputMenuExample.
Import RawInput.

#[local] Existing Instance asciiEngine.

(** C4 as stated fails: with the chat commands registered, typing [/H]
    shows [help] and [history] in the menu, although no command name has
    the case-sensitive prefix [H].  (The names and the query are ASCII
    text, which every engine lower-cases as [asciiEngine] does.) *)
Lemma menu_filter_not_case_sensitive :
  let h := run (readLine (setCommands chatCommands newHandler)) [Data (lit "/"); Data (lit "H")] in
  buffer (state h) = lit "/H" ∧
  getCommandQuery h = Some (lit "H") ∧
  name <$> filteredCommands h = [lit "help"; lit "history"] ∧
  filter (fun cmd => prefixMatch (name cmd) (lit "H") = true) (commands h) = [] ∧
  ¬ menu_contract prefixMatch (lit "H") h (filterCommands (lit "H") h).
Proof.
  split; [reflexivity|]. split; [reflexivity|]. split; [reflexivity|].
  split; [reflexivity|]. intros [Hfilter _]. vm_compute in Hfilter. discriminate Hfilter.
Qed.

End RawInputMenuExample.

(** ** REPL *)
Section REPLFacts.
Import Session REPL.

Variable clock : nat → Z.
Variable toLocaleTimeString : Z → jsstring.
Variable context : REPLContext.

Lemma outputs_app (w : World) (es : list Effect) (w' : World) :
  effects w' = effects w ++ es →
  outputs w' = outputs w
               ++ omap (fun e => match e with Output text => Some text | _ => None end) es.
Proof. intros E. unfold outputs. by rewrite E, omap_app. Qed.

Lemma omap_StdoutWrite (chunks : list jsstring) :
  omap (fun e => match e with Output text => Some text | _ => None end)
       (StdoutWrite <$> chunks) = [].
Proof. induction chunks as [|c chunks IH]; [done|]. simpl. exact IH. Qed.

(** A stream that throws after its chunks: the chunks are written, nothing
    else happens, and the throw leaves [streamResponse]. *)
Lemma streamChunks_throws (chunks : list jsstring) (e : Thrown) (acc : jsstring) (w : World) :
  streamChunks chunks (Some e) acc w
  = (Throws e, {| heap := heap w; session := session w;
                  effects := effects w ++ (StdoutWrite <$> chunks);
                  dateReads := dateReads w |}).
Proof.
  revert acc w. induction chunks as [|c chunks IH]; intros acc w; simpl.
  - unfold throw. rewrite app_nil_r. by destruct w.
  - unfold mbind, M_bind, emit. rewrite IH. simpl. by rewrite <- app_assoc.
Qed.

Lemma lowerUnit_slash (c : N) : lowerUnit c = 47%N → c = 47%N.
Proof.
  unfold lowerUnit. destruct ((65 <=? c) && (c <=? 90))%N eqn:E; [|done].
  apply andb_true_iff in E as [H1 H2]. apply N.leb_le in H1. lia.
Qed.

Lemma toLowerCase_slash (s rest : jsstring) :
  toLowerCase s = 47%N :: rest → startsWith s (lit "/") = true.
Proof.
  destruct s as [|c s]; [done|]. unfold toLowerCase. rewrite fmap_cons.
  intros [= Ec _]. apply lowerUnit_slash in Ec. subst c.
  simpl. by destruct s.
Qed.

Lemma beforeProviderCall_returns (content : jsstring) (w : World) :
  (sessionAddMessage clock user content ;; ensureTokenLimit) w
  = (Returns (), beforeProviderCall clock content w).
Proof.
  unfold beforeProviderCall, mbind, M_bind, sessionAddMessage, ensureTokenLimit.
  cbn [heap session effects dateReads].
  destruct (trimToTokenLimit _ _) as [[] h1]; reflexivity.
Qed.

Lemma processUserMessage_steps (content : jsstring) (w : World) :
  processUserMessage clock context content w
  = (msgs ← sessionGetMessagesForAI;
     tryCatch
       (response ←
          (if ui_streamOutput (config context)
           then streamResponse context msgs
           else (result ← awaitChat context msgs; output result ;; mret result));
        sessionAddMessage clock assistant response)
       (fun error => output (errorLine error)))
      (beforeProviderCall clock content w).
Proof.
  pose proof (beforeProviderCall_returns content w) as Hsteps.
  unfold processUserMessage, mbind, M_bind in *.
  destruct (sessionAddMessage clock user content w) as [[[]|e1] w1]; [|done].
  destruct (ensureTokenLimit w1) as [[[]|e2] w2]; [|done].
  by injection Hsteps as <-.
Qed.

(** C8: when the provider call of a non-command turn throws, whether from
    [chat] or from the stream of [chatStream], [processInput] still returns
    normally; exactly one line, [Error: <message>], goes to the output
    handler; the session is as it was when the provider was called (the user
    message is kept, no assistant message is added); and the chat loop keeps
    running. *)
Theorem processInput_provider_error (input : jsstring) (w : World) (e : Thrown) :
  trim input ≠ [] →
  startsWith (trim input) (lit "/") = false →
  providerThrows context
    (getMessagesForAI (heap (beforeProviderCall clock (trim input) w))
                      (session (beforeProviderCall clock (trim input) w))) e →
  ∃ w' : World,
    processInput clock toLocaleTimeString context input w = (Returns (), w') ∧
    outputs w' = outputs (beforeProviderCall clock (trim input) w) ++ [errorLine e] ∧
    heap w' = heap (beforeProviderCall clock (trim input) w) ∧
    session w' = session (beforeProviderCall clock (trim input) w) ∧
    chatLoopIteration clock toLocaleTimeString context (Some input) w = (true, w').
Proof.
  intros Hne Hcmd Hthrows.
  set (w2 := beforeProviderCall clock (trim input) w) in *.
  assert (∃ w' : World,
    processInput clock toLocaleTimeString context input w = (Returns (), w') ∧
    outputs w' = outputs w2 ++ [errorLine e] ∧
    heap w' = heap w2 ∧ session w' = session w2) as (w' & Hrun & Hrest).
  { unfold processInput. destruct (decide (trim input = [])) as [|_]; [done|].
    rewrite Hcmd, processUserMessage_steps. fold w2.
    unfold sessionGetMessagesForAI, tryCatch, providerThrows, mbind, M_bind in *.
    destruct (ui_streamOutput (config context)).
    - unfold streamResponse.
      destruct (chatStream (aiProvider context) _) as [chunks failure].
      cbn [snd] in Hthrows. subst failure.
      unfold mbind, M_bind. rewrite streamChunks_throws.
      eexists. split; [reflexivity|]. cbn [heap session]. split; [|done].
      unfold outputs. cbn [effects]. rewrite !omap_app, omap_StdoutWrite.
      by rewrite app_nil_r.
    - unfold awaitChat. rewrite Hthrows.
      eexists. split; [reflexivity|]. cbn [heap session]. split; [|done].
      unfold outputs. cbn [effects]. by rewrite omap_app. }
  exists w'. split; [done|]. split; [apply Hrest|]. split; [apply Hrest|].
  split; [apply Hrest|].
  unfold chatLoopIteration. rewrite Hrun.
  destruct (decide _) as [[Hexit | Hquit]|]; [| |done].
  - apply toLowerCase_slash in Hexit. congruence.
  - apply toLowerCase_slash in Hquit. congruence.
Qed.


(** *** C9: unknown commands *)

Lemma commands_unknown (name : jsstring) :
  name ∉ commandTable → commands !! name = None.
Proof.
  unfold commandTable, commands. intros Hnot.
  repeat (rewrite lookup_insert_ne; [|intros <-; apply Hnot; set_solver]).
  apply lookup_empty.
Qed.

Lemma lowerUnit_whitespace (c : N) : isWhiteSpace (lowerUnit c) = isWhiteSpace c.
Proof.
  unfold lowerUnit. destruct ((65 <=? c) && (c <=? 90))%N eqn:E; [|done].
  apply andb_true_iff in E as [H1 H2]. apply N.leb_le in H1, H2.
  unfold isWhiteSpace.
  repeat match goal with
         | |- context [(?a <=? ?b)%N] => destruct (N.leb_spec a b); try lia
         | |- context [(?a =? ?b)%N] => destruct (N.eqb_spec a b); try lia
         end; reflexivity.
Qed.

Lemma trimStart_solid (s : jsstring) :
  Forall (fun c => isWhiteSpace c = false) s → trimStart s = s.
Proof. intros [|c s' Hc _]; [done|]. simpl. by rewrite Hc. Qed.

Lemma trim_solid (s : jsstring) :
  Forall (fun c => isWhiteSpace c = false) s → trim s = s.
Proof.
  intros Hs. unfold trim, trimEnd. rewrite (trimStart_solid s Hs).
  rewrite trimStart_solid by by apply Forall_reverse.
  apply reverse_involutive.
Qed.

Lemma splitGo_solid (s cur : jsstring) :
  Forall (fun c => isWhiteSpace c = false) s →
  splitGo false cur s = [reverse cur ++ s].
Proof.
  revert cur. induction s as [|c s IH]; intros cur Hs; simpl.
  - by rewrite app_nil_r.
  - apply Forall_cons in Hs as [Hc Hs]. rewrite Hc, IH by done.
    by rewrite reverse_cons, <- app_assoc.
Qed.

(** A line that reads [/exit] or [/quit] once lower-cased names a command of
    the table. *)
Lemma exit_line_known (t line : jsstring) :
  Forall (fun c => isWhiteSpace c = false) line →
  toLowerCase t = line →
  stripLeadingSlash line ∈ commandTable →
  commandNameOf t ∈ commandTable.
Proof.
  intros Hline Hlow Hin.
  assert (Forall (fun c => isWhiteSpace c = false) t) as Ht.
  { subst line. unfold toLowerCase in Hline. apply Forall_fmap in Hline.
    eapply Forall_impl; [exact Hline|]. intros c Hc; simpl in Hc.
    by rewrite lowerUnit_whitespace in Hc. }
  unfold commandNameOf, firstPart, splitWhitespace.
  rewrite (trim_solid t Ht), (splitGo_solid t [] Ht). simpl.
  by rewrite Hlow.
Qed.

(** C9: a [/]-prefixed input whose first token, lower-cased and without
    its leading slash, is not in the command table makes the dispatch write
    the two diagnostic lines to the output handler and nothing else: it
    returns normally with the exit signal [false], the session and the
    heap behind it are untouched, and the chat loop keeps running. *)
Theorem processInput_unknown_command (input : jsstring) (w : World) :
  startsWith (trim input) (lit "/") = true →
  commandNameOf (trim input) ∉ commandTable →
  ∃ w' : World,
    handleCommand toLocaleTimeString context (trim input) w = (Returns false, w') ∧
    processInput clock toLocaleTimeString context input w = (Returns (), w') ∧
    effects w' = effects w
                 ++ [Output (lit "Unknown command: " ++ firstPart (trim input));
                     Output (lit "Type /help for available commands")] ∧
    heap w' = heap w ∧
    session w' = session w ∧
    chatLoopIteration clock toLocaleTimeString context (Some input) w = (true, w').
Proof.
  intros Hslash Hunknown.
  assert (trim input ≠ []) as Hne by (intros E; by rewrite E in Hslash).
  assert (∃ w' : World,
    handleCommand toLocaleTimeString context (trim input) w = (Returns false, w') ∧
    effects w' = effects w
                 ++ [Output (lit "Unknown command: " ++ firstPart (trim input));
                     Output (lit "Type /help for available commands")] ∧
    heap w' = heap w ∧ session w' = session w) as (w' & Hcmd & Heff & Hheap & Hsess).
  { unfold handleCommand. rewrite (commands_unknown _ Hunknown).
    unfold mbind, M_bind, output, emit, mret, M_ret. cbn [heap session effects dateReads].
    eexists. split; [reflexivity|]. cbn [heap session effects].
    by rewrite <- app_assoc. }
  assert (processInput clock toLocaleTimeString context input w = (Returns (), w')) as Hrun.
  { unfold processInput. destruct (decide (trim input = [])); [done|].
    rewrite Hslash. unfold mbind, M_bind. by rewrite Hcmd. }
  exists w'. do 5 (split; [done|]).
  unfold chatLoopIteration. rewrite Hrun.
  destruct (decide _) as [[Hexit | Hquit]|]; [| |done]; exfalso; apply Hunknown.
  - eapply exit_line_known; [|exact Hexit|]; [by vm_compute; repeat constructor|].
    vm_compute. set_solver.
  - eapply exit_line_known; [|exact Hquit|]; [by vm_compute; repeat constructor|].
    vm_compute. set_solver.
Qed.


End REPLFacts.

Section REPLExamples.
Import Session REPL.

Lemma processInput_provider_error_witness :
  trim (lit "hello") ≠ [] ∧
  startsWith (trim (lit "hello")) (lit "/") = false ∧
  ∃ w' : World,
    processInput Z.of_nat (fun _ => []) (failingContext true) (lit "hello") initialWorld
    = (Returns (), w') ∧
    outputs w' = [lit "Error: Network error"].
Proof.
  assert (trim (lit "hello") ≠ []) as Hne.
  { vm_compute. discriminate. }
  assert (startsWith (trim (lit "hello")) (lit "/") = false) as Hcmd by reflexivity.
  split; [exact Hne|]. split; [exact Hcmd|].
  destruct (processInput_provider_error Z.of_nat (fun _ => []) (failingContext true) (lit "hello") initialWorld
              (ErrorObject (lit "Network error")) Hne Hcmd)
    as (w' & Hrun & Hout & _); [reflexivity|].
  exists w'. split; [exact Hrun|]. rewrite Hout. reflexivity.
Defined.

Lemma processInput_unknown_command_witness :
  startsWith (trim (lit "/bogus now")) (lit "/") = true ∧
  (commandNameOf (trim (lit "/bogus now")) ∉ commandTable) ∧
  ∃ w' : World,
    processInput Z.of_nat (fun _ => []) (failingContext false) (lit "/bogus now") initialWorld
    = (Returns (), w') ∧
    outputs w' = [lit "Unknown command: /bogus"; lit "Type /help for available commands"].
Proof.
  assert (startsWith (trim (lit "/bogus now")) (lit "/") = true) as Hslash by reflexivity.
  assert (commandNameOf (trim (lit "/bogus now")) ∉ commandTable) as Hunknown.
  { assert (commandNameOf (trim (lit "/bogus now")) = lit "bogus") as -> by reflexivity.
    unfold commandTable. rewrite !not_elem_of_cons.
    repeat split; try (vm_compute; discriminate). apply not_elem_of_nil. }
  split; [exact Hslash|]. split; [exact Hunknown|].
  destruct (processInput_unknown_command Z.of_nat (fun _ => []) (failingContext false) (lit "/bogus now") initialWorld Hslash Hunknown)
    as (w' & _ & Hrun & Heff & _).
  exists w'. split; [exact Hrun|]. unfold outputs. rewrite Heff. reflexivity.
Defined.

End REPLExamples.

(** * Further properties of the code *)

(** ** Session manager: how the operations compose *)
Section SessionOperations.
Import Session.

Lemma log_nil_array (h : Heap) (this : SessionManager) :
  arrayAt h (messages this) = [] → log h this = [].
Proof. intros E. unfold log. by rewrite E. Qed.

Lemma tokens_of_log (h : Heap) (this : SessionManager) :
  getEstimatedTokenCount h this
  = foldr Z.add 0 ((fun m => weightedCost isChinese (content m)) <$> log h this).
Proof. apply countTokens_sum. Qed.

Lemma foldr_add_app (l1 l2 : list Z) :
  foldr Z.add 0 (l1 ++ l2) = foldr Z.add 0 l1 + foldr Z.add 0 l2.
Proof. induction l1 as [|x l1 IH]; simpl; lia. Qed.

Lemma wf_construct (h : Heap) (options_maxTokens : option Z) :
  wf (construct h options_maxTokens).1 (construct h options_maxTokens).2 ∧
  log (construct h options_maxTokens).1 (construct h options_maxTokens).2 = [].
Proof.
  unfold construct, wf, log, arrayAt; simpl.
  rewrite list_lookup_middle by done. simpl.
  split; [|done]. split; [rewrite length_app; simpl; lia|]. split; constructor.
Qed.

Lemma wf_addMessage (h : Heap) (this : SessionManager) (r : Role) (c : jsstring) (now : Z) :
  wf h this → wf (addMessage h this r c now) this.
Proof.
  intros Hwf. pose proof (log_addMessage h this r c now Hwf) as Hlog.
  destruct Hwf as (Harr & Hobjs & Hdates).
  split; [|split].
  - unfold addMessage; simpl. by rewrite length_insert.
  - unfold addMessage. simpl. rewrite arrayAt_setArray_eq by done.
    change (arrayAt _ (messages this)) with (arrayAt h (messages this)).
    rewrite length_app. simpl. apply Forall_app. split.
    + eapply Forall_impl; [exact Hobjs|]. intros o Ho; simpl in *. lia.
    + constructor; [lia|constructor].
  - rewrite Hlog. change (dates (addMessage h this r c now)) with (dates h ++ [now]).
    rewrite length_app. simpl. apply Forall_app. split.
    + eapply Forall_impl; [exact Hdates|]. intros m Hm; simpl in *. lia.
    + constructor; [simpl; lia|constructor].
Qed.

Lemma wf_trimToTokenLimit (h : Heap) (this : SessionManager) :
  wf h this → wf (trimToTokenLimit h this).2 this.
Proof.
  intros (Harr & Hobjs & Hdates).
  destruct (trimToTokenLimit_drop h this (or_intror Harr)) as (k & Hk & _).
  destruct (log_trimToTokenLimit h this (or_intror Harr)) as (k' & Hk').
  split; [|split].
  - unfold trimToTokenLimit. case_match; [done|]. simpl. by rewrite length_insert.
  - rewrite Hk, trimToTokenLimit_objects. by apply Forall_drop.
  - rewrite Hk', trimToTokenLimit_dates. by apply Forall_drop.
Qed.

Lemma getMessages_log (h : Heap) (this : SessionManager) :
  wf h this →
  log (getMessages h this).1 this = log h this ∧
  logTimes (getMessages h this).1 this = logTimes h this ∧
  wf (getMessages h this).1 this.
Proof.
  intros (Harr & Hobjs & Hdates).
  destruct (getMessages_shape h this Hobjs) as (h' & -> & Hd & Ho & Ha). simpl.
  assert (arrayAt h' (messages this) = arrayAt h (messages this)) as Hint.
  { unfold arrayAt. by rewrite Ha, lookup_app_l. }
  assert (log h' this = log h this) as Hlog.
  { unfold log. rewrite Hint. apply Forall_fmap_ext_1.
    eapply Forall_impl; [exact Hobjs|]. intros o Hlt; simpl in *.
    unfold objectAt. by rewrite Ho, lookup_app_l. }
  split; [done|]. split; [unfold logTimes, dateAt; by rewrite Hlog, Hd|].
  split; [rewrite Ha, length_app; simpl; lia|]. split.
  - rewrite Hint, Ho, length_app.
    eapply Forall_impl; [exact Hobjs|]. intros o Hlt; simpl in *. lia.
  - by rewrite Hlog, Hd.
Qed.

Lemma addMessage_facts (h : Heap) (this : SessionManager)
    (r : Role) (c : jsstring) (now : Z) :
  wf h this →
  getMessageCount (addMessage h this r c now) this = S (getMessageCount h this) ∧
  getEstimatedTokenCount (addMessage h this r c now) this
  = getEstimatedTokenCount h this + estimateTokens c + 10 ∧
  getMessagesForAI (addMessage h this r c now) this = getMessagesForAI h this ++ [(r, c)] ∧
  logTimes (addMessage h this r c now) this = logTimes h this ++ [now].
Proof.
  intros Hwf. pose proof (log_addMessage h this r c now Hwf) as Hlog.
  assert (∀ g, getMessageCount g this = length (log g this)) as Hcount.
  { intros g. unfold getMessageCount, log. by rewrite length_fmap. }
  assert (∀ g, getMessagesForAI g this = (fun m => (role m, content m)) <$> log g this)
    as Hai.
  { intros g. unfold getMessagesForAI, log. by rewrite <- list_fmap_compose. }
  split; [|split; [|split]].
  - rewrite !Hcount, Hlog, length_app. simpl. lia.
  - rewrite !tokens_of_log, Hlog, fmap_app, foldr_add_app. simpl.
    rewrite <- estimateTokens_weightedCost. lia.
  - by rewrite !Hai, Hlog, fmap_app.
  - unfold logTimes. rewrite Hlog, fmap_app. simpl. f_equal.
    + apply Forall_fmap_ext_1. destruct Hwf as (_ & _ & Hdates).
      eapply Forall_impl; [exact Hdates|]. intros m Hm; simpl in *.
      unfold dateAt, addMessage; simpl. by rewrite lookup_app_l.
    + unfold dateAt, addMessage; simpl. by rewrite list_lookup_middle.
Qed.

(** X2: [addMessage] adds exactly one message at the newest end: the count
    grows by one, the estimate by the cost of the new content plus the
    overhead of 10, the payload for the provider by the new [(role,
    content)] pair, and the new timestamp is the clock reading. *)
Theorem addMessage_extends (h : Heap) (this : SessionManager)
    (r : Role) (c : jsstring) (now : Z) :
  wf h this →
  getMessageCount (addMessage h this r c now) this = S (getMessageCount h this) ∧
  getEstimatedTokenCount (addMessage h this r c now) this
  = getEstimatedTokenCount h this + estimateTokens c + 10 ∧
  getMessagesForAI (addMessage h this r c now) this = getMessagesForAI h this ++ [(r, c)] ∧
  logTimes (addMessage h this r c now) this = logTimes h this ++ [now].
Proof. apply addMessage_facts. Qed.

Lemma addMessage_extends_witness :
  wf (twoMessages 100).1 (twoMessages 100).2 ∧
  getMessageCount (addMessage (twoMessages 100).1 (twoMessages 100).2 user (lit "again") 3)
                  (twoMessages 100).2
  = S (getMessageCount (twoMessages 100).1 (twoMessages 100).2).
Proof.
  assert (wf (twoMessages 100).1 (twoMessages 100).2) as Hwf.
  { split; [simpl; lia|]. split; vm_compute; repeat constructor. }
  split; [exact Hwf|].
  apply (addMessage_extends (twoMessages 100).1 (twoMessages 100).2 user (lit "again") 3 Hwf).
Defined.

Lemma countTokens_heap (h h' : Heap) (ms : list loc) :
  Forall (fun o => objects h' !! o = objects h !! o) ms →
  countTokens h' ms = countTokens h ms.
Proof.
  induction 1 as [|m ms Hm _ IH]; [done|].
  rewrite !countTokens_cons, IH. unfold objectAt. by rewrite Hm.
Qed.

Lemma countTokens_overhead (h : Heap) (ms : list loc) :
  10 * Z.of_nat (length ms) ≤ countTokens h ms.
Proof.
  induction ms as [|m ms IH]; [done|].
  rewrite countTokens_cons. pose proof (estimateTokens_nonneg (content (objectAt h m))).
  simpl length. lia.
Qed.



(** X4: [clear()] replaces the log by a new empty array: the count and the
    estimate are 0 and the ceiling is kept, while every array and object
    that existed before (the old log, arrays returned earlier) keeps its
    content; the next message added is then the only one of the log. *)
Theorem clear_resets (h : Heap) (this : SessionManager)
    (r : Role) (c : jsstring) (now : Z) :
  log (clear h this).1 (clear h this).2 = [] ∧
  getMessageCount (clear h this).1 (clear h this).2 = 0%nat ∧
  getEstimatedTokenCount (clear h this).1 (clear h this).2 = 0 ∧
  getMaxTokens (clear h this).2 = getMaxTokens this ∧
  (∀ a : loc, (a < length (arrays h))%nat →
     arrayAt (clear h this).1 a = arrayAt h a) ∧
  objects (clear h this).1 = objects h ∧
  log (addMessage (clear h this).1 (clear h this).2 r c now) (clear h this).2
  = [{| role := r; content := c; timestamp := length (dates h) |}] ∧
  getMessagesForAI (addMessage (clear h this).1 (clear h this).2 r c now) (clear h this).2
  = [(r, c)].
Proof.
  assert (arrayAt (clear h this).1 (messages (clear h this).2) = []) as Hnil.
  { unfold clear, allocArray, arrayAt; simpl. by rewrite list_lookup_middle. }
  assert (wf (clear h this).1 (clear h this).2) as Hwf.
  { split; [unfold clear, allocArray; simpl; rewrite length_app; simpl; lia|].
    split; [by rewrite Hnil|]. by rewrite (log_nil_array _ _ Hnil). }
  pose proof (log_addMessage _ _ r c now Hwf) as Hlog.
  rewrite (log_nil_array _ _ Hnil) in Hlog.
  split; [by apply log_nil_array|].
  split; [unfold getMessageCount; by rewrite Hnil|].
  split; [unfold getEstimatedTokenCount; by rewrite Hnil|].
  split; [done|].
  split; [intros a Ha; unfold clear, allocArray, arrayAt; simpl; by rewrite lookup_app_l|].
  split; [done|].
  split; [exact Hlog|].
  assert (∀ g t, getMessagesForAI g t = (fun m => (role m, content m)) <$> log g t) as Hai.
  { intros g t. unfold getMessagesForAI, log. by rewrite <- list_fmap_compose. }
  by rewrite Hai, Hlog.
Qed.

(** X5: A second [trimToTokenLimit()] right after the first finds nothing to
    do: it returns [false] and leaves the session as it is (for a ceiling
    that is not negative). *)
Theorem trimToTokenLimit_idempotent (h : Heap) (this : SessionManager) :
  0 ≤ maxTokens this →
  trimToTokenLimit (trimToTokenLimit h this).2 this
  = (false, (trimToTokenLimit h this).2).
Proof.
  intros Hmax.
  destruct (trimToTokenLimit_drop h this (or_introl Hmax)) as (k & Hk & _ & Hstop & _).
  set (h' := (trimToTokenLimit h this).2) in *.
  assert (getEstimatedTokenCount h' this ≤ maxTokens this) as Hle.
  { unfold getEstimatedTokenCount. rewrite Hk.
    rewrite (countTokens_heap h h').
    - destruct Hstop as [-> | Hle]; [unfold countTokens; simpl; lia|done].
    - apply Forall_forall. intros o _. unfold h'. by rewrite trimToTokenLimit_objects. }
  unfold trimToTokenLimit at 1.
  apply Z.leb_le in Hle. by rewrite Hle.
Qed.

Lemma trimToTokenLimit_idempotent_witness :
  0 ≤ maxTokens (twoMessages 11).2 ∧
  trimToTokenLimit (trimToTokenLimit (twoMessages 11).1 (twoMessages 11).2).2 (twoMessages 11).2
  = (false, (trimToTokenLimit (twoMessages 11).1 (twoMessages 11).2).2).
Proof.
  assert (0 ≤ maxTokens (twoMessages 11).2) as Hmax by (simpl; lia).
  split; [exact Hmax|].
  apply (trimToTokenLimit_idempotent (twoMessages 11).1 (twoMessages 11).2 Hmax).
Defined.

Lemma weightedCost_sum_nonneg (l : list SessionMessage) :
  0 ≤ foldr Z.add 0 ((fun m => weightedCost isChinese (content m)) <$> l).
Proof.
  induction l as [|m l IH]; [simpl; lia|].
  rewrite fmap_cons. cbn [foldr]. rewrite <- estimateTokens_weightedCost.
  pose proof (estimateTokens_nonneg (content m)). lia.
Qed.

(** X6: When the newest message alone costs more than the ceiling,
    [trimToTokenLimit()] reports a trim and leaves the log empty: the
    newest message is removed as well.  Every message costs at least 10,
    so a ceiling below 10 empties any log that is not empty. *)
Theorem trimToTokenLimit_oversized_newest (h : Heap) (this : SessionManager)
    (older : list SessionMessage) (newest : SessionMessage) :
  0 ≤ maxTokens this →
  log h this = older ++ [newest] →
  maxTokens this < estimateTokens (content newest) + 10 →
  (trimToTokenLimit h this).1 = true ∧
  log (trimToTokenLimit h this).2 this = [] ∧
  getMessageCount (trimToTokenLimit h this).2 this = 0%nat.
Proof.
  intros Hmax Hlog Hbig.
  assert (∀ k : nat, (k < length (log h this))%nat →
            maxTokens this < countTokens h (drop k (arrayAt h (messages this)))) as Hcost.
  { intros k Hk. rewrite countTokens_sum, fmap_drop.
    change (objectAt h <$> arrayAt h (messages this)) with (log h this).
    rewrite Hlog in Hk |- *. rewrite length_app in Hk; simpl in Hk.
    rewrite drop_app_le by lia. rewrite fmap_app, foldr_add_app. simpl.
    rewrite <- estimateTokens_weightedCost.
    pose proof (weightedCost_sum_nonneg (drop k older)). lia. }
  assert (length (log h this) = length (arrayAt h (messages this))) as Hlen.
  { unfold log. by rewrite length_fmap. }
  destruct (trimToTokenLimit_drop h this (or_introl Hmax)) as (k & Hk & _ & Hstop & _).
  assert (drop k (arrayAt h (messages this)) = []) as Hnil.
  { destruct Hstop as [E | Hle]; [done|].
    destruct (decide (k < length (log h this))%nat) as [Hlt | Hge].
    - specialize (Hcost k Hlt). lia.
    - apply drop_ge. lia. }
  split; [|split].
  - unfold trimToTokenLimit. case_match eqn:E; [|done].
    apply Z.leb_le in E. unfold getEstimatedTokenCount in E.
    assert (0 < length (log h this))%nat as Hpos
      by (rewrite Hlog, length_app; simpl; lia).
    specialize (Hcost 0%nat Hpos). rewrite drop_0 in Hcost. lia.
  - apply log_nil_array. by rewrite Hk.
  - unfold getMessageCount. by rewrite Hk, Hnil.
Qed.

Lemma trimToTokenLimit_oversized_newest_witness :
  (0 ≤ maxTokens (twoMessages 9).2 ∧
   log (twoMessages 9).1 (twoMessages 9).2
   = [{| role := user; content := lit "hello"; timestamp := 0%nat |}]
     ++ [{| role := assistant; content := lit "hi"; timestamp := 1%nat |}] ∧
   maxTokens (twoMessages 9).2 < estimateTokens (lit "hi") + 10) ∧
  (trimToTokenLimit (twoMessages 9).1 (twoMessages 9).2).1 = true.
Proof.
  assert (0 ≤ maxTokens (twoMessages 9).2) as H1 by (simpl; lia).
  assert (log (twoMessages 9).1 (twoMessages 9).2
          = [{| role := user; content := lit "hello"; timestamp := 0%nat |}]
            ++ [{| role := assistant; content := lit "hi"; timestamp := 1%nat |}]) as H2
    by reflexivity.
  assert (maxTokens (twoMessages 9).2
          < estimateTokens
              (content {| role := assistant; content := lit "hi"; timestamp := 1%nat |}) + 10)
    as H3 by (vm_compute; reflexivity).
  split; [split; [exact H1|split; [exact H2|exact H3]]|].
  apply (trimToTokenLimit_oversized_newest _ _ _ _ H1 H2 H3).
Defined.

Lemma estimateTokens_bounds (text : jsstring) :
  Z.of_nat (length text) ≤ 4 * estimateTokens text ∧
  estimateTokens text ≤ Z.of_nat (length text).
Proof.
  unfold estimateTokens.
  pose proof (length_filter (fun c => isChinese c = true) text) as Hle.
  set (c := Z.of_nat (length (filter (fun c => isChinese c = true) text))) in *.
  set (n := Z.of_nat (length text)) in *.
  assert (0 ≤ c ≤ n) as Hc by (unfold c, n; lia).
  rewrite !ceilDiv_unitsFor by lia. unfold unitsFor.
  pose proof (Z.div_mod (c + 2 - 1) 2) as H1.
  pose proof (Z.mod_pos_bound (c + 2 - 1) 2) as H2.
  pose proof (Z.div_mod (n - c + 4 - 1) 4) as H3.
  pose proof (Z.mod_pos_bound (n - c + 4 - 1) 4) as H4.
  lia.
Qed.

(** X7: The estimate stays within fixed bounds of the text held: beyond the 10
    units per message it is at least a quarter of the number of UTF-16 code
    units of all contents and at most that number. *)
Theorem getEstimatedTokenCount_bounds (h : Heap) (this : SessionManager) :
  foldr Z.add 0 ((fun m => Z.of_nat (length (content m))) <$> log h this)
  ≤ 4 * (getEstimatedTokenCount h this - 10 * Z.of_nat (getMessageCount h this)) ∧
  getEstimatedTokenCount h this
  ≤ 10 * Z.of_nat (getMessageCount h this)
    + foldr Z.add 0 ((fun m => Z.of_nat (length (content m))) <$> log h this).
Proof.
  rewrite tokens_of_log.
  assert (getMessageCount h this = length (log h this)) as ->.
  { unfold getMessageCount, log. by rewrite length_fmap. }
  induction (log h this) as [|m l IH]; [simpl; lia|].
  rewrite !fmap_cons. cbn [foldr length].
  rewrite <- estimateTokens_weightedCost.
  pose proof (estimateTokens_bounds (content m)). lia.
Qed.

(** X8: Two calls of [getMessages()] in a row return two different arrays with
    the same content, the log in its order; the first array is not changed
    by the second call, and the log is the same after both. *)
Theorem getMessages_twice (h : Heap) (this : SessionManager) :
  wf h this →
  let first := getMessages h this in
  let second := getMessages first.1 this in
  first.2 ≠ second.2 ∧
  objectAt second.1 <$> arrayAt second.1 first.2 = log h this ∧
  objectAt second.1 <$> arrayAt second.1 second.2 = log h this ∧
  log second.1 this = log h this ∧
  logTimes second.1 this = logTimes h this.
Proof.
  intros Hwf first second.
  destruct (getMessages_log h this Hwf) as (Hlog1 & Htimes1 & Hwf1).
  destruct (getMessages_log first.1 this Hwf1) as (Hlog2 & Htimes2 & Hwf2).
  destruct (getMessages_copies h this Hwf) as (Hc1 & _ & _).
  destruct (getMessages_copies first.1 this Hwf1) as (Hc2 & _ & _).
  fold first in Hc1, Hlog1, Htimes1. fold second in Hc2, Hlog2, Htimes2.
  destruct Hwf as (Harr & Hobjs & _). destruct Hwf1 as (_ & Hobjs1 & _).
  destruct (getMessages_shape h this Hobjs) as (h1 & E1 & _ & Ho1 & Ha1).
  destruct (getMessages_shape first.1 this Hobjs1) as (h2 & E2 & _ & Ho2 & Ha2).
  fold first in E1. fold second in E2.
  assert (first.2 = length (arrays h)) as Hr1 by by rewrite E1.
  assert (second.2 = length (arrays first.1)) as Hr2 by by rewrite E2.
  assert (arrays first.1 = arrays h ++ [seq (length (objects h))
                                           (length (arrayAt h (messages this)))]) as Hfa
    by by rewrite E1.
  split; [|split; [|split; [|split]]].
  - rewrite Hr1, Hr2, Hfa, length_app. simpl. lia.
  - rewrite <- Hc1.
    assert (arrayAt second.1 first.2 = arrayAt first.1 first.2) as ->.
    { unfold arrayAt. rewrite E2. simpl. rewrite Ha2.
      rewrite lookup_app_l; [done|]. rewrite Hr1, Hfa, length_app. simpl. lia. }
    apply Forall_fmap_ext_1.
    assert (arrayAt first.1 first.2
            = seq (length (objects h)) (length (arrayAt h (messages this)))) as ->.
    { unfold arrayAt. rewrite Hfa, Hr1. by rewrite list_lookup_middle. }
    apply Forall_forall. intros o Ho. apply elem_of_seq in Ho.
    unfold objectAt. rewrite E2. simpl. rewrite Ho2.
    rewrite lookup_app_l; [done|]. rewrite E1; simpl. rewrite Ho1, length_app.
    unfold log. rewrite length_fmap. lia.
  - by rewrite Hc2, Hlog1.
  - by rewrite Hlog2, Hlog1.
  - by rewrite Htimes2, Htimes1.
Qed.

Lemma getMessages_twice_witness :
  wf (twoMessages 100).1 (twoMessages 100).2 ∧
  (getMessages (twoMessages 100).1 (twoMessages 100).2).2
  ≠ (getMessages (getMessages (twoMessages 100).1 (twoMessages 100).2).1
       (twoMessages 100).2).2.
Proof.
  assert (wf (twoMessages 100).1 (twoMessages 100).2) as Hwf.
  { split; [simpl; lia|]. split; vm_compute; repeat constructor. }
  split; [exact Hwf|].
  apply (getMessages_twice (twoMessages 100).1 (twoMessages 100).2 Hwf).
Defined.

End SessionOperations.

(** ** File and shell tools: what reaches the file system *)
Section ToolCalls.
Import Path Tools.

Variable FS : Type.
Variable platform : Platform FS.

Lemma stripCommon_app (l d : list jsstring) : stripCommon l (l ++ d) = ([], d).
Proof.
  induction l as [|x l IH]; simpl; [by destruct d|].
  by rewrite decide_True.
Qed.

Lemma joinSlash_first (seg : jsstring) (rest : list jsstring) :
  cleanPart seg →
  startsWith (joinSlash (seg :: rest)) (lit "..") = startsWith seg (lit "..") ∧
  isAbsolute (joinSlash (seg :: rest)) = false.
Proof.
  intros (Hne & _ & _ & Hslash).
  change (lit "..") with [46%N; 46%N].
  destruct seg as [|a seg]; [done|].
  apply not_elem_of_cons in Hslash as [Ha Hslash].
  assert (isAbsolute (joinSlash ((a :: seg) :: rest)) = false) as Habs.
  { destruct rest; simpl; destruct a as [|q]; try done.
    all: do 6 (destruct q as [q|q|]; try done). }
  split; [|exact Habs].
  destruct seg as [|b seg].
  - destruct rest as [|seg' rest]; simpl; [done|].
    destruct (decide (46%N = a)); done.
  - destruct rest as [|seg' rest]; simpl; repeat case_match; try done.
    all: by destruct seg.
Qed.

(** The two outcomes of [path.relative] from the resolved workspace to a
    resolved path. *)
Lemma relative_cases (cwd root p : jsstring) :
  (∃ below, resolveSegments cwd [p] = resolveSegments cwd [root] ++ below ∧
            relative cwd (resolve cwd [root]) (resolve cwd [p]) = joinSlash below) ∨
  (escapes cwd root p ∧
   startsWith (relative cwd (resolve cwd [root]) (resolve cwd [p])) (lit "..") = true).
Proof.
  destruct (decide (resolveSegments cwd [root] `prefix_of` resolveSegments cwd [p]))
    as [[below Hbelow]|Hesc]; [left|right; split; [done|by apply relative_escapes]].
  exists below. split; [done|]. unfold relative.
  assert (resolve cwd [root] = resolve cwd [p] → below = []) as Hsame.
  { intros E.
    assert (resolveSegments cwd [root] = resolveSegments cwd [p]) as E'.
    { rewrite <- (resolveSegments_resolve cwd [root]), <- (resolveSegments_resolve cwd [p]).
      by rewrite E. }
    rewrite Hbelow in E'. rewrite <- (app_nil_r (resolveSegments cwd [root])) in E' at 1.
    by apply app_inv_head in E'. }
  destruct (decide (resolve cwd [root] = resolve cwd [p])) as [E|Hne];
    [by rewrite (Hsame E)|].
  rewrite !resolve_resolve.
  destruct (decide (resolve cwd [root] = resolve cwd [p])) as [E|_]; [done|].
  rewrite !resolveSegments_resolve, Hbelow, stripCommon_app. done.
Qed.

Lemma resolveSafePath_cases (root p : jsstring) (w : ToolWorld FS) :
  (admitted (cwd platform) root p ∧
   resolveSafePath FS platform root p w = (Returns (resolve (cwd platform) [p]), w)) ∨
  (¬ admitted (cwd platform) root p ∧
   resolveSafePath FS platform root p w
   = (Throws (newError (lit "Path is outside workspace")), w)).
Proof.
  unfold resolveSafePath.
  destruct (relative_cases (cwd platform) root p) as [(below & Hbelow & ->)|[Hesc ->]].
  - destruct below as [|seg rest].
    + left. split; [|done]. exists []. split; [done|]. done.
    + assert (cleanPart seg) as Hclean.
      { pose proof (resolveSegments_clean (cwd platform) [p]) as Hall.
        rewrite Hbelow in Hall. apply Forall_app in Hall as [_ Hall].
        by apply Forall_cons in Hall as [? _]. }
      destruct (joinSlash_first seg rest Hclean) as [-> ->].
      rewrite orb_false_r.
      destruct (startsWith seg (lit "..")) eqn:E; [right|left]; (split; [|done]).
      * intros (below' & Hbelow' & Hdots).
        rewrite Hbelow in Hbelow'. apply app_inv_head in Hbelow'. subst below'.
        rewrite (Hdots seg rest eq_refl) in E. discriminate E.
      * exists (seg :: rest). split; [done|].
        intros seg' rest' [= <- <-]. exact E.
  - right. split; [|done]. intros (below & Hbelow & _). apply Hesc. by exists below.
Qed.

(** X9: [resolveSafePath] accepts a path exactly when its resolved location is
    the resolved workspace or lies below it and the first part below the
    workspace does not begin with two dots; it then returns the resolved
    path.  Every other path, which includes a file such as [..cache]
    directly inside the workspace, is refused with [Path is outside
    workspace].  Neither case touches the file system. *)
Theorem resolveSafePath_accepts (root p : jsstring) (w : ToolWorld FS) :
  (admitted (cwd platform) root p →
   resolveSafePath FS platform root p w = (Returns (resolve (cwd platform) [p]), w)) ∧
  (¬ admitted (cwd platform) root p →
   resolveSafePath FS platform root p w
   = (Throws (newError (lit "Path is outside workspace")), w)).
Proof.
  destruct (resolveSafePath_cases root p w) as [[Hin E]|[Hout E]]; split; done.
Qed.

Lemma callsSince_refl (w : ToolWorld FS) : callsSince w w = [].
Proof. unfold callsSince. by rewrite drop_all. Qed.

Lemma callsSince_app (w : ToolWorld FS) (f : FS) (l : list SystemCall) :
  callsSince w {| fs := f; calls := calls w ++ l |} = l.
Proof. unfold callsSince. simpl. by rewrite drop_app_length. Qed.

Lemma parseObject_cases {A} (fields : list (jsstring * JsValue) → option A)
    (params : JsValue) (w : ToolWorld FS) :
  (∃ fs a, params = VObject fs ∧ fields fs = Some a ∧
           parseObject FS platform fields params w = (Returns a, w)) ∨
  ((∀ fs, params = VObject fs → fields fs = None) ∧
   parseObject FS platform fields params w = (Throws (zodError FS platform params), w)).
Proof.
  destruct params as [| | | | | |?|fs]; try (right; split; [done|reflexivity]).
  unfold parseObject. destruct (fields fs) as [a|] eqn:E.
  - left. by exists fs, a.
  - right. split; [|done]. by intros ? [= <-].
Qed.

(** X10: Parameters that fail the schema never reach the file system or the
    shell: every tool that parses inside its [try] block makes no call and
    returns a failing result; the error text is the message of the schema
    error (for [read_file] and [exec], what their handlers make of that
    message).  The one case where no result is returned is [read_file] with
    a schema message that holds [ENOENT] (and not [outside workspace]) and a
    value shown in [File not found] that cannot be converted to a string:
    the [TypeError] of the conversion is thrown, and still no call is
    made. *)
Theorem invalid_parameters_make_no_call (tool : ToolName) (params : JsValue)
    (context : ToolContext) (w : ToolWorld FS) :
  tool ≠ delete_file →
  ¬ valid tool params →
  (∃ msg : jsstring,
     execute FS platform tool params context w = (Returns (failed msg), w) ∧
     (tool ≠ read_file → tool ≠ exec → msg = zodMessage platform params)) ∨
  (tool = read_file ∧
   includes (zodMessage platform params) (lit "outside workspace") = false ∧
   includes (zodMessage platform params) (lit "ENOENT") = true ∧
   ∃ e : ToolError,
     stringOf platform (shownPath params) = inl e ∧
     execute FS platform tool params context w = (Throws e, w)).
Proof.
  intros Htool Hinvalid.
  assert (∀ A (fields : list (jsstring * JsValue) → option A),
            (∀ fs, params = VObject fs → is_Some (fields fs) → valid tool params) →
            parseObject FS platform fields params w
            = (Throws (zodError FS platform params), w)) as Hparse.
  { intros A fields Hv.
    destruct (parseObject_cases fields params w) as [(fs & a & E & Ea & _)|[_ E]]; [|done].
    exfalso. apply Hinvalid, (Hv fs E). by rewrite Ea. }
  destruct tool; [|left..|done|left]; simpl;
    unfold read_file_execute, write_file_execute, create_dir_execute,
      list_files_execute, exec_execute, tryCatch, mbind, M_bind;
    rewrite Hparse by (by intros fs ->).
  - cbn [message zodError newError].
    destruct (includes (zodMessage platform params) (lit "outside workspace")) eqn:E1;
      [left; by eexists|].
    destruct (includes (zodMessage platform params) (lit "ENOENT")) eqn:E2;
      [|left; by eexists].
    unfold evaluating.
    destruct (stringOf platform (shownPath params)) as [e|text] eqn:E3.
    + right. split; [done|]. split; [done|]. split; [done|]. by exists e.
    + left. by eexists.
  - by eexists.
  - by eexists.
  - by eexists.
  - cbn [message timedOut zodError newError orb].
    repeat case_match; by eexists.
Qed.

Lemma collectStats_spec (safePath : jsstring) (files : list jsstring)
    (stats : StatsObject) (w : ToolWorld FS) :
  collectStats FS platform safePath files stats w
  = (Returns
       (foldl (fun o file =>
                 assignStat o file
                   match stat platform (fs w) (resolve (cwd platform) [safePath; file]) with
                   | inr st => st
                   | inl _ => (0, false)
                   end) stats files),
     {| fs := fs w;
        calls := calls w
                 ++ ((fun file => Stat (resolve (cwd platform) [safePath; file])) <$> files) |}).
Proof.
  revert stats w. induction files as [|file files IH]; intros stats w.
  - simpl. rewrite app_nil_r. by destruct w.
  - simpl. unfold mbind, M_bind, tryCatch, reading.
    destruct (stat platform (fs w) (resolve (cwd platform) [safePath; file])) as [e|st];
      unfold mret, M_ret; rewrite IH; simpl; by rewrite <- app_assoc.
Qed.

(** What the assignments [stats[file] = statOf file] leave in the object. *)
Lemma assigned_stats (statOf : jsstring → Z * bool) (files : list jsstring)
    (stats : StatsObject) (key : jsstring) :
  own (foldl (fun o file => assignStat o file (statOf file)) stats files) !! key
  = (if decide (key ∈ files ∧ key ≠ lit "__proto__") then Some (statOf key)
     else own stats !! key) ∧
  proto (foldl (fun o file => assignStat o file (statOf file)) stats files)
  = (if decide (lit "__proto__" ∈ files) then Some (statOf (lit "__proto__"))
     else proto stats).
Proof.
  revert stats. induction files as [|file files IH]; intros stats.
  - cbn [foldl]. rewrite decide_False by (intros [H _]; by apply elem_of_nil in H).
    by rewrite decide_False by (intros H; by apply elem_of_nil in H).
  - cbn [foldl]. destruct (IH (assignStat stats file (statOf file))) as [-> ->]. split.
    + destruct (decide (key ∈ files ∧ key ≠ lit "__proto__")) as [[Hin Hk]|Hno].
      * rewrite decide_True; [done|]. split; [apply elem_of_cons; by right|done].
      * unfold assignStat. destruct (decide (file = lit "__proto__")) as [->|Hfile];
          cbn [own proto].
        -- rewrite decide_False; [done|]. intros [Hin Hk].
           apply elem_of_cons in Hin as [->|Hin]; [done|]. by apply Hno.
        -- destruct (decide (key = file)) as [->|Hne].
           ++ rewrite lookup_insert_eq. rewrite decide_True; [done|].
              split; [apply elem_of_cons; by left|done].
           ++ rewrite lookup_insert_ne by done. rewrite decide_False; [done|].
              intros [Hin Hk]. apply elem_of_cons in Hin as [->|Hin]; [done|]. by apply Hno.
    + destruct (decide (lit "__proto__" ∈ files)) as [Hin|Hno].
      * rewrite decide_True; [done|]. apply elem_of_cons; by right.
      * unfold assignStat. destruct (decide (file = lit "__proto__")) as [->|Hfile];
          cbn [own proto].
        -- rewrite decide_True; [done|]. apply elem_of_cons; by left.
        -- rewrite decide_False; [done|]. intros Hin.
           apply elem_of_cons in Hin as [E|Hin]; [by symmetry in E|done].
Qed.

(** X11: A listing does not fail because of one entry: once the directory is
    reachable and the glob has answered, [list_files] succeeds with the
    files in the order of the glob and their number.  With [includeStats]
    it asks [stat] for each file in turn, and the object [stats] then has
    exactly one own property per reported file, holding the answer of
    [stat] or size 0 (not a directory) where [stat] failed; the one
    exception is a file named [__proto__], whose entry becomes the
    prototype of the object instead of a property.  The file system is only
    read. *)
Theorem list_files_lists (fields : list (jsstring * JsValue)) (p : ListParams)
    (context : ToolContext) (w : ToolWorld FS) (files : list jsstring) :
  let safePath := resolve (cwd platform) [list_path p] in
  let globPattern := if list_recursive p then lit "**/" ++ list_pattern p else list_pattern p in
  let statOf := fun file =>
    match stat platform (fs w) (resolve (cwd platform) [safePath; file]) with
    | inr st => st
    | inl _ => (0, false)
    end in
  list_files_parameters fields = Some p →
  admitted (cwd platform) (workspace context) (list_path p) →
  access platform (fs w) safePath = inr () →
  fastGlob platform (fs w) globPattern safePath = inr files →
  ∃ stats : option StatsObject,
    execute FS platform list_files (VObject fields) context w
    = (Returns (succeeded (ListData files stats (length files))),
       {| fs := fs w;
          calls := calls w
                   ++ Access safePath :: Glob globPattern safePath
                      :: (if list_includeStats p
                          then (fun file => Stat (resolve (cwd platform) [safePath; file]))
                                 <$> files
                          else []) |}) ∧
    if list_includeStats p then
      ∃ o : StatsObject,
        stats = Some o ∧
        (∀ key : jsstring,
           own o !! key
           = if decide (key ∈ files ∧ key ≠ lit "__proto__") then Some (statOf key)
             else None) ∧
        proto o = (if decide (lit "__proto__" ∈ files) then Some (statOf (lit "__proto__"))
                   else None)
    else stats = None.
Proof.
  intros safePath globPattern statOf Hparse Hin Haccess Hglob. simpl.
  unfold list_files_execute, tryCatch, mbind, M_bind.
  rewrite (parseObject_valid FS platform _ _ p w Hparse).
  destruct (resolveSafePath_cases (workspace context) (list_path p) w) as [[_ ->]|[Hout _]];
    [|done].
  fold safePath. unfold reading at 1. cbn [fs calls]. rewrite Haccess.
  unfold mret, M_ret. cbn [negb fs calls].
  fold globPattern. unfold reading at 1. cbn [fs calls]. rewrite Hglob.
  destruct (list_includeStats p).
  - rewrite collectStats_spec. cbn [fs calls]. fold statOf.
    eexists. split; [by rewrite <- !app_assoc|].
    eexists. split; [reflexivity|]. split.
    + intros key. pose proof (assigned_stats statOf files emptyStats key) as [H _].
      etrans; [exact H|]. by case_match.
    + pose proof (assigned_stats statOf files emptyStats []) as [_ H]. exact H.
  - exists None. split; [by rewrite <- !app_assoc|done].
Qed.


Lemma parsed_path (tool : ToolName) (fs0 : list (jsstring * JsValue)) :
  match tool with
  | read_file => ∀ p, read_file_parameters fs0 = Some p →
                      pathArgument (VObject fs0) = Some (read_path p)
  | write_file => ∀ p, write_file_parameters fs0 = Some p →
                       pathArgument (VObject fs0) = Some (write_path p)
  | create_dir => ∀ p, create_dir_parameters fs0 = Some p →
                       pathArgument (VObject fs0) = Some (create_path p)
  | list_files => ∀ p, list_files_parameters fs0 = Some p →
                       pathArgument (VObject fs0) = Some (list_path p)
  | delete_file => ∀ p, delete_file_parameters fs0 = Some p →
                        pathArgument (VObject fs0) = Some (delete_path p)
  | exec => True
  end.
Proof.
  destruct tool; [..|done]; intros p Hp; simpl;
    destruct (asString (field fs0 (lit "path"))) as [path|] eqn:E;
    try (pose proof (valid_path read_file fs0 path E p Hp) as <-; done);
    try (pose proof (valid_path write_file fs0 path E p Hp) as <-; done);
    try (pose proof (valid_path create_dir fs0 path E p Hp) as <-; done);
    try (pose proof (valid_path list_files fs0 path E p Hp) as <-; done);
    try (pose proof (valid_path delete_file fs0 path E p Hp) as <-; done);
    unfold read_file_parameters, write_file_parameters, create_dir_parameters,
      list_files_parameters, delete_file_parameters in Hp;
    rewrite E in Hp; discriminate Hp.
Qed.

Ltac trace_calls Hc :=
  cbn [snd fs calls] in Hc;
  rewrite <- ?app_assoc in Hc;
  first [rewrite callsSince_app in Hc | rewrite callsSince_refl in Hc];
  repeat (apply elem_of_cons in Hc as [->|Hc]);
  try (by apply elem_of_nil in Hc).

(** X13: Every call a file tool makes to the file system is accounted for
    by its [path] argument, which [resolveSafePath] has accepted as part of
    the workspace.  [read_file], [create_dir] and [delete_file] only make
    calls on the resolved path, and so does [write_file] apart from the
    [mkdir] on the parent of that path.  [list_files] makes its [access] on
    the resolved path; its two other kinds of call are not checked against
    the workspace: the glob, run in the resolved path with the pattern of
    the caller as it is (after [**/] when recursive), and a [stat] on each
    entry that this glob reported, resolved against the resolved path. *)
Theorem file_tool_calls_accounted_for (tool : ToolName) (params : JsValue)
    (context : ToolContext) (w : ToolWorld FS) (c : SystemCall) :
  tool ∈ fileTools →
  c ∈ callsSince w (execute FS platform tool params context w).2 →
  ∃ path : jsstring,
    pathArgument params = Some path ∧
    admitted (cwd platform) (workspace context) path ∧
    (callPath c = Some (resolve (cwd platform) [path]) ∨
     (tool = write_file ∧
      c = Mkdir (resolve (cwd platform) [resolve (cwd platform) [path]; lit ".."]) true) ∨
     (tool = list_files ∧
      ∃ (fields : list (jsstring * JsValue)) (p : ListParams),
        params = VObject fields ∧ list_files_parameters fields = Some p ∧
        (c = Glob (if list_recursive p then lit "**/" ++ list_pattern p else list_pattern p)
                  (resolve (cwd platform) [path]) ∨
         ∃ (files : list jsstring) (file : jsstring),
           fastGlob platform (fs w)
             (if list_recursive p then lit "**/" ++ list_pattern p else list_pattern p)
             (resolve (cwd platform) [path]) = inr files ∧
           file ∈ files ∧
           c = Stat (resolve (cwd platform) [resolve (cwd platform) [path]; file])))).
Proof.
  intros Htool Hc. pose proof (parsed_path tool) as Hpath.
  destruct tool; simpl in Hc;
    unfold read_file_execute, write_file_execute, create_dir_execute,
      list_files_execute, delete_file_execute, tryCatch, mbind, M_bind in Hc.
  - destruct (parseObject_cases read_file_parameters params w)
      as [(fs0 & p & -> & Hp & E)|[_ E]]; rewrite E in Hc; clear E.
    + exists (read_path p). split; [by apply Hpath|].
      destruct (resolveSafePath_cases (workspace context) (read_path p) w)
        as [[Hin E]|[Hout E]]; rewrite E in Hc; clear E.
      * split; [done|]. unfold reading, mret, M_ret, mbind, M_bind, evaluating in Hc.
        repeat case_match; simplify_eq; trace_calls Hc; by left.
      * exfalso. cbn [message newError] in Hc.
        unfold mret, M_ret, mbind, M_bind, evaluating in Hc.
        repeat case_match; simplify_eq; trace_calls Hc.
    + exfalso. cbn [message zodError newError] in Hc.
      unfold mret, M_ret, mbind, M_bind, evaluating in Hc.
      repeat case_match; simplify_eq; trace_calls Hc.
  - destruct (parseObject_cases write_file_parameters params w)
      as [(fs0 & p & -> & Hp & E)|[_ E]]; rewrite E in Hc; clear E.
    + exists (write_path p). split; [by apply Hpath|].
      destruct (resolveSafePath_cases (workspace context) (write_path p) w)
        as [[Hin E]|[Hout E]]; rewrite E in Hc; clear E.
      * split; [done|]. unfold writing, mret, M_ret in Hc.
        repeat case_match; simplify_eq; trace_calls Hc;
          first [by left | right; left; done].
      * exfalso. unfold mret, M_ret in Hc. trace_calls Hc.
    + exfalso. unfold mret, M_ret in Hc. trace_calls Hc.
  - destruct (parseObject_cases create_dir_parameters params w)
      as [(fs0 & p & -> & Hp & E)|[_ E]]; rewrite E in Hc; clear E.
    + exists (create_path p). split; [by apply Hpath|].
      destruct (resolveSafePath_cases (workspace context) (create_path p) w)
        as [[Hin E]|[Hout E]]; rewrite E in Hc; clear E.
      * split; [done|]. unfold writing, mret, M_ret in Hc.
        repeat case_match; simplify_eq; trace_calls Hc; by left.
      * exfalso. unfold mret, M_ret in Hc. trace_calls Hc.
    + exfalso. unfold mret, M_ret in Hc. trace_calls Hc.
  - destruct (parseObject_cases list_files_parameters params w)
      as [(fs0 & p & -> & Hp & E)|[_ E]]; rewrite E in Hc; clear E.
    + exists (list_path p). split; [by apply Hpath|].
      destruct (resolveSafePath_cases (workspace context) (list_path p) w)
        as [[Hin E]|[Hout E]]; rewrite E in Hc; clear E.
      * split; [done|]. unfold reading at 1, mret, M_ret in Hc. cbn [fs calls] in Hc.
        destruct (access platform (fs w) (resolve (cwd platform) [list_path p]));
          cbn [negb] in Hc; [trace_calls Hc; by left|].
        unfold reading in Hc. cbn [fs calls] in Hc.
        destruct (fastGlob platform (fs w)
                    (if list_recursive p then lit "**/" ++ list_pattern p else list_pattern p)
                    (resolve (cwd platform) [list_path p])) as [e|files] eqn:Hglob.
        { trace_calls Hc; [by left|].
          right; right. split; [done|]. exists fs0, p. split; [done|]. split; [done|].
          by left. }
        destruct (list_includeStats p); [rewrite collectStats_spec in Hc|];
          cbn [snd fs calls] in Hc; rewrite <- ?app_assoc in Hc;
          rewrite callsSince_app in Hc;
          (apply elem_of_cons in Hc as [->|Hc]; [by left|]);
          (apply elem_of_cons in Hc as [->|Hc];
           [right; right; split; [done|]; exists fs0, p;
            split; [done|]; split; [done|]; by left|]);
          [|by apply elem_of_nil in Hc].
        apply list_elem_of_fmap in Hc as (file & -> & Hfile).
        right; right. split; [done|]. exists fs0, p. split; [done|]. split; [done|].
        right. by exists files, file.
      * exfalso. unfold mret, M_ret in Hc. trace_calls Hc.
    + exfalso. unfold mret, M_ret in Hc. trace_calls Hc.
  - destruct (parseObject_cases delete_file_parameters params w)
      as [(fs0 & p & -> & Hp & E)|[_ E]]; rewrite E in Hc; clear E.
    + exists (delete_path p). split; [by apply Hpath|].
      destruct (resolveSafePath_cases (workspace context) (delete_path p) w)
        as [[Hin E]|[Hout E]]; rewrite E in Hc; clear E.
      * split; [done|]. unfold reading, writing, mret, M_ret in Hc.
        cbn [fs calls] in Hc.
        repeat case_match; simplify_eq; trace_calls Hc; by left.
      * exfalso. cbn [message newError] in Hc. unfold mret, M_ret in Hc.
        repeat case_match; simplify_eq; trace_calls Hc.
    + exfalso. trace_calls Hc.
  - exfalso. unfold fileTools in Htool.
    repeat (apply elem_of_cons in Htool as [Htool|Htool]; [discriminate Htool|]).
    by apply elem_of_nil in Htool.
Qed.

(** X14: [delete_file] removes only what it has looked at: an [rm] call is made
    only for the resolved [path] argument, after [access] and [stat] on it
    have succeeded; it is recursive exactly when the target is a directory
    or [recursive] was given; and without [recursive] a directory is
    removed only if [readdir] has reported it empty. *)
Theorem delete_file_rm_guarded (params : JsValue) (context : ToolContext)
    (w : ToolWorld FS) (path : jsstring) (rec : bool) :
  Rm path rec ∈ callsSince w (execute FS platform delete_file params context w).2 →
  ∃ (fields : list (jsstring * JsValue)) (p : DeleteParams) (size : Z) (isDirectory : bool),
    params = VObject fields ∧
    delete_file_parameters fields = Some p ∧
    path = resolve (cwd platform) [delete_path p] ∧
    admitted (cwd platform) (workspace context) (delete_path p) ∧
    access platform (fs w) path = inr () ∧
    stat platform (fs w) path = inr (size, isDirectory) ∧
    rec = isDirectory || delete_recursive p ∧
    (isDirectory = true → delete_recursive p = false →
     readdir platform (fs w) path = inr []).
Proof.
  intros Hc. simpl in Hc.
  unfold delete_file_execute, tryCatch, mbind, M_bind in Hc.
  destruct (parseObject_cases delete_file_parameters params w)
    as [(fs0 & p & -> & Hp & E)|[_ E]]; rewrite E in Hc; clear E;
    [|exfalso; trace_calls Hc].
  exists fs0, p.
  destruct (resolveSafePath_cases (workspace context) (delete_path p) w)
    as [[Hin E]|[Hout E]]; rewrite E in Hc; clear E.
  - unfold reading at 1, mret, M_ret in Hc. cbn [fs calls] in Hc.
    destruct (access platform (fs w) (resolve (cwd platform) [delete_path p]))
      as [e|[]] eqn:Haccess; cbn [negb] in Hc.
    { exfalso. unfold mret, M_ret in Hc. cbn [negb message] in Hc.
      repeat case_match; simplify_eq; cbn [snd fs calls] in Hc;
        rewrite <- ?app_assoc, callsSince_app in Hc;
        repeat (apply elem_of_cons in Hc as [Hc|Hc]; [discriminate Hc|]);
        by apply elem_of_nil in Hc. }
    unfold reading at 1 in Hc. cbn [fs calls] in Hc.
    destruct (stat platform (fs w) (resolve (cwd platform) [delete_path p]))
      as [e|[size isDirectory]] eqn:Hstat.
    { exfalso. cbn [message] in Hc. unfold mret, M_ret in Hc.
      repeat case_match; simplify_eq; cbn [snd fs calls] in Hc;
        rewrite <- ?app_assoc, callsSince_app in Hc;
        repeat (apply elem_of_cons in Hc as [Hc|Hc]; [discriminate Hc|]);
        by apply elem_of_nil in Hc. }
    exists size, isDirectory. cbn [snd] in Hc.
    unfold reading, writing in Hc. cbn [fs calls] in Hc.
    destruct isDirectory, (delete_recursive p) eqn:Hrec; cbn [andb negb orb] in Hc |- *.
    all: repeat case_match; simplify_eq; cbn [snd fs calls] in Hc;
      rewrite <- ?app_assoc, callsSince_app in Hc;
      repeat (apply elem_of_cons in Hc as [Hc|Hc]; [try discriminate Hc|]);
      try (by apply elem_of_nil in Hc).
    all: simplify_eq; repeat (split; [done|]); try done.
    all: intros _ _;
      match goal with
      | H : (0 <? Z.of_nat (length ?l)) = false |- _ =>
          destruct l; [done|simpl in H; discriminate H]
      end.
  - exfalso. cbn [message newError] in Hc. unfold mret, M_ret in Hc.
    repeat case_match; simplify_eq; trace_calls Hc.
Qed.

End ToolCalls.

(** ** REPL: dispatch, turns and the chat loop *)
Section REPLTurns.
Import Session REPL.

Variable clock : nat → Z.
Variable toLocaleTimeString : Z → jsstring.
Variable context : REPLContext.

Lemma withEffects_nil (w : World) : withEffects w [] = w.
Proof. unfold withEffects. rewrite app_nil_r. by destruct w. Qed.

Lemma withEffects_app (w : World) (es es' : list Effect) :
  withEffects (withEffects w es) es' = withEffects w (es ++ es').
Proof. unfold withEffects. simpl. by rewrite app_assoc. Qed.

Lemma emit_withEffects (e : Effect) (w : World) :
  emit e w = (Returns (), withEffects w [e]).
Proof. reflexivity. Qed.

Lemma forEach_output {A} (line : A → jsstring) (l : list A) (w : World) :
  forEach (fun x => output (line x)) l w
  = (Returns (), withEffects w ((fun x => Output (line x)) <$> l)).
Proof.
  revert w. induction l as [|x l IH]; intros w; simpl.
  - by rewrite withEffects_nil.
  - unfold mbind, M_bind, output. rewrite emit_withEffects, IH.
    by rewrite withEffects_app.
Qed.

Lemma streamChunks_returns (chunks : list jsstring) (acc : jsstring) (w : World) :
  streamChunks chunks None acc w
  = (Returns (acc ++ concat chunks), withEffects w (StdoutWrite <$> chunks)).
Proof.
  revert acc w. induction chunks as [|c chunks IH]; intros acc w; simpl.
  - by rewrite app_nil_r, withEffects_nil.
  - unfold mbind, M_bind. rewrite emit_withEffects, IH.
    by rewrite withEffects_app, <- app_assoc.
Qed.

Lemma runHandler_returns (handler : CommandHandler) (w : World) :
  ∃ w', runHandler toLocaleTimeString context handler w
        = (Returns (if handler is cmdExit then Some true else None), w').
Proof.
  destruct handler; simpl.
  - unfold runHelp, mbind, M_bind.
    rewrite (forEach_output (fun x => x)). by eexists.
  - unfold runClear, mbind, M_bind. destruct (clear (heap w) (session w)). by eexists.
  - by eexists.
  - by eexists.
  - unfold runTools, mbind, M_bind, output. rewrite emit_withEffects.
    rewrite (forEach_output (fun t : jsstring * jsstring => lit "  - " ++ t.1 ++ lit ": " ++ t.2)).
    by eexists.
  - unfold runHistory. destruct (getMessages (heap w) (session w)) as [h1 returned].
    destruct (decide _); [by eexists|].
    unfold mbind, M_bind, output. rewrite emit_withEffects.
    rewrite (forEach_output
               (fun msg : SessionMessage =>
                  lit "  [" ++ toLocaleTimeString (dateAt h1 (timestamp msg))
                  ++ lit "] " ++ roleLabel (role msg) ++ lit ": " ++ take 100 (content msg))).
    by eexists.
Qed.

Lemma processInput_returns (input : jsstring) (w : World) :
  ∃ w', processInput clock toLocaleTimeString context input w = (Returns (), w').
Proof.
  unfold processInput. destruct (decide (trim input = [])); [by eexists|].
  destruct (startsWith (trim input) (lit "/")).
  - unfold mbind, M_bind, handleCommand.
    destruct (commands !! commandNameOf (trim input)) as [handler|]; [|by eexists].
    unfold mbind, M_bind.
    destruct (runHandler_returns handler w) as (w' & ->). by eexists.
  - rewrite processUserMessage_steps.
    unfold sessionGetMessagesForAI, tryCatch, mbind, M_bind.
    match goal with |- context [if ?b then ?m1 else ?m2] =>
      destruct ((if b then m1 else m2) (beforeProviderCall clock (trim input) w))
        as [[response|e] w1] end; by eexists.
Qed.

Lemma solid_lower (t line : jsstring) :
  Forall (fun c => isWhiteSpace c = false) line →
  toLowerCase t = line →
  commandNameOf t = stripLeadingSlash line.
Proof.
  intros Hline Hlow.
  assert (Forall (fun c => isWhiteSpace c = false) t) as Ht.
  { subst line. unfold toLowerCase in Hline. apply Forall_fmap in Hline.
    eapply Forall_impl; [exact Hline|]. intros c Hc; simpl in Hc.
    by rewrite lowerUnit_whitespace in Hc. }
  unfold commandNameOf, firstPart, splitWhitespace.
  rewrite (trim_solid t Ht), (splitGo_solid t [] Ht). simpl.
  by rewrite Hlow.
Qed.

Lemma exitLine_command (line : jsstring) :
  exitLine line →
  startsWith (trim line) (lit "/") = true ∧
  commands !! commandNameOf (trim line) = Some cmdExit.
Proof.
  intros [E|E]; (split; [by apply toLowerCase_slash in E|]).
  - rewrite (solid_lower (trim line) (lit "/exit")); [reflexivity| |exact E].
    vm_compute; repeat constructor.
  - rewrite (solid_lower (trim line) (lit "/quit")); [reflexivity| |exact E].
    vm_compute; repeat constructor.
Qed.

Lemma chatLoopIteration_returns (line : jsstring) (w w' : World) :
  processInput clock toLocaleTimeString context line w = (Returns (), w') →
  chatLoopIteration clock toLocaleTimeString context (Some line) w
  = (negb (bool_decide (exitLine line)), w').
Proof.
  intros E. unfold chatLoopIteration. rewrite E. fold (exitLine line).
  destruct (decide (exitLine line)) as [H|H].
  - by rewrite bool_decide_eq_true_2.
  - by rewrite bool_decide_eq_false_2.
Qed.

(** X15: Nothing [processInput] does throws, whatever the line and whatever the
    provider does, so the chat loop takes its normal path for every line; it
    stops after a line exactly when the line, trimmed and lower-cased, is
    [/exit] or [/quit]. *)
Theorem chat_loop_stops_on_exit_line (line : jsstring) (w : World) :
  ∃ w' : World,
    processInput clock toLocaleTimeString context line w = (Returns (), w') ∧
    chatLoopIteration clock toLocaleTimeString context (Some line) w
    = (negb (bool_decide (exitLine line)), w').
Proof.
  destruct (processInput_returns line w) as (w' & E).
  exists w'. split; [exact E|]. by apply chatLoopIteration_returns.
Qed.

Lemma handleCommand_exit (input : jsstring) (w : World) :
  commands !! commandNameOf input = Some cmdExit →
  handleCommand toLocaleTimeString context input w
  = (Returns true, withEffects w [Output (lit "Goodbye!")]).
Proof. intros E. unfold handleCommand. by rewrite E. Qed.

Lemma processInput_command (line : jsstring) (w w' : World) (b : bool) :
  startsWith (trim line) (lit "/") = true →
  handleCommand toLocaleTimeString context (trim line) w = (Returns b, w') →
  processInput clock toLocaleTimeString context line w = (Returns (), w').
Proof.
  intros Hslash Hcmd. unfold processInput.
  destruct (decide (trim line = [])) as [E|_]; [by rewrite E in Hslash|].
  rewrite Hslash. unfold mbind, M_bind. by rewrite Hcmd.
Qed.

(** X16: The exit command signals the end only to [processInput], which drops
    the signal: for every line whose command is [exit] or [quit],
    [handleCommand] says [Goodbye!] and returns [true], yet the chat loop
    goes on unless the whole line is the bare command; [/exit now] prints
    [Goodbye!] and the session continues. *)
Theorem exit_command_with_arguments (line : jsstring) (w : World) :
  startsWith (trim line) (lit "/") = true →
  commands !! commandNameOf (trim line) = Some cmdExit →
  handleCommand toLocaleTimeString context (trim line) w
  = (Returns true, withEffects w [Output (lit "Goodbye!")]) ∧
  chatLoopIteration clock toLocaleTimeString context (Some line) w
  = (negb (bool_decide (exitLine line)), withEffects w [Output (lit "Goodbye!")]).
Proof.
  intros Hslash Hexit.
  pose proof (handleCommand_exit (trim line) w Hexit) as Hcmd.
  split; [exact Hcmd|].
  apply chatLoopIteration_returns. by eapply processInput_command.
Qed.

Lemma trimStart_blank (s : jsstring) :
  Forall (fun c => isWhiteSpace c = true) s → trimStart s = [].
Proof. induction 1 as [|c s Hc _ IH]; [done|]. simpl. by rewrite Hc. Qed.

(** X17: A line of white space only is ignored: the session, the output and
    the clock are untouched and the chat loop goes on. *)
Theorem blank_line_ignored (line : jsstring) (w : World) :
  Forall (fun c => isWhiteSpace c = true) line →
  processInput clock toLocaleTimeString context line w = (Returns (), w) ∧
  chatLoopIteration clock toLocaleTimeString context (Some line) w = (true, w).
Proof.
  intros Hblank.
  assert (trim line = []) as Htrim.
  { unfold trim, trimEnd. by rewrite (trimStart_blank line Hblank). }
  assert (processInput clock toLocaleTimeString context line w = (Returns (), w)) as Hrun.
  { unfold processInput. by rewrite Htrim. }
  split; [exact Hrun|]. rewrite (chatLoopIteration_returns _ _ _ Hrun).
  rewrite bool_decide_eq_false_2; [done|].
  unfold exitLine. rewrite Htrim. intros [E|E]; discriminate E.
Qed.

(** X18: The clear command, in any letter case and with or without arguments,
    leaves an empty log under the same ceiling, says [Session cleared] and
    nothing else, and the chat loop goes on. *)
Theorem clear_command_empties_log (line : jsstring) (w : World) :
  startsWith (trim line) (lit "/") = true →
  commands !! commandNameOf (trim line) = Some cmdClear →
  ∃ w' : World,
    chatLoopIteration clock toLocaleTimeString context (Some line) w = (true, w') ∧
    log (heap w') (session w') = [] ∧
    getMessageCount (heap w') (session w') = 0%nat ∧
    getMaxTokens (session w') = getMaxTokens (session w) ∧
    effects w' = effects w ++ [Output (lit "Session cleared")].
Proof.
  intros Hslash Hclear.
  assert (handleCommand toLocaleTimeString context (trim line) w
          = (Returns false,
             withEffects {| heap := (clear (heap w) (session w)).1;
                            session := (clear (heap w) (session w)).2;
                            effects := effects w; dateReads := dateReads w |}
                         [Output (lit "Session cleared")])) as Hcmd.
  { unfold handleCommand. rewrite Hclear. reflexivity. }
  eexists. split; [|split; [|split; [|split]]].
  - rewrite (chatLoopIteration_returns _ _ _ (processInput_command _ _ _ _ Hslash Hcmd)).
    rewrite bool_decide_eq_false_2; [reflexivity|].
    intros Hexit. apply exitLine_command in Hexit as [_ Hexit]. congruence.
  - cbn [withEffects heap session]. unfold clear, allocArray, log, arrayAt; simpl.
    by rewrite list_lookup_middle.
  - cbn [withEffects heap session].
    unfold clear, allocArray, getMessageCount, arrayAt; simpl.
    by rewrite list_lookup_middle.
  - done.
  - done.
Qed.

Lemma beforeProviderCall_room (content : jsstring) (w : World) :
  wf (heap w) (session w) →
  getEstimatedTokenCount (heap w) (session w) + estimateTokens content + 10
  ≤ maxTokens (session w) →
  beforeProviderCall clock content w
  = {| heap := addMessage (heap w) (session w) user content (clock (dateReads w));
       session := session w; effects := effects w; dateReads := S (dateReads w) |}.
Proof.
  intros Hwf Hroom.
  destruct (addMessage_facts (heap w) (session w) user content (clock (dateReads w)) Hwf)
    as (_ & Htokens & _).
  unfold beforeProviderCall, mbind, M_bind, sessionAddMessage, ensureTokenLimit.
  cbn [heap session effects dateReads]. unfold trimToTokenLimit.
  rewrite Htokens. apply Z.leb_le in Hroom. by rewrite Hroom.
Qed.

(** X19: A turn without streaming, with room under the ceiling: the provider is
    called with the history followed by the trimmed line as the user's
    message, its reply goes to the output handler once, and the history
    then ends with the user's message and the reply. *)
Theorem turn_stores_reply (input : jsstring) (w : World) (response : jsstring) :
  wf (heap w) (session w) →
  getEstimatedTokenCount (heap w) (session w) + estimateTokens (trim input) + 10
  ≤ maxTokens (session w) →
  trim input ≠ [] →
  startsWith (trim input) (lit "/") = false →
  ui_streamOutput (config context) = false →
  chat (aiProvider context)
       (getMessagesForAI (heap w) (session w) ++ [(user, trim input)]) = Returns response →
  ∃ w' : World,
    processInput clock toLocaleTimeString context input w = (Returns (), w') ∧
    getMessagesForAI (heap w') (session w')
    = getMessagesForAI (heap w) (session w) ++ [(user, trim input); (assistant, response)] ∧
    effects w' = effects w ++ [Output response] ∧
    session w' = session w.
Proof.
  intros Hwf Hroom Hne Hmsg Hmode Hchat.
  pose proof (addMessage_facts (heap w) (session w) user (trim input)
                (clock (dateReads w)) Hwf) as (_ & _ & Hai & _).
  pose proof (wf_addMessage (heap w) (session w) user (trim input)
                (clock (dateReads w)) Hwf) as Hwf1.
  unfold processInput. destruct (decide (trim input = [])) as [|_]; [done|].
  rewrite Hmsg, processUserMessage_steps, (beforeProviderCall_room _ _ Hwf Hroom).
  unfold sessionGetMessagesForAI, tryCatch, mbind, M_bind. cbn [heap session].
  rewrite Hmode. unfold awaitChat, mbind, M_bind. rewrite Hai, Hchat.
  eexists. split; [reflexivity|]. cbn [heap session effects dateReads].
  split; [|done].
  destruct (addMessage_facts _ (session w) assistant response
              (clock (S (dateReads w))) Hwf1) as (_ & _ & -> & _).
  by rewrite Hai, <- app_assoc.
Qed.

(** X20: A streamed turn, with room under the ceiling: the chunks are written
    to standard output in the order they arrive, followed by a line feed;
    nothing goes through the output handler; and the reply stored in the
    history is the chunks put together. *)
Theorem streamed_turn_stores_chunks (input : jsstring) (w : World) (chunks : list jsstring) :
  wf (heap w) (session w) →
  getEstimatedTokenCount (heap w) (session w) + estimateTokens (trim input) + 10
  ≤ maxTokens (session w) →
  trim input ≠ [] →
  startsWith (trim input) (lit "/") = false →
  ui_streamOutput (config context) = true →
  chatStream (aiProvider context)
             (getMessagesForAI (heap w) (session w) ++ [(user, trim input)])
  = (chunks, None) →
  ∃ w' : World,
    processInput clock toLocaleTimeString context input w = (Returns (), w') ∧
    getMessagesForAI (heap w') (session w')
    = getMessagesForAI (heap w) (session w)
      ++ [(user, trim input); (assistant, concat chunks)] ∧
    effects w' = effects w ++ (StdoutWrite <$> chunks) ++ [StdoutWrite [10%N]] ∧
    outputs w' = outputs w ∧
    session w' = session w.
Proof.
  intros Hwf Hroom Hne Hmsg Hmode Hstream.
  pose proof (addMessage_facts (heap w) (session w) user (trim input)
                (clock (dateReads w)) Hwf) as (_ & _ & Hai & _).
  pose proof (wf_addMessage (heap w) (session w) user (trim input)
                (clock (dateReads w)) Hwf) as Hwf1.
  unfold processInput. destruct (decide (trim input = [])) as [|_]; [done|].
  rewrite Hmsg, processUserMessage_steps, (beforeProviderCall_room _ _ Hwf Hroom).
  unfold sessionGetMessagesForAI, tryCatch, mbind, M_bind. cbn [heap session].
  rewrite Hmode. unfold streamResponse. rewrite Hai, Hstream.
  unfold mbind, M_bind. rewrite streamChunks_returns, emit_withEffects.
  eexists. split; [reflexivity|]. cbn [heap session effects dateReads withEffects].
  split; [|split; [by rewrite <- app_assoc|split; [|done]]].
  - match goal with |- context [addMessage ?h ?t assistant ?c ?now] =>
      destruct (addMessage_facts h t assistant c now Hwf1) as (_ & _ & -> & _) end.
    by rewrite Hai, <- app_assoc.
  - unfold outputs. cbn [effects]. rewrite !omap_app, omap_StdoutWrite. simpl.
    by rewrite !app_nil_r.
Qed.

(** X21: The history command shows the log without changing it: one line per
    message, oldest first, after a heading with their number, each with the
    time of the message, its role in capitals padded to 10 and at most the
    first 100 code units of its content; for an empty log it says [No
    conversation history]. *)
Theorem history_command_lists_log (line : jsstring) (w : World) :
  wf (heap w) (session w) →
  startsWith (trim line) (lit "/") = true →
  commands !! commandNameOf (trim line) = Some cmdHistory →
  ∃ w' : World,
    processInput clock toLocaleTimeString context line w = (Returns (), w') ∧
    log (heap w') (session w') = log (heap w) (session w) ∧
    logTimes (heap w') (session w') = logTimes (heap w) (session w) ∧
    effects w'
    = effects w
      ++ (if decide (log (heap w) (session w) = [])
          then [Output (lit "No conversation history")]
          else Output (lit "Conversation History ("
                       ++ decimal (length (log (heap w) (session w))) ++ lit " messages):")
               :: ((fun msg : SessionMessage =>
                      Output (lit "  [" ++ toLocaleTimeString (dateAt (heap w) (timestamp msg))
                              ++ lit "] " ++ roleLabel (role msg) ++ lit ": "
                              ++ take 100 (content msg)))
                   <$> log (heap w) (session w))).
Proof.
  intros Hwf Hslash Hhistory.
  destruct (getMessages_log (heap w) (session w) Hwf) as (Hlog & Htimes & _).
  destruct (getMessages_copies (heap w) (session w) Hwf) as (Hcopy & _ & _).
  assert (dates (getMessages (heap w) (session w)).1 = dates (heap w)) as Hdates.
  { destruct Hwf as (_ & Hobjs & _).
    destruct (getMessages_shape (heap w) (session w) Hobjs) as (h' & -> & Hd & _).
    exact Hd. }
  destruct (getMessages (heap w) (session w)) as [h1 returned] eqn:Eget.
  cbn [fst snd] in *.
  assert (∃ w', handleCommand toLocaleTimeString context (trim line) w = (Returns false, w') ∧
                heap w' = h1 ∧ session w' = session w ∧
                effects w'
                = effects w
                  ++ (if decide (log (heap w) (session w) = [])
                      then [Output (lit "No conversation history")]
                      else Output (lit "Conversation History ("
                                   ++ decimal (length (log (heap w) (session w)))
                                   ++ lit " messages):")
                           :: ((fun msg : SessionMessage =>
                                  Output (lit "  ["
                                          ++ toLocaleTimeString (dateAt (heap w) (timestamp msg))
                                          ++ lit "] " ++ roleLabel (role msg) ++ lit ": "
                                          ++ take 100 (content msg)))
                               <$> log (heap w) (session w))))
    as (w' & Hcmd & Hheap & Hsess & Heff).
  { unfold handleCommand. rewrite Hhistory. unfold mbind, M_bind. simpl runHandler.
    unfold runHistory. rewrite Eget, Hcopy.
    destruct (decide (length (log (heap w) (session w)) = 0%nat)) as [E|E].
    - apply nil_length_inv in E. rewrite decide_True by done.
      eexists. split; [reflexivity|]. done.
    - rewrite decide_False by (intros E'; by rewrite E' in E).
      unfold mbind, M_bind, output. rewrite emit_withEffects.
      rewrite (forEach_output
                 (fun msg : SessionMessage =>
                    lit "  [" ++ toLocaleTimeString (dateAt h1 (timestamp msg))
                    ++ lit "] " ++ roleLabel (role msg) ++ lit ": "
                    ++ take 100 (content msg))).
      eexists. split; [reflexivity|]. cbn [withEffects heap session effects].
      split; [done|]. split; [done|]. rewrite <- app_assoc. simpl.
      unfold dateAt. by rewrite Hdates. }
  exists w'. split; [by eapply processInput_command|].
  rewrite Hheap, Hsess. done.
Qed.

End REPLTurns.

Section REPLTools.
Import Session REPL Registry.

(** X22: With the tool map the chat command builds from the array of all
    tools, the tools command lists the tools under their positions in that
    array, [0], [1] and so on, and not under their names: after the heading
    with the number of tools, line [i] reads the index [i] and the
    description of the tool at that position.  For the registry of the six
    built-in tools the keys are [0] to [5]. *)
Theorem tools_command_lists_indices (allTools : list Tools.ToolName)
    (cfg : Config) (provider : AIProvider) (w : World) :
  runTools {| config := cfg; aiProvider := provider; tools := chatTools allTools |} w
  = (Returns None,
     withEffects w
       (Output (lit "Available Tools (" ++ decimal (length allTools) ++ lit "):")
        :: imap (fun i t => Output (lit "  - " ++ decimal i ++ lit ": " ++ toolDescription t))
                allTools)) ∧
  getAllTools = [Tools.read_file; Tools.write_file; Tools.create_dir;
                 Tools.list_files; Tools.delete_file; Tools.exec] ∧
  (chatTools getAllTools).*1 = [lit "0"; lit "1"; lit "2"; lit "3"; lit "4"; lit "5"].
Proof.
  split; [|split; reflexivity].
  unfold runTools, mbind, M_bind, output. cbn [tools]. rewrite emit_withEffects.
  rewrite (forEach_output (fun t : jsstring * jsstring => lit "  - " ++ t.1 ++ lit ": " ++ t.2)).
  rewrite withEffects_app. unfold mret, M_ret. f_equal. f_equal.
  unfold chatTools, arrayEntries.
  rewrite length_fmap, length_imap. simpl. f_equal. f_equal.
  rewrite <- list_fmap_compose, fmap_imap. by apply imap_ext.
Qed.

End REPLTools.

(** ** Raw input handler: editing and submitting a line *)
Section RawInputEditing.
Import RawInput.

Context {engine : Engine}.

Lemma slice_prefix (s : jsstring) (k : Z) :
  0 ≤ k ≤ Z.of_nat (length s) → slice s 0 k = take (Z.to_nat k) s.
Proof.
  intros Hk. unfold slice, sliceIndex.
  destruct (Z.ltb_spec k 0); [lia|]. simpl.
  rewrite Z.min_l by lia. rewrite Z.min_l by lia. simpl.
  by rewrite Nat.sub_0_r.
Qed.

Lemma sliceFrom_suffix (s : jsstring) (k : Z) :
  0 ≤ k ≤ Z.of_nat (length s) → sliceFrom s k = drop (Z.to_nat k) s.
Proof.
  intros Hk. unfold sliceFrom, sliceIndex.
  destruct (Z.ltb_spec k 0); [lia|]. by rewrite Z.min_l by lia.
Qed.

Lemma updateMenuState_state (h : Handler) :
  buffer (state (updateMenuState h)) = buffer (state h) ∧
  cursor (state (updateMenuState h)) = cursor (state h) ∧
  commands (updateMenuState h) = commands h.
Proof.
  unfold updateMenuState. destruct (getCommandQuery h); [|done].
  unfold filterCommands. by case_match.
Qed.

Lemma handleChar_state (c : N) (h : Handler) :
  cursorInBuffer h →
  buffer (state (handleChar [c] h))
  = take (Z.to_nat (cursor (state h))) (buffer (state h))
    ++ c :: drop (Z.to_nat (cursor (state h))) (buffer (state h)) ∧
  cursor (state (handleChar [c] h)) = cursor (state h) + 1.
Proof.
  intros Hc. unfold handleChar.
  destruct (updateMenuState_state
              (setState {| buffer := slice (buffer (state h)) 0 (cursor (state h)) ++ [c]
                                     ++ sliceFrom (buffer (state h)) (cursor (state h));
                           cursor := cursor (state h) + 1;
                           showMenu := showMenu (state h);
                           selectedIndex := selectedIndex (state h) |} h))
    as (-> & -> & _).
  simpl. by rewrite slice_prefix, sliceFrom_suffix.
Qed.

Lemma handleBackspace_state (h : Handler) :
  cursorInBuffer h → 0 < cursor (state h) →
  buffer (state (handleBackspace h))
  = take (Z.to_nat (cursor (state h) - 1)) (buffer (state h))
    ++ drop (Z.to_nat (cursor (state h))) (buffer (state h)) ∧
  cursor (state (handleBackspace h)) = cursor (state h) - 1.
Proof.
  intros Hc Hpos. unfold handleBackspace.
  apply Z.ltb_lt in Hpos as Hpos'. rewrite Hpos'.
  destruct (updateMenuState_state
              (setState {| buffer := slice (buffer (state h)) 0 (cursor (state h) - 1)
                                     ++ sliceFrom (buffer (state h)) (cursor (state h));
                           cursor := cursor (state h) - 1;
                           showMenu := showMenu (state h);
                           selectedIndex := selectedIndex (state h) |} h))
    as (-> & -> & _).
  unfold cursorInBuffer in Hc.
  simpl. by rewrite slice_prefix, sliceFrom_suffix by lia.
Qed.

Lemma step_cursorInBuffer (h : Handler) (ev : Event) :
  cursorInBuffer h → cursorInBuffer (step h ev).
Proof.
  intros Hc. pose proof Hc as Hc'. unfold cursorInBuffer in Hc'.
  destruct ev as [data|]; simpl.
  - unfold handleData. destruct (negb (active h)); [done|].
    repeat case_match; try done.
    + unfold handleSubmit. repeat case_match; try done;
        unfold resolveIfSet; by case_match.
    + unfold handleCancel, resolveIfSet; by case_match.
    + unfold handleCancel, resolveIfSet; by case_match.
    + unfold handleBackspace. destruct (Z.ltb_spec 0 (cursor (state h))); [|done].
      destruct (handleBackspace_state h Hc) as (Eb & Ecur); [done|].
      unfold handleBackspace in Eb, Ecur.
      destruct (Z.ltb_spec 0 (cursor (state h))); [|lia].
      unfold cursorInBuffer. rewrite Eb, Ecur.
      rewrite length_app, length_take, length_drop. lia.
    + unfold handleArrowUp. by case_match.
    + unfold handleArrowDown. by case_match.
    + unfold handleArrowRight. destruct (Z.ltb_spec (cursor (state h))
                                          (Z.of_nat (length (buffer (state h))))); [|done].
      unfold cursorInBuffer.
      destruct (updateMenuState_state
                  (setState {| buffer := buffer (state h); cursor := cursor (state h) + 1;
                               showMenu := showMenu (state h);
                               selectedIndex := selectedIndex (state h) |} h))
        as (-> & -> & _). simpl. lia.
    + unfold handleArrowLeft. destruct (Z.ltb_spec 0 (cursor (state h))); [|done].
      unfold cursorInBuffer.
      destruct (updateMenuState_state
                  (setState {| buffer := buffer (state h); cursor := cursor (state h) - 1;
                               showMenu := showMenu (state h);
                               selectedIndex := selectedIndex (state h) |} h))
        as (-> & -> & _). simpl. lia.
    + match goal with |- cursorInBuffer (handleChar [?c] h) =>
        destruct (handleChar_state c h Hc) as (Eb & Ecur) end.
      unfold cursorInBuffer. rewrite Eb, Ecur.
      rewrite length_app, length_take. simpl. rewrite length_drop. lia.
  - unfold stop. simpl. by case_match.
Qed.

Lemma run_cursorInBuffer (h : Handler) (events : list Event) :
  cursorInBuffer (run (readLine h) events).
Proof.
  assert (∀ g, cursorInBuffer g → cursorInBuffer (run g events)) as Hrun.
  { induction events as [|ev events IH]; intros g Hg; [done|].
    simpl. apply IH. by apply step_cursorInBuffer. }
  apply (Hrun (readLine h)). unfold cursorInBuffer. simpl. lia.
Qed.

(** X23: Whatever keys arrive after [readLine], the cursor stays a position of
    the buffer, between 0 and its length. *)
Theorem cursor_stays_in_buffer (h : Handler) (events : list Event) :
  0 ≤ cursor (state (run (readLine h) events))
  ≤ Z.of_nat (length (buffer (state (run (readLine h) events)))).
Proof. apply run_cursorInBuffer. Qed.

Lemma handleData_printable (c : N) (h : Handler) :
  printable c → active h = true → handleData [c] h = handleChar [c] h.
Proof.
  intros [Hc Hdel] Ha. unfold handleData. rewrite Ha. simpl.
  assert (c ≠ 13%N ∧ c ≠ 10%N ∧ c ≠ 3%N ∧ c ≠ 4%N ∧ c ≠ 8%N) as (?&?&?&?&?) by lia.
  rewrite decide_False by (intros [[=]|[=]]; done).
  rewrite decide_False by (intros [=]; done).
  rewrite decide_False by (intros [=]; done).
  rewrite decide_False by (intros [[=]|[=]]; done).
  repeat (rewrite decide_False by done).
  apply N.leb_le in Hc. by rewrite Hc.
Qed.

Lemma run_snoc (h : Handler) (events : list Event) (ev : Event) :
  run h (events ++ [ev]) = step (run h events) ev.
Proof. unfold run. by rewrite foldl_app. Qed.

(** The handler after [text] has been typed at the start of a read:
    everything but the menu is fixed by the text, and the menu is what
    [updateMenuState] made of the last insertion. *)
Lemma typing_state (h : Handler) (text : jsstring) :
  Forall printable text →
  let g := run (readLine h) (typing text) in
  buffer (state g) = text ∧
  cursor (state g) = Z.of_nat (length text) ∧
  active g = true ∧ resolveInput g = true ∧ settled g = None ∧
  commands g = commands h ∧ uncaught g = uncaught h ∧
  (text ≠ [] →
   ∃ prev : Handler,
     commands prev = commands h ∧
     g = updateMenuState
           (setState {| buffer := text; cursor := Z.of_nat (length text);
                        showMenu := showMenu (state prev);
                        selectedIndex := selectedIndex (state prev) |} prev)).
Proof.
  induction text as [|c text IH] using rev_ind; intros Hp g.
  - repeat split; done.
  - apply Forall_app in Hp as [Hp Hc]. apply Forall_cons in Hc as [Hc _].
    destruct (IH Hp) as (Eb & Ecur & Ea & Er & Es & Ecmd & Eu & _).
    subst g. unfold typing. rewrite fmap_app. simpl. rewrite run_snoc. simpl.
    fold (typing text). set (prev := run (readLine h) (typing text)) in *.
    rewrite (handleData_printable c prev Hc Ea).
    destruct (editing_samePromise prev [c]) as ((Hs & Hact & Hres & Hu) & _).
    assert (cursorInBuffer prev) as Hcur by (unfold cursorInBuffer; rewrite Eb, Ecur; lia).
    destruct (handleChar_state c prev Hcur) as (Hb' & Hc').
    assert (take (Z.to_nat (cursor (state prev))) (buffer (state prev))
            ++ c :: drop (Z.to_nat (cursor (state prev))) (buffer (state prev))
            = text ++ [c]) as Hnew.
    { rewrite Ecur, Eb, Nat2Z.id, take_ge, drop_ge by lia. done. }
    split; [by rewrite Hb', Hnew|].
    split; [rewrite Hc', Ecur, length_app; simpl; lia|].
    split; [by rewrite Hact|]. split; [by rewrite Hres|]. split; [by rewrite Hs|].
    split.
    { unfold handleChar.
      match goal with |- commands (updateMenuState ?x) = _ =>
        destruct (updateMenuState_state x) as (_ & _ & ->) end. done. }
    split; [by rewrite Hu|].
    intros _. exists prev. split; [done|].
    unfold handleChar. f_equal. f_equal. f_equal.
    + rewrite slice_prefix, sliceFrom_suffix by done. exact Hnew.
    + rewrite Ecur, length_app. simpl. lia.
Qed.

Lemma searchNonSpace_spec (s : jsstring) :
  (searchNonSpace s = -1 ∧ trimStart s = []) ∨
  (0 ≤ searchNonSpace s ∧
   ∃ c rest, trimStart s = c :: rest ∧ charAt s (searchNonSpace s) = Some c).
Proof.
  induction s as [|c s IH]; [by left|]. simpl.
  destruct (isWhiteSpace c) eqn:Ec.
  - destruct IH as [[-> ->]|(Hpos & d & rest & -> & Hd)]; [by left|].
    right. destruct (Z.ltb_spec (searchNonSpace s) 0); [lia|].
    split; [lia|]. exists d, rest. split; [done|].
    unfold charAt in *. destruct (Z.ltb_spec (searchNonSpace s) 0); [lia|].
    destruct (Z.ltb_spec (1 + searchNonSpace s) 0); [lia|].
    replace (Z.to_nat (1 + searchNonSpace s)) with (S (Z.to_nat (searchNonSpace s))) by lia.
    done.
  - right. split; [lia|]. by exists c, s.
Qed.

(** X24: A line that does not begin, after leading white space, with a slash
    comes back as typed: typing printable text and pressing Enter resolves
    the read with exactly that text, leading and trailing white space
    included, and the handler is no longer active. *)
Theorem typed_line_returned (h : Handler) (text : jsstring) :
  Forall printable text →
  text ≠ [] →
  startsWith (trimStart text) (lit "/") = false →
  settled (run (readLine h) (typing text ++ [Data [13%N]])) = Some (Some text) ∧
  active (run (readLine h) (typing text ++ [Data [13%N]])) = false.
Proof.
  intros Hp Hne Hplain. rewrite run_snoc.
  destruct (typing_state h text Hp) as (Eb & Ecur & Ea & Er & Es & _ & _ & Hmenu).
  destruct (Hmenu Hne) as (prev & _ & Eg).
  set (g := run (readLine h) (typing text)) in *.
  assert (showMenu (state g) = false) as Hshow.
  { rewrite Eg. unfold updateMenuState.
    assert (getCommandQuery
              (setState {| buffer := text; cursor := Z.of_nat (length text);
                           showMenu := showMenu (state prev);
                           selectedIndex := selectedIndex (state prev) |} prev) = None) as ->;
      [|done].
    unfold getCommandQuery. cbn [state setState buffer].
    destruct (searchNonSpace_spec text) as [[-> _]|(Hpos & c & rest & Et & ->)]; [done|].
    rewrite decide_False by lia.
    rewrite Et in Hplain. simpl in Hplain.
    destruct (decide (47%N = c)) as [<-|Hc]; [by destruct rest|].
    rewrite bool_decide_eq_false_2 by congruence. done. }
  simpl. unfold handleData. rewrite Ea. simpl.
  unfold handleSubmit. rewrite Hshow. simpl.
  unfold resolveIfSet, finalizeInput, cleanup. simpl. rewrite Er.
  unfold resolve. simpl. rewrite Es, Eb. split; [|done].
  by destruct text.
Qed.

Lemma getCommandQuery_slash (g : Handler) (q : jsstring) :
  buffer (state g) = 47%N :: q →
  cursor (state g) = Z.of_nat (S (length q)) →
  Forall (fun c => isWhiteSpace c = false) q →
  getCommandQuery g = Some q.
Proof.
  intros Eb Ecur Hq. unfold getCommandQuery. rewrite Eb, Ecur.
  change (searchNonSpace (47%N :: q)) with 0.
  rewrite decide_False by done.
  change (charAt (47%N :: q) 0) with (Some 47%N).
  rewrite bool_decide_eq_true_2 by done. cbn [negb].
  change (indexOfFrom 47%N (47%N :: q) 0) with 0.
  destruct (Z.leb_spec (Z.of_nat (S (length q))) 0); [lia|].
  assert (slice (47%N :: q) (0 + 1) (Z.of_nat (S (length q))) = q) as ->.
  { unfold slice, sliceIndex. simpl length.
    destruct (Z.ltb_spec (0 + 1) 0); [lia|].
    destruct (Z.ltb_spec (Z.of_nat (S (length q))) 0); [lia|].
    rewrite Z.min_r by lia.
    replace (Z.to_nat (Z.min (0 + 1) (Z.of_nat (S (length q))))) with 1%nat by lia.
    rewrite Nat2Z.id. simpl. rewrite Nat.sub_0_r. by rewrite take_ge. }
  assert (∀ l, Forall (fun c => isWhiteSpace c = false) l →
               existsb isWhiteSpace l = false) as Hnone.
  { induction 1 as [|c l Hc _ IH]; [done|]. simpl. by rewrite Hc. }
  by rewrite (Hnone q Hq).
Qed.

(** X25: A slash and the beginning of a command name, then Enter: the read
    resolves with the slash and the full name of the first registered
    command whose name, lower-cased by the engine's [toLowerCase], begins
    with what was typed, lower-cased the same way, so [/h] gives [/help]
    where [help] is registered before [history]; when no registered
    command matches, it resolves with the text as typed. *)
Theorem slash_prefix_completes (h : Handler) (q : jsstring) :
  Forall printable q →
  Forall (fun c => isWhiteSpace c = false) q →
  settled (run (readLine h) (typing (lit "/" ++ q) ++ [Data [13%N]]))
  = Some (Some match head (filter (fun cmd => prefixMatchIgnoringCase (name cmd) q = true)
                                  (commands h)) with
               | Some cmd => lit "/" ++ name cmd
               | None => lit "/" ++ q
               end).
Proof.
  intros Hp Hq. change (lit "/") with [47%N]. rewrite run_snoc.
  assert (Forall printable ([47%N] ++ q)) as Hp'.
  { apply Forall_app. split; [|done]. constructor; [|done]. split; [lia|done]. }
  destruct (typing_state h ([47%N] ++ q) Hp') as (Eb & Ecur & Ea & Er & Es & _ & _ & Hmenu).
  destruct (Hmenu ltac:(done)) as (prev & Ecmd & Eg).
  set (g := run (readLine h) (typing ([47%N] ++ q))) in *.
  set (typed := setState {| buffer := [47%N] ++ q;
                            cursor := Z.of_nat (length ([47%N] ++ q));
                            showMenu := showMenu (state prev);
                            selectedIndex := selectedIndex (state prev) |} prev) in *.
  assert (getCommandQuery typed = Some q) as Hquery by (by apply getCommandQuery_slash).
  assert (showMenu (state g) = true) as Hshow.
  { rewrite Eg. unfold updateMenuState. rewrite Hquery.
    unfold filterCommands. by case_match. }
  assert (filteredCommands g
          = filter (fun cmd => prefixMatchIgnoringCase (name cmd) q = true) (commands h))
    as Hfiltered.
  { rewrite Eg. unfold updateMenuState. rewrite Hquery.
    rewrite filterCommands_filtered. simpl. by rewrite Ecmd. }
  assert (filteredCommands g ≠ [] → selectedIndex (state g) = 0) as Hsel.
  { rewrite Eg. unfold updateMenuState. rewrite Hquery. apply filterCommands_selected. }
  simpl. unfold handleData. rewrite Ea. simpl.
  unfold handleSubmit. rewrite Hshow. simpl.
  rewrite <- Hfiltered.
  destruct (filteredCommands g) as [|cmd rest] eqn:Ef.
  - simpl. unfold resolveIfSet, finalizeInput, cleanup. simpl. rewrite Er.
    unfold resolve. simpl. by rewrite Es, Eb.
  - unfold selectedCommand. rewrite Ef, (Hsel ltac:(done)). simpl.
    unfold resolveIfSet, finalizeInput, cleanup. simpl. rewrite Er.
    unfold resolve. simpl. by rewrite Es.
Qed.

Lemma handleData_inactive (data : jsstring) (h : Handler) :
  active h = false → handleData data h = h.
Proof. intros Ha. unfold handleData. by rewrite Ha. Qed.

(** X26: Backspace undoes an insertion: after any keys, typing a printable
    character and then pressing Backspace leaves the buffer and the cursor
    as they were. *)
Theorem backspace_undoes_insertion (h : Handler) (events : list Event) (c : N) :
  printable c →
  buffer (state (run (readLine h) (events ++ [Data [c]; Data [127%N]])))
  = buffer (state (run (readLine h) events)) ∧
  cursor (state (run (readLine h) (events ++ [Data [c]; Data [127%N]])))
  = cursor (state (run (readLine h) events)).
Proof.
  intros Hc. pose proof (run_cursorInBuffer h events) as Hcur.
  change [Data [c]; Data [127%N]] with ([Data [c]] ++ [Data [127%N]]).
  rewrite app_assoc, !run_snoc.
  set (g := run (readLine h) events) in *. cbn [step].
  destruct (active g) eqn:Ha;
    [|by rewrite (handleData_inactive [c] g Ha), (handleData_inactive _ g Ha)].
  rewrite (handleData_printable c g Hc Ha).
  destruct (editing_samePromise g [c]) as ((_ & Hact & _) & _).
  destruct (handleChar_state c g Hcur) as (Eb & Ecur).
  unfold cursorInBuffer in Hcur.
  assert (handleData [127%N] (handleChar [c] g) = handleBackspace (handleChar [c] g)) as ->.
  { unfold handleData. rewrite Hact, Ha. reflexivity. }
  assert (cursorInBuffer (handleChar [c] g)) as Hcur'.
  { unfold cursorInBuffer. rewrite Eb, Ecur, length_app, length_take. simpl.
    rewrite length_drop. lia. }
  destruct (handleBackspace_state (handleChar [c] g) Hcur') as (-> & ->); [lia|].
  rewrite Eb, Ecur. split; [|lia].
  replace (Z.to_nat (cursor (state g) + 1 - 1)) with (Z.to_nat (cursor (state g))) by lia.
  replace (Z.to_nat (cursor (state g) + 1)) with (S (Z.to_nat (cursor (state g)))) by lia.
  set (k := Z.to_nat (cursor (state g))).
  assert (length (take k (buffer (state g))) = k) as Hlen by (rewrite length_take; lia).
  rewrite take_app_length' by done.
  rewrite (cons_middle c (take k (buffer (state g))) (drop k (buffer (state g)))), app_assoc.
  rewrite drop_app_length' by (rewrite length_app; simpl; lia).
  apply take_drop.
Qed.

Lemma setSelectedIndex_same (h : Handler) (i : Z) :
  i = selectedIndex (state h) → setSelectedIndex i h = h.
Proof. intros ->. by destruct h as [[] ? ? ? ? ? ?]. Qed.

Lemma setSelectedIndex_twice (h : Handler) (i j : Z) :
  setSelectedIndex j (setSelectedIndex i h) = setSelectedIndex j h.
Proof. reflexivity. Qed.

(** X27: The two arrow keys of the menu undo each other in every state a read
    can reach, with the wrap-around from the last entry to the first and
    back: Down then Up, and Up then Down, leave the handler as it was. *)
Theorem menu_arrows_undo_each_other (h : Handler) (events : list Event) :
  handleArrowUp (handleArrowDown (run (readLine h) events)) = run (readLine h) events ∧
  handleArrowDown (handleArrowUp (run (readLine h) events)) = run (readLine h) events.
Proof.
  pose proof (run_collecting events (readLine h) (readLine_collecting h)) as (_ & _ & Hsel).
  set (g := run (readLine h) events) in *.
  unfold handleArrowUp, handleArrowDown.
  destruct (showMenu (state g) && (0 <? Z.of_nat (length (filteredCommands g)))) eqn:Hmenu;
    [|by rewrite Hmenu].
  cbn [setSelectedIndex setState state showMenu filteredCommands selectedIndex].
  rewrite Hmenu.
  apply andb_true_iff in Hmenu as [_ Hn]. apply Z.ltb_lt in Hn.
  assert (filteredCommands g ≠ []) as Hne by (intros E; rewrite E in Hn; simpl in Hn; lia).
  specialize (Hsel Hne).
  set (n := Z.of_nat (length (filteredCommands g))) in *.
  set (i := selectedIndex (state g)) in *.
  assert (Z.rem (Z.rem (i + 1) n - 1 + n) n = i) as Hdown.
  { destruct (decide (i + 1 = n)) as [E|E].
    - rewrite E, Z.rem_same by lia.
      replace (0 - 1 + n) with (n - 1) by lia. rewrite Z.rem_small by lia. lia.
    - rewrite (Z.rem_small (i + 1)) by lia.
      replace (i + 1 - 1 + n) with (i + 1 * n) by lia.
      rewrite Z.rem_add by nia. apply Z.rem_small. lia. }
  assert (Z.rem (Z.rem (i - 1 + n) n + 1) n = i) as Hup.
  { destruct (decide (i = 0)) as [E|E].
    - rewrite E. replace (0 - 1 + n) with (n - 1) by lia.
      rewrite (Z.rem_small (n - 1)) by lia.
      replace (n - 1 + 1) with n by lia. apply Z.rem_same. lia.
    - replace (i - 1 + n) with (i - 1 + 1 * n) by lia.
      rewrite Z.rem_add by nia. rewrite (Z.rem_small (i - 1)) by lia.
      replace (i - 1 + 1) with i by lia. apply Z.rem_small. lia. }
  split.
  - change (setSelectedIndex (Z.rem (Z.rem (i + 1) n - 1 + n) n)
              (setSelectedIndex (Z.rem (i + 1) n) g) = g).
    rewrite setSelectedIndex_twice. by apply setSelectedIndex_same.
  - change (setSelectedIndex (Z.rem (Z.rem (i - 1 + n) n + 1) n)
              (setSelectedIndex (Z.rem (i - 1 + n) n) g) = g).
    rewrite setSelectedIndex_twice. by apply setSelectedIndex_same.
Qed.

(** X28: In the numbered menu of the fallback input, [handleSelection] gives
    nothing for an empty answer and for [q] or [Q], and whatever else it
    gives is the name of one of the commands listed. *)
Theorem handleSelection_names_listed_command (input : jsstring) (h : Handler) :
  (trim input = [] ∨ trim input = lit "q" ∨ trim input = lit "Q" →
   handleSelection input h = None) ∧
  (∀ selected : jsstring,
     handleSelection input h = Some selected →
     ∃ cmd : CommandOption, cmd ∈ filteredCommands h ∧ name cmd = selected).
Proof.
  unfold handleSelection. split.
  - intros Hq. by rewrite decide_True.
  - intros selected. destruct (decide _) as [|_]; [done|].
    assert (∀ o : option CommandOption,
              name <$> o = Some selected →
              (∀ cmd, o = Some cmd → cmd ∈ filteredCommands h) →
              ∃ cmd, cmd ∈ filteredCommands h ∧ name cmd = selected) as Hfound.
    { intros [cmd|] E Hin; [|done]. injection E as <-. exists cmd. split; [|done].
      by apply Hin. }
    repeat case_match; intros E; simplify_eq.
    all: match goal with H : name <$> _ = Some _ |- _ => apply (Hfound _ H) end;
      intros cmd Hcmd;
      first [by eapply list_elem_of_lookup_2
            |apply head_Some_elem_of in Hcmd;
             by apply list_elem_of_filter in Hcmd as [_ ?]].
Qed.

Lemma step_releasable (h : Handler) (ev : Event) :
  resolveInput h = true ∨ is_Some (settled h) →
  resolveInput (step h ev) = true ∨ is_Some (settled (step h ev)).
Proof.
  intros Hr.
  assert (∀ value, let g := resolveIfSet value (finalizeInput h) in
                   resolveInput g = true ∨ is_Some (settled g)) as Hresolve.
  { intros value. unfold resolveIfSet, finalizeInput, cleanup, resolve. simpl.
    destruct (resolveInput h) eqn:E; simpl; [|destruct Hr as [|Hs]; [done|by right]].
    right. by destruct (settled h). }
  destruct ev as [data|]; simpl.
  - destruct (editing_samePromise h data)
      as ((Hc1 & _ & Hc2 & _) & (Hb1 & _ & Hb2 & _) & (Hu1 & _ & Hu2 & _)
          & (Hd1 & _ & Hd2 & _) & (Hr1 & _ & Hr2 & _) & (Hl1 & _ & Hl2 & _)).
    unfold handleData.
    repeat case_match; try done; try (unfold handleCancel; apply Hresolve);
      try (by rewrite Hb1, Hb2); try (by rewrite Hu1, Hu2); try (by rewrite Hd1, Hd2);
      try (by rewrite Hr1, Hr2); try (by rewrite Hl1, Hl2); try (by rewrite Hc1, Hc2).
    unfold handleSubmit. repeat case_match; try done; apply Hresolve.
  - unfold stop, cleanup, resolve. simpl.
    destruct (resolveInput h) eqn:E; simpl; [|destruct Hr as [|Hs]; [done|by right]].
    right. by destruct (settled h).
Qed.

(** X29: On a terminal [stop()] always releases the read: whatever keys
    came before, it returns, the promise of [readLine] is then settled,
    with [null] if it was still pending, the handler is inactive and has
    dropped the resolver, and key data that arrives later changes nothing.
    When standard input is not a terminal, [stop()] throws a [TypeError]
    once the handler is inactive: the promise and the resolver stay as they
    were, so a read that is pending is not released. *)
Theorem stop_releases_read (h : Handler) (events : list Event) :
  ((stop true (run (readLine h) events)).1 = Returned ∧
   active (stop true (run (readLine h) events)).2 = false ∧
   resolveInput (stop true (run (readLine h) events)).2 = false ∧
   is_Some (settled (stop true (run (readLine h) events)).2) ∧
   (settled (run (readLine h) events) = None →
    settled (stop true (run (readLine h) events)).2 = Some None) ∧
   (∀ data : jsstring,
      handleData data (stop true (run (readLine h) events)).2
      = (stop true (run (readLine h) events)).2)) ∧
  (∀ g : Handler,
     (stop false g).1 = TypeErrorThrown ∧
     active (stop false g).2 = false ∧
     settled (stop false g).2 = settled g ∧
     resolveInput (stop false g).2 = resolveInput g) ∧
  settled (stop false (readLine h)).2 = None.
Proof.
  split; [|split; [intros g; by repeat split|done]].
  assert (∀ g, resolveInput g = true ∨ is_Some (settled g) →
               resolveInput (run g events) = true ∨ is_Some (settled (run g events)))
    as Hrun.
  { induction events as [|ev events IH]; intros g Hg; [done|].
    simpl. apply IH. by apply step_releasable. }
  specialize (Hrun (readLine h) (or_introl eq_refl)).
  set (g := run (readLine h) events) in *.
  assert (active (stop true g).2 = false) as Ha.
  { unfold stop. simpl. by case_match. }
  split; [unfold stop; simpl; by case_match|].
  split; [exact Ha|]. split; [unfold stop; simpl; by case_match|].
  split; [|split].
  - unfold stop, cleanup, resolve. simpl.
    destruct (resolveInput g) eqn:E; simpl.
    + by destruct (settled g).
    + by destruct Hrun.
  - intros Hs. unfold stop, cleanup, resolve. simpl.
    destruct (resolveInput g) eqn:E; simpl.
    + by rewrite Hs.
    + destruct Hrun as [|[? Hsome]]; [done|]. rewrite Hs in Hsome. done.
  - intros data. by apply handleData_inactive.
Qed.

End RawInputEditing.

(** ** Tool errors *)
Section ToolErrors.
Import Tools ToolBase.

(** X30: An error made by [createToolError] carries the message, the code and,
    unless it is [undefined], the details it was given, and [isToolError]
    recognises it exactly when the code is not the empty string; a plain
    [Error] and values that are not errors are never tool errors. *)
Theorem createToolError_recognised (code message : jsstring) (details : JsValue) :
  (isToolError (AnError (createToolError code message details)) = true ↔ code ≠ []) ∧
  ToolBase.message (createToolError code message details) = message ∧
  ToolBase.code (createToolError code message details) = Some (VString code) ∧
  ToolBase.details (createToolError code message details)
  = match details with VUndefined => None | _ => Some details end ∧
  isToolError (AnError (ToolBase.newError message)) = false ∧
  isToolError (NotAnError details) = false.
Proof.
  assert (ToolBase.code (createToolError code message details) = Some (VString code)) as Hcode
    by (by destruct details).
  split; [|split; [by destruct details|split; [exact Hcode|split; [|done]]]].
  - unfold isToolError. rewrite Hcode. destruct code; simpl; split; try done.
  - destruct details; simpl; try done.
Qed.

End ToolErrors.

(** ** Instances *)
Section ToolCallExamples.
Import Path Tools.

Lemma invalid_parameters_make_no_call_witness :
  (write_file ≠ delete_file ∧ ¬ valid write_file VNull) ∧
  execute unit (examplePlatform (lit "/w")) write_file VNull
          {| workspace := lit "/w" |} untouched
  = (Returns (failed (lit "Required")), untouched).
Proof.
  assert (write_file ≠ delete_file) as Htool by discriminate.
  assert (¬ valid write_file VNull) as Hinvalid by (intros []).
  split; [split; [exact Htool|exact Hinvalid]|].
  destruct (invalid_parameters_make_no_call unit (examplePlatform (lit "/w")) write_file VNull
              {| workspace := lit "/w" |} untouched Htool Hinvalid)
    as [(msg & Hrun & Hmsg)|(Hread & _)]; [|discriminate Hread].
  rewrite Hrun, Hmsg by discriminate. reflexivity.
Defined.

Lemma list_files_lists_witness :
  (list_files_parameters [(lit "path", VString (lit "src")); (lit "includeStats", VBool true)]
   = Some {| list_path := lit "src"; list_pattern := lit "*";
             list_recursive := false; list_includeStats := true |} ∧
   admitted (cwd (scriptedPlatform (lit "/w") [lit "b"; lit "10"; lit "gone"]
                                   (lit "/w/src/gone") (lit "Required")))
            (lit "/w") (lit "src")) ∧
  ∃ o : StatsObject,
    execute unit
            (scriptedPlatform (lit "/w") [lit "b"; lit "10"; lit "gone"]
                              (lit "/w/src/gone") (lit "Required"))
            list_files
            (VObject [(lit "path", VString (lit "src")); (lit "includeStats", VBool true)])
            {| workspace := lit "/w" |} untouched
    = (Returns (succeeded (ListData [lit "b"; lit "10"; lit "gone"] (Some o) 3)),
       {| fs := ();
          calls := [Access (lit "/w/src"); Glob (lit "*") (lit "/w/src");
                    Stat (lit "/w/src/b"); Stat (lit "/w/src/10");
                    Stat (lit "/w/src/gone")] |}) ∧
    own o !! lit "10" = Some (4, false) ∧
    own o !! lit "gone" = Some (0, false) ∧
    own o !! lit "other" = None.
Proof.
  assert (list_files_parameters
            [(lit "path", VString (lit "src")); (lit "includeStats", VBool true)]
          = Some {| list_path := lit "src"; list_pattern := lit "*";
                    list_recursive := false; list_includeStats := true |}) as Hparse
    by reflexivity.
  assert (admitted (cwd (scriptedPlatform (lit "/w") [lit "b"; lit "10"; lit "gone"]
                                          (lit "/w/src/gone") (lit "Required")))
                   (lit "/w") (lit "src")) as Hin.
  { exists [lit "src"]. split; [reflexivity|]. by intros seg rest [= <- <-]. }
  split; [split; [exact Hparse|exact Hin]|].
  destruct (list_files_lists unit
              (scriptedPlatform (lit "/w") [lit "b"; lit "10"; lit "gone"]
                                (lit "/w/src/gone") (lit "Required")) _ _
              {| workspace := lit "/w" |} untouched [lit "b"; lit "10"; lit "gone"]
              Hparse Hin eq_refl eq_refl) as (stats & Hrun & o & -> & Hown & _).
  exists o. split; [exact Hrun|]. rewrite !Hown. repeat split.
Defined.

Lemma file_tool_calls_accounted_for_witness :
  (read_file ∈ fileTools ∧
   ReadFile (lit "/w/a") utf8
   ∈ callsSince untouched
       (execute unit (examplePlatform (lit "/w")) read_file (pathOnly (lit "a"))
                {| workspace := lit "/w" |} untouched).2) ∧
  ∃ path : jsstring,
    pathArgument (pathOnly (lit "a")) = Some path ∧
    admitted (cwd (examplePlatform (lit "/w"))) (lit "/w") path.
Proof.
  assert (read_file ∈ fileTools) as Htool by (unfold fileTools; repeat constructor).
  assert (ReadFile (lit "/w/a") utf8
          ∈ callsSince untouched
              (execute unit (examplePlatform (lit "/w")) read_file (pathOnly (lit "a"))
                       {| workspace := lit "/w" |} untouched).2) as Hcall
    by (vm_compute; repeat constructor).
  split; [split; [exact Htool|exact Hcall]|].
  destruct (file_tool_calls_accounted_for unit (examplePlatform (lit "/w")) read_file
              (pathOnly (lit "a")) {| workspace := lit "/w" |} untouched _ Htool Hcall)
    as (path & Hpath & Hin & _).
  by exists path.
Defined.

Lemma delete_file_rm_guarded_witness :
  Rm (lit "/w/a") false
  ∈ callsSince untouched
      (execute unit (examplePlatform (lit "/w")) delete_file (pathOnly (lit "a"))
               {| workspace := lit "/w" |} untouched).2 ∧
  ∃ size : Z, stat (examplePlatform (lit "/w")) () (lit "/w/a") = inr (size, false).
Proof.
  assert (Rm (lit "/w/a") false
          ∈ callsSince untouched
              (execute unit (examplePlatform (lit "/w")) delete_file (pathOnly (lit "a"))
                       {| workspace := lit "/w" |} untouched).2) as Hcall
    by (vm_compute; repeat constructor).
  split; [exact Hcall|].
  destruct (delete_file_rm_guarded unit (examplePlatform (lit "/w")) (pathOnly (lit "a"))
              {| workspace := lit "/w" |} untouched _ _ Hcall)
    as (fields & p & size & isDirectory & _ & _ & _ & _ & _ & Hstat & Hrec & _).
  exists size. destruct isDirectory; [discriminate Hrec|exact Hstat].
Defined.

(** The exception of [read_file]: the schema rejects the object given as
    [path], the message of the schema error quotes the value [ENOENT] given
    as [encoding], and the object has an own property [toString] that is
    not a function. *)
Lemma guarded_tools_return_witness :
  read_file ≠ delete_file ∧
  execute unit
          (scriptedPlatform (lit "/w") [] []
             (lit "Invalid enum value. Expected 'utf-8' | 'base64' | 'utf-16le', received 'ENOENT'"))
          read_file
          (VObject [(lit "path", VObject [(lit "toString", VNumber 1)]);
                    (lit "encoding", VString (lit "ENOENT"))])
          {| workspace := lit "/w" |} untouched
  = (Throws (newError (lit "Cannot convert object to primitive value")), untouched).
Proof.
  assert (read_file ≠ delete_file) as Htool by discriminate.
  split; [exact Htool|].
  destruct (guarded_tools_return unit
              (scriptedPlatform (lit "/w") [] []
                 (lit "Invalid enum value. Expected 'utf-8' | 'base64' | 'utf-16le', received 'ENOENT'"))
              read_file
              (VObject [(lit "path", VObject [(lit "toString", VNumber 1)]);
                        (lit "encoding", VString (lit "ENOENT"))])
              {| workspace := lit "/w" |} untouched Htool)
    as [(r & w' & Hr & _)|(_ & e & w' & Hthrows & He)].
  - vm_compute in Hr. discriminate Hr.
  - rewrite Hthrows. vm_compute in He, Hthrows. vm_compute. congruence.
Defined.

End ToolCallExamples.

Section REPLTurnExamples.
Import Session REPL.

Lemma exit_command_with_arguments_witness :
  (startsWith (trim (lit "/exit now")) (lit "/") = true ∧
   commands !! commandNameOf (trim (lit "/exit now")) = Some cmdExit) ∧
  chatLoopIteration Z.of_nat (fun _ => []) (answeringContext false)
                    (Some (lit "/exit now")) initialWorld
  = (true, withEffects initialWorld [Output (lit "Goodbye!")]).
Proof.
  assert (startsWith (trim (lit "/exit now")) (lit "/") = true) as Hslash by reflexivity.
  assert (commands !! commandNameOf (trim (lit "/exit now")) = Some cmdExit) as Hexit
    by reflexivity.
  split; [split; [exact Hslash|exact Hexit]|].
  destruct (exit_command_with_arguments Z.of_nat (fun _ => []) (answeringContext false)
              (lit "/exit now") initialWorld Hslash Hexit) as (_ & ->).
  rewrite bool_decide_eq_false_2; [reflexivity|].
  intros [E|E]; vm_compute in E; discriminate E.
Defined.

Lemma blank_line_ignored_witness :
  Forall (fun c => isWhiteSpace c = true) (lit "  ") ∧
  processInput Z.of_nat (fun _ => []) (answeringContext false) (lit "  ") initialWorld
  = (Returns (), initialWorld).
Proof.
  assert (Forall (fun c => isWhiteSpace c = true) (lit "  ")) as Hblank
    by (vm_compute; repeat constructor).
  split; [exact Hblank|].
  apply (blank_line_ignored Z.of_nat (fun _ => []) (answeringContext false)
           (lit "  ") initialWorld Hblank).
Defined.

Lemma clear_command_empties_log_witness :
  (startsWith (trim (lit "/CLEAR")) (lit "/") = true ∧
   commands !! commandNameOf (trim (lit "/CLEAR")) = Some cmdClear) ∧
  ∃ w' : World,
    chatLoopIteration Z.of_nat (fun _ => []) (answeringContext false)
                      (Some (lit "/CLEAR")) initialWorld = (true, w') ∧
    getMessageCount (heap w') (session w') = 0%nat.
Proof.
  assert (startsWith (trim (lit "/CLEAR")) (lit "/") = true) as Hslash by reflexivity.
  assert (commands !! commandNameOf (trim (lit "/CLEAR")) = Some cmdClear) as Hclear
    by reflexivity.
  split; [split; [exact Hslash|exact Hclear]|].
  destruct (clear_command_empties_log Z.of_nat (fun _ => []) (answeringContext false)
              (lit "/CLEAR") initialWorld Hslash Hclear) as (w' & Hloop & _ & Hcount & _).
  by exists w'.
Defined.

Lemma initialWorld_wf : wf (heap initialWorld) (session initialWorld).
Proof. split; [simpl; lia|]. split; vm_compute; constructor. Qed.

Lemma turn_stores_reply_witness :
  (wf (heap initialWorld) (session initialWorld) ∧
   getEstimatedTokenCount (heap initialWorld) (session initialWorld)
   + estimateTokens (trim (lit "hello")) + 10 ≤ maxTokens (session initialWorld) ∧
   trim (lit "hello") ≠ [] ∧
   startsWith (trim (lit "hello")) (lit "/") = false) ∧
  ∃ w' : World,
    processInput Z.of_nat (fun _ => []) (answeringContext false) (lit "hello") initialWorld
    = (Returns (), w') ∧
    getMessagesForAI (heap w') (session w')
    = [(user, lit "hello"); (assistant, lit "ok")].
Proof.
  pose proof initialWorld_wf as Hwf.
  assert (getEstimatedTokenCount (heap initialWorld) (session initialWorld)
          + estimateTokens (trim (lit "hello")) + 10 ≤ maxTokens (session initialWorld))
    as Hroom by (vm_compute; discriminate).
  assert (trim (lit "hello") ≠ []) as Hne by (vm_compute; discriminate).
  assert (startsWith (trim (lit "hello")) (lit "/") = false) as Hmsg by reflexivity.
  split; [split; [exact Hwf|split; [exact Hroom|split; [exact Hne|exact Hmsg]]]|].
  destruct (turn_stores_reply Z.of_nat (fun _ => []) (answeringContext false)
              (lit "hello") initialWorld (lit "ok") Hwf Hroom Hne Hmsg eq_refl eq_refl)
    as (w' & Hrun & Hai & _).
  exists w'. split; [exact Hrun|]. rewrite Hai. reflexivity.
Defined.

Lemma streamed_turn_stores_chunks_witness :
  (wf (heap initialWorld) (session initialWorld) ∧
   getEstimatedTokenCount (heap initialWorld) (session initialWorld)
   + estimateTokens (trim (lit "hello")) + 10 ≤ maxTokens (session initialWorld) ∧
   trim (lit "hello") ≠ [] ∧
   startsWith (trim (lit "hello")) (lit "/") = false) ∧
  ∃ w' : World,
    processInput Z.of_nat (fun _ => []) (answeringContext true) (lit "hello") initialWorld
    = (Returns (), w') ∧
    effects w' = [StdoutWrite (lit "o"); StdoutWrite (lit "k"); StdoutWrite [10%N]].
Proof.
  pose proof initialWorld_wf as Hwf.
  assert (getEstimatedTokenCount (heap initialWorld) (session initialWorld)
          + estimateTokens (trim (lit "hello")) + 10 ≤ maxTokens (session initialWorld))
    as Hroom by (vm_compute; discriminate).
  assert (trim (lit "hello") ≠ []) as Hne by (vm_compute; discriminate).
  assert (startsWith (trim (lit "hello")) (lit "/") = false) as Hmsg by reflexivity.
  split; [split; [exact Hwf|split; [exact Hroom|split; [exact Hne|exact Hmsg]]]|].
  destruct (streamed_turn_stores_chunks Z.of_nat (fun _ => []) (answeringContext true)
              (lit "hello") initialWorld [lit "o"; lit "k"] Hwf Hroom Hne Hmsg eq_refl eq_refl)
    as (w' & Hrun & _ & Heff & _).
  exists w'. split; [exact Hrun|]. rewrite Heff. reflexivity.
Defined.

Lemma history_command_lists_log_witness :
  (wf (heap talkedWorld) (session talkedWorld) ∧
   startsWith (trim (lit "/history")) (lit "/") = true ∧
   commands !! commandNameOf (trim (lit "/history")) = Some cmdHistory) ∧
  ∃ w' : World,
    processInput Z.of_nat (fun _ => lit "10:00") (answeringContext false)
                 (lit "/history") talkedWorld
    = (Returns (), w') ∧
    effects w' = [Output (lit "Conversation History (2 messages):");
                  Output (lit "  [10:00] USER      : hello");
                  Output (lit "  [10:00] ASSISTANT : hi")] ∧
    log (heap w') (session w') = log (heap talkedWorld) (session talkedWorld).
Proof.
  assert (wf (heap talkedWorld) (session talkedWorld)) as Hwf.
  { split; [simpl; lia|]. split; vm_compute; repeat constructor. }
  assert (startsWith (trim (lit "/history")) (lit "/") = true) as Hslash by reflexivity.
  assert (commands !! commandNameOf (trim (lit "/history")) = Some cmdHistory) as Hhistory
    by reflexivity.
  split; [split; [exact Hwf|split; [exact Hslash|exact Hhistory]]|].
  destruct (history_command_lists_log Z.of_nat (fun _ => lit "10:00") (answeringContext false)
              (lit "/history") talkedWorld Hwf Hslash Hhistory)
    as (w' & Hrun & Hlog & _ & Heff).
  exists w'. split; [exact Hrun|]. split; [|exact Hlog]. rewrite Heff. reflexivity.
Defined.

End REPLTurnExamples.

Section RawInputExamples.
Import RawInput.

#[local] Existing Instance asciiEngine.

Lemma typed_line_returned_witness :
  (Forall printable (lit " hi ") ∧ lit " hi " ≠ [] ∧
   startsWith (trimStart (lit " hi ")) (lit "/") = false) ∧
  settled (run (readLine (setCommands chatCommands newHandler))
               (typing (lit " hi ") ++ [Data [13%N]]))
  = Some (Some (lit " hi ")).
Proof.
  assert (Forall printable (lit " hi ")) as Hp.
  { vm_compute. repeat constructor; discriminate. }
  assert (lit " hi " ≠ []) as Hne by (vm_compute; discriminate).
  assert (startsWith (trimStart (lit " hi ")) (lit "/") = false) as Hplain by reflexivity.
  split; [split; [exact Hp|split; [exact Hne|exact Hplain]]|].
  apply (typed_line_returned (setCommands chatCommands newHandler) (lit " hi ") Hp Hne Hplain).
Defined.

Lemma slash_prefix_completes_witness :
  (Forall printable (lit "H") ∧ Forall (fun c => isWhiteSpace c = false) (lit "H")) ∧
  settled (run (readLine (setCommands chatCommands newHandler))
               (typing (lit "/" ++ lit "H") ++ [Data [13%N]]))
  = Some (Some (lit "/help")).
Proof.
  assert (Forall printable (lit "H")) as Hp.
  { vm_compute. repeat constructor; discriminate. }
  assert (Forall (fun c => isWhiteSpace c = false) (lit "H")) as Hq
    by (vm_compute; repeat constructor).
  split; [split; [exact Hp|exact Hq]|].
  rewrite (slash_prefix_completes (setCommands chatCommands newHandler) (lit "H") Hp Hq).
  reflexivity.
Defined.

Lemma backspace_undoes_insertion_witness :
  printable 120%N ∧
  buffer (state (run (readLine newHandler)
                     (typing (lit "ab") ++ [Data [120%N]; Data [127%N]])))
  = buffer (state (run (readLine newHandler) (typing (lit "ab")))).
Proof.
  assert (printable 120%N) as Hp by (split; [vm_compute; discriminate|discriminate]).
  split; [exact Hp|].
  apply (backspace_undoes_insertion newHandler (typing (lit "ab")) 120%N Hp).
Defined.

End RawInputExamples.
